(** * Schema-graph analysis of supabase-viewer

    A shallow embedding of the graph algorithms that the schema views run on
    a [SchemaData] value (tables and foreign keys), with the properties the
    specification states about them.

    Conventions.
    - A JavaScript object used as a dictionary whose enumeration order is
      never observed ([deps], [placed], [parent], [parentMap], [matrix],
      [connCount]) is a [gmap] or a [gset] keyed by [string]; it holds the
      own properties.
    - A JavaScript object that is enumerated ([groups], [clusters],
      [nodeMap]) is an association list in insertion order, enumerated by
      [JsObject.entries] the way the language does: array-index keys first,
      in ascending numeric order, then the other keys in insertion order.
    - These dictionaries are plain objects, which inherit the members of
      [Object.prototype].  A read that finds such a member and calls a
      method on it throws a [TypeError]; the function that embeds the read
      returns [None] there ([Levels.deps_add], [UnionFind.group_step],
      [Timeline.push_dependsOn], [Story.adj_add]).  A truthiness test sees
      the member as truthy ([truthy_at] in [Hierarchy]).  Where the source
      goes on with the member as a value ([UnionFind.find],
      [Correlation]) the embedding does not follow it, and says so at the
      definition.  The general properties are stated for [plain_names]:
      no table and no end of a foreign key is named like an inherited
      member.
    - Truthiness tests on strings ([!parent[x]], [!parentMap[x]]) are kept:
      a missing key and the empty string are both falsy.
    - JavaScript numbers that are counts are [nat] or [Z]; coordinates and
      velocities are IEEE-754 binary64 values ([PrimFloat]). *)

From Stdlib Require Import Floats.
From stdpp Require Import gmap strings pretty list fin_maps sorting relations.

Set Warnings "-inexact-float,-clear-no-such-hyp".
Open Scope string_scope.
Open Scope list_scope.
Open Scope nat_scope.
Open Scope stdpp_scope.

(** ** Data model ([schema-types]) *)

Record ColumnInfo := {
  col_name : string;
  dataType : string;
  isNullable : bool;
  defaultValue : option string;
  isPrimaryKey : bool;
  isForeignKey : bool;
  isUnique : bool;
  references : option (string * string)
}.

Record TableInfo := {
  name : string;
  schema : string;
  columns : list ColumnInfo
}.

Record ForeignKey := {
  constraintName : string;
  sourceTable : string;
  sourceColumn : string;
  targetTable : string;
  targetColumn : string
}.

Record SchemaData := {
  tables : list TableInfo;
  foreignKeys : list ForeignKey
}.

(** A bare table and a bare foreign key, for examples. *)
Definition tbl (n : string) : TableInfo :=
  {| name := n; schema := "public"; columns := [] |}.

Definition fk (s t : string) : ForeignKey :=
  {| constraintName := (s ++ "_" ++ t ++ "_fkey")%string;
     sourceTable := s; sourceColumn := "c";
     targetTable := t; targetColumn := "id" |}.

(** JavaScript truthiness of a string-valued property read. *)
Definition truthy (v : option string) : bool :=
  match v with
  | Some s => negb (String.eqb s "")
  | None => false
  end.

(** ** Plain objects as dictionaries

    The views keep their dictionaries in plain objects ([{}]), and a plain
    object inherits the members of [Object.prototype].  A read [o[k]] of a
    key that is no own property of [o] finds the inherited member when [k]
    is one of the names below: a function (an object for [__proto__]),
    which is truthy, is not [undefined], and has no method of a [Set], of
    an array or of a record of the views.  A write [o[k] = v] makes [k] an
    own property, except for [__proto__], which stays inherited; the maps
    below store every written key, so they stand for the object only when
    [__proto__] is not written, which [plain_names] provides. *)
Definition inherited_names : list string :=
  ["__defineGetter__"; "__defineSetter__"; "__lookupGetter__";
   "__lookupSetter__"; "__proto__"; "constructor"; "hasOwnProperty";
   "isPrototypeOf"; "propertyIsEnumerable"; "toLocaleString"; "toString";
   "valueOf"].

Definition inherited (k : string) : bool :=
  existsb (String.eqb k) inherited_names.

(** Truthiness of [o[k]] for a plain object [o] with string values: an own
    string that is not empty, or an inherited member. *)
Definition truthy_at (o : gmap string string) (k : string) : bool :=
  match o !! k with
  | Some s => negb (String.eqb s "")
  | None => inherited k
  end.

(** ** The search filter shared by the views *)

Fixpoint includes (s sub : string) : bool :=
  String.prefix sub s ||
  match s with
  | EmptyString => false
  | String _ s' => includes s' sub
  end.

Section Search.
(** [String.prototype.toLowerCase] is left abstract. *)
Variable toLowerCase : string → string.

Definition matchesSearch (searchQuery : string) (t : TableInfo) : bool :=
  String.eqb searchQuery "" ||
  includes (toLowerCase (name t)) (toLowerCase searchQuery) ||
  existsb (λ c, includes (toLowerCase (col_name c)) (toLowerCase searchQuery))
          (columns t).

Definition filteredTables (s : SchemaData) (searchQuery : string) : list TableInfo :=
  List.filter (matchesSearch searchQuery) (tables s).
End Search.

(** ** Level Assignment ([ProcessFlowView], [TimelineView]) *)

Module Levels.

(** [tables.forEach(t => { deps[t.name] = new Set(); })] *)
Definition deps_init (ts : list TableInfo) : gmap string (gset string) :=
  foldl (λ d t, <[name t := ∅]> d) ∅ ts.

(** [if (deps[fk.sourceTable]) deps[fk.sourceTable].add(fk.targetTable)]
    for a source that is an own key of [deps], or that no object
    inherits. *)
Definition deps_add_own (d : gmap string (gset string)) (k : ForeignKey)
  : gmap string (gset string) :=
  match d !! sourceTable k with
  | Some s => <[sourceTable k := s ∪ {[targetTable k]}]> d
  | None => d
  end.

(** The same statement for every source.  When the source is no own key
    and names an inherited member, the test finds that member, which has
    no [add], and the call throws a [TypeError]: [None]. *)
Definition deps_add (d : gmap string (gset string)) (k : ForeignKey)
  : option (gmap string (gset string)) :=
  match d !! sourceTable k with
  | Some _ => Some (deps_add_own d k)
  | None => if inherited (sourceTable k) then None else Some d
  end.

(** [deps] after both [forEach] loops; [None] when the second one threw. *)
Definition build_deps (ts : list TableInfo) (fks : list ForeignKey)
  : option (gmap string (gset string)) :=
  foldl (λ d k, d ≫= λ d, deps_add d k) (Some (deps_init ts)) fks.

(** [[...(deps[t.name] || [])].filter(d => !placed.has(d))] *)
Definition unmet (deps : gmap string (gset string)) (placed : gset string)
    (n : string) : list string :=
  filter (λ d, d ∉ placed) (elements (default ∅ (deps !! n))).

(** The first [forEach] of the loop body: unplaced tables with no unmet
    dependency, in table order. *)
Definition placeable (deps : gmap string (gset string)) (placed : gset string)
    (ts : list TableInfo) : list TableInfo :=
  filter (λ t, (name t ∉ placed) ∧ (unmet deps placed (name t) = [])) ts.

(** The fallback [forEach]: every unplaced table. *)
Definition unplaced (placed : gset string) (ts : list TableInfo) : list TableInfo :=
  filter (λ t, name t ∉ placed) ts.

Definition next_level (deps : gmap string (gset string)) (placed : gset string)
    (ts : list TableInfo) : list TableInfo :=
  match placeable deps placed ts with
  | [] => unplaced placed ts
  | level => level
  end.

(** [while (placed.size < tables.length) { ... levels.push(level); }];
    [None] when the iteration budget [fuel] runs out before the guard
    turns false. *)
Fixpoint levels_loop (fuel : nat) (deps : gmap string (gset string))
    (ts : list TableInfo) (levels : list (list TableInfo)) (placed : gset string)
    : option (list (list TableInfo)) :=
  if decide (size placed < length ts) then
    match fuel with
    | O => None
    | S fuel' =>
        let level := next_level deps placed ts in
        levels_loop fuel' deps ts (levels ++ [level])
                    (placed ∪ list_to_set (name <$> level))
    end
  else Some levels.

(** The levels of [TimelineView] (lists of tables), run with a budget of
    [fuel] iterations; [None] when building [deps] threw or the budget ran
    out. *)
Definition levels_within (fuel : nat) (ts : list TableInfo) (fks : list ForeignKey)
  : option (list (list TableInfo)) :=
  match build_deps ts fks with
  | Some deps => levels_loop fuel deps ts [] ∅
  | None => None
  end.

(** The levels of [ProcessFlowView] hold the table names. *)
Definition level_names (fuel : nat) (ts : list TableInfo) (fks : list ForeignKey)
  : option (list (list string)) :=
  match levels_within fuel ts fks with
  | Some ls => Some (map (map name) ls)
  | None => None
  end.

(** Index of the level that holds table name [n]: the [level] field of
    its [FlowNode]. *)
Fixpoint level_of (levels : list (list string)) (n : string) : option nat :=
  match levels with
  | [] => None
  | l :: rest =>
      if decide (n ∈ l) then Some 0 else option_map S (level_of rest n)
  end.

End Levels.

Section LevelViews.
Variable toLowerCase : string → string.

Definition processFlowLevels (s : SchemaData) (searchQuery : string)
  : option (list (list string)) :=
  let ts := filteredTables toLowerCase s searchQuery in
  Levels.level_names (length ts) ts (foreignKeys s).

Definition timelineLevels (s : SchemaData) : option (list (list TableInfo)) :=
  Levels.levels_within (length (tables s)) (tables s) (foreignKeys s).
End LevelViews.

(** ** JavaScript arrays and enumerated objects *)

(** [Array.prototype.sort] with a comparator is stable; with a consistent
    comparator its result is the stable sort, which insertion from the right
    computes: an element moves past its right neighbours only while the
    comparator is strictly positive. *)
Section ArraySort.
Context {A : Type} (cmp : A → A → Z).

Fixpoint sort_insert (x : A) (l : list A) : list A :=
  match l with
  | [] => [x]
  | y :: l' => if (0 <? cmp x y)%Z then y :: sort_insert x l' else x :: l
  end.

Definition array_sort (l : list A) : list A := foldr sort_insert [] l.
End ArraySort.

Module JsObject.

Fixpoint get {V : Type} (o : list (string * V)) (k : string) : option V :=
  match o with
  | [] => None
  | (k', v) :: o' => if String.eqb k' k then Some v else get o' k
  end.

(** [o[k] = v]: an existing key keeps its place, a new one goes last. *)
Fixpoint set {V : Type} (o : list (string * V)) (k : string) (v : V)
  : list (string * V) :=
  match o with
  | [] => [(k, v)]
  | (k', v') :: o' =>
      if String.eqb k' k then (k', v) :: o' else (k', v') :: set o' k v
  end.

Definition digit (c : Ascii.ascii) : option N :=
  let n := Ascii.N_of_ascii c in
  if (48 <=? n)%N && (n <=? 57)%N then Some (n - 48)%N else None.

Fixpoint digits (s : string) (acc : N) : option N :=
  match s with
  | EmptyString => Some acc
  | String c s' =>
      match digit c with
      | Some d => digits s' (acc * 10 + d)%N
      | None => None
      end
  end.

(** A key is an array index when it is the canonical decimal form of an
    integer below 2^32 - 1. *)
Definition array_index (k : string) : option N :=
  match k with
  | EmptyString => None
  | String c s' =>
      if N.eqb (Ascii.N_of_ascii c) 48 && negb (String.eqb s' "") then None
      else match digits k 0 with
           | Some n => if (n <? 4294967295)%N then Some n else None
           | None => None
           end
  end.

Definition is_index {V : Type} (e : string * V) : bool :=
  bool_decide (is_Some (array_index e.1)).

Definition index_cmp {V : Type} (a b : string * V) : Z :=
  (Z.of_N (default 0%N (array_index a.1)) - Z.of_N (default 0%N (array_index b.1)))%Z.

(** [Object.entries(o)]: own keys in property order. *)
Definition entries {V : Type} (o : list (string * V)) : list (string * V) :=
  array_sort index_cmp (List.filter is_index o)
  ++ List.filter (λ e, negb (is_index e)) o.

(** [Object.values(o)] *)
Definition values {V : Type} (o : list (string * V)) : list V :=
  map snd (entries o).

End JsObject.

(** ** Clustering Engine ([SwimlaneView], [GroupedView]) *)

Module UnionFind.

(** [find]: lazy initialisation, then the walk to the root with path
    compression.  [fuel] bounds the depth of the recursion.

    [parent] is a plain object.  When [x] is no own key of it and names a
    member that every object inherits, [parent[x]] is that member: the
    source takes it for a parent pointer and goes on with a value that is
    no string.  The embedding keeps to strings and does not follow such a
    walk: it answers [None], and every property of the walk below is
    stated for names that are not inherited. *)
Fixpoint find (fuel : nat) (parent : gmap string string) (x : string)
  : option (string * gmap string string) :=
  match fuel with
  | O => None
  | S fuel' =>
      if inherited x && bool_decide (parent !! x = None) then None else
      let parent := if truthy (parent !! x) then parent else <[x := x]> parent in
      let px := default x (parent !! x) in
      if String.eqb px x then Some (x, parent)
      else match find fuel' parent px with
           | Some (r, parent') => Some (r, <[x := r]> parent')
           | None => None
           end
  end.

(** [parent[find(a)] = find(b)]: the left operand's key is evaluated
    first. *)
Definition union (fuel : nat) (parent : gmap string string) (a b : string)
  : option (gmap string string) :=
  match find fuel parent a with
  | Some (ra, p1) =>
      match find fuel p1 b with
      | Some (rb, p2) => Some (<[ra := rb]> p2)
      | None => None
      end
  | None => None
  end.

(** [tables.forEach(t => { parent[t.name] = t.name; })] *)
Definition init (ts : list TableInfo) : gmap string string :=
  foldl (λ p t, <[name t := name t]> p) ∅ ts.

(** A [forEach] whose body may run out of budget. *)
Fixpoint for_each {S X : Type} (body : S → X → option S) (st : S) (l : list X)
  : option S :=
  match l with
  | [] => Some st
  | x :: l' =>
      match body st x with
      | Some st' => for_each body st' l'
      | None => None
      end
  end.

(** The grouping loop: [root = find(t.name)], then
    [if (!groups[root]) groups[root] = []; groups[root].push(t)].

    [groups] is a plain object as well.  For a root that is no own key
    and names an inherited member, [groups[root]] is that member, which
    is truthy: no array is stored, and the call of [push], which the
    member does not have, throws a [TypeError].  The view does not
    render: [None]. *)
Definition group_step (fuel : nat)
    (st : gmap string string * list (string * list TableInfo)) (t : TableInfo)
  : option (gmap string string * list (string * list TableInfo)) :=
  match find fuel st.1 (name t) with
  | Some (root, p) =>
      match JsObject.get st.2 root with
      | Some members => Some (p, JsObject.set st.2 root (members ++ [t]))
      | None =>
          if inherited root then None
          else Some (p, JsObject.set st.2 root [t])
      end
  | None => None
  end.

Definition group_all (fuel : nat) (parent : gmap string string) (ts : list TableInfo)
  : option (list (string * list TableInfo)) :=
  match for_each (group_step fuel) (parent, []) ts with
  | Some st => Some st.2
  | None => None
  end.

(** The comparator of both views: larger clusters first. *)
Definition by_size_desc {K : Type} (a b : K * list TableInfo) : Z :=
  (Z.of_nat (length b.2) - Z.of_nat (length a.2))%Z.

End UnionFind.

Module Swimlane.
Import UnionFind.

Record Lane := {
  lane_id : string;
  lane_tables : list TableInfo;
  lane_color : nat
}.

Definition has_table (ts : list TableInfo) (n : string) : bool :=
  existsb (λ t, String.eqb (name t) n) ts.

(** The guarded [union] of the foreign-key loop. *)
Definition union_step (fuel : nat) (ts : list TableInfo)
    (parent : gmap string string) (k : ForeignKey) : option (gmap string string) :=
  if has_table ts (sourceTable k) && has_table ts (targetTable k)
  then union fuel parent (sourceTable k) (targetTable k)
  else Some parent.

(** The [groups] object: the members of each root, in table order. *)
Definition groups_within (fuel : nat) (ts : list TableInfo) (fks : list ForeignKey)
  : option (list (string * list TableInfo)) :=
  match for_each (union_step fuel ts) (init ts) fks with
  | Some parent => group_all fuel parent ts
  | None => None
  end.

Section Lanes.
(** [String.prototype.localeCompare] depends on the locale. *)
Variable localeCompare : string → string → Z.

Definition make_lane (i : nat) (e : string * list TableInfo) : Lane :=
  {| lane_id := e.1;
     lane_tables :=
       array_sort (λ a b, localeCompare (name a) (name b)) e.2;
     lane_color := i mod 7 |}.

(** [lanes], for the filtered tables [ts]; the lane's display name is
    not modelled. *)
Definition lanes_within (fuel : nat) (ts : list TableInfo) (fks : list ForeignKey)
  : option (list Lane) :=
  match groups_within fuel ts fks with
  | Some groups =>
      Some (imap make_lane (array_sort by_size_desc (JsObject.entries groups)))
  | None => None
  end.
End Lanes.

End Swimlane.

Module Grouped.
Import UnionFind.

(** A cluster of [GroupedView]; [root] is the key it was grouped under,
    which the view keeps only inside [cluster_name]. *)
Record Cluster := {
  root : string;
  cluster_name : string;
  cluster_tables : list TableInfo
}.

Definition union_step (fuel : nat) (parent : gmap string string) (k : ForeignKey)
  : option (gmap string string) :=
  union fuel parent (sourceTable k) (targetTable k).

Definition make_cluster (e : string * list TableInfo) : Cluster :=
  {| root := e.1;
     cluster_name :=
       if bool_decide (1 < length e.2)
       then (e.1 ++ " group (" ++ pretty (length e.2) ++ " tables)")%string
       else e.1;
     cluster_tables := e.2 |}.

Definition cluster_cmp (a b : Cluster) : Z :=
  (Z.of_nat (length (cluster_tables b)) - Z.of_nat (length (cluster_tables a)))%Z.

(** The [clusters] object: the members of each root, in table order. *)
Definition clusters_within (fuel : nat) (ts : list TableInfo) (fks : list ForeignKey)
  : option (list (string * list TableInfo)) :=
  match for_each (union_step fuel) (init ts) fks with
  | Some parent => group_all fuel parent ts
  | None => None
  end.

Definition groups_within (fuel : nat) (ts : list TableInfo) (fks : list ForeignKey)
  : option (list Cluster) :=
  match clusters_within fuel ts fks with
  | Some clusters =>
      Some (array_sort cluster_cmp (make_cluster <$> JsObject.entries clusters))
  | None => None
  end.

End Grouped.

Section ClusterViews.
Variable toLowerCase : string → string.
Variable localeCompare : string → string → Z.

Definition swimlaneLanes (s : SchemaData) (searchQuery : string)
  : option (list Swimlane.Lane) :=
  Swimlane.lanes_within localeCompare (S (length (foreignKeys s)))
    (filteredTables toLowerCase s searchQuery) (foreignKeys s).

Definition groupedGroups (s : SchemaData) : option (list Grouped.Cluster) :=
  Grouped.groups_within (S (length (foreignKeys s))) (tables s) (foreignKeys s).
End ClusterViews.

(** ** Hierarchy Builder ([HierarchyView]) *)

Module Hierarchy.

Record TreeNode := {
  id : string;
  parentId : option string;
  table : TableInfo
}.

Definition virtualRoot : string := "__root__".

(** [if (!parentMap[fk.sourceTable]) parentMap[fk.sourceTable] = fk.targetTable]:
    for a source that names an inherited member the test finds that
    member and nothing is stored. *)
Definition parentMap_add (pm : gmap string string) (k : ForeignKey)
  : gmap string string :=
  if truthy_at pm (sourceTable k) then pm
  else <[sourceTable k := targetTable k]> pm.

Definition build_parentMap (fks : list ForeignKey) : gmap string string :=
  foldl parentMap_add ∅ fks.

(** [tables.filter(t => !parentMap[t.name])]: a table that is named like
    an inherited member is no root candidate. *)
Definition roots (pm : gmap string string) (ts : list TableInfo) : list TableInfo :=
  List.filter (λ t, negb (truthy_at pm (name t))) ts.

Definition has_node (nodes : list TreeNode) (n : string) : bool :=
  existsb (λ nd, String.eqb (id nd) n) nodes.

Definition has_table (ts : list TableInfo) (n : string) : bool :=
  existsb (λ t, String.eqb (name t) n) ts.

(** The nodes pushed before the table loop. *)
Definition root_nodes (rs : list TableInfo) : list TreeNode :=
  match rs with
  | [] => []
  | [r] => [ {| id := name r; parentId := None; table := r |} ]
  | _ =>
      {| id := virtualRoot; parentId := None;
         table := {| name := "Schema"; schema := "public"; columns := [] |} |}
      :: map (λ t, {| id := name t; parentId := Some virtualRoot; table := t |}) rs
  end.

(** [roots.length > 1 ? virtualRoot : roots[0]?.name || null] *)
Definition fallback_parent (rs : list TableInfo) : option string :=
  if bool_decide (1 < length rs) then Some virtualRoot
  else match rs with
       | r :: _ => if String.eqb (name r) "" then None else Some (name r)
       | [] => None
       end.

(** The body of the final [tables.forEach].  When [parentMap[t.name]] is
    an inherited member, no table has it as its name, and the table gets
    the fallback parent like a table without an entry. *)
Definition attach (pm : gmap string string) (ts rs : list TableInfo)
    (nodes : list TreeNode) (t : TableInfo) : list TreeNode :=
  if has_node nodes (name t) then nodes
  else
    let parent := pm !! name t in
    if truthy parent && has_table ts (default "" parent)
    then nodes ++ [ {| id := name t; parentId := parent; table := t |} ]
    else nodes ++ [ {| id := name t; parentId := fallback_parent rs; table := t |} ].

(** [treeData]; [None] is the [null] returned when tables exist and none
    is a root candidate. *)
Definition treeData (ts : list TableInfo) (fks : list ForeignKey)
  : option (list TreeNode) :=
  let pm := build_parentMap fks in
  let rs := roots pm ts in
  if bool_decide (length rs = 0) && bool_decide (0 < length ts) then None
  else Some (foldl (attach pm ts rs) (root_nodes rs) ts).


(** The nodes without a parent. *)
Definition top_nodes (nodes : list TreeNode) : list string :=
  map id (List.filter (λ nd, bool_decide (parentId nd = None)) nodes).

End Hierarchy.

(** ** Connection Matrix Builder ([CorrelationView]) *)

Module Correlation.

(** [matrix[t.name] = {}; tables.forEach(t2 => { matrix[t.name][t2.name] = 0; })] *)
Definition zero_row (ts : list TableInfo) : gmap string nat :=
  foldl (λ r t2, <[name t2 := 0]> r) ∅ ts.

Definition matrix_init (ts : list TableInfo) : gmap string (gmap string nat) :=
  foldl (λ m t, <[name t := zero_row ts]> m) ∅ ts.

(** The matrix and its rows are plain objects.  They are embedded for the
    names that are own keys (the filtered tables) and for names that no
    object inherits.  For another name the guard of the foreign-key loop
    and the reads [matrix[a]?.[b]] pass through the inherited member, and
    the run goes on with a function where the embedding has a number; the
    properties of the matrix are stated for names that no object inherits
    ([plain_names]). *)

(** [matrix[a][b]++], for a cell that exists. *)
Definition incr (m : gmap string (gmap string nat)) (a b : string)
  : gmap string (gmap string nat) :=
  match m !! a with
  | Some row =>
      match row !! b with
      | Some n => <[a := <[b := S n]> row]> m
      | None => m
      end
  | None => m
  end.

(** The body of [schema.foreignKeys.forEach]; the tooltip details kept
    beside the matrix are not modelled. *)
Definition matrix_add (m : gmap string (gmap string nat)) (k : ForeignKey)
  : gmap string (gmap string nat) :=
  match m !! sourceTable k with
  | Some row =>
      if bool_decide (is_Some (row !! targetTable k))
      then incr (incr m (sourceTable k) (targetTable k))
                (targetTable k) (sourceTable k)
      else m
  | None => m
  end.

Definition build_matrix (ts : list TableInfo) (fks : list ForeignKey)
  : gmap string (gmap string nat) :=
  foldl matrix_add (matrix_init ts) fks.

(** [matrix[a]?.[b] ?? 0] *)
Definition cell (m : gmap string (gmap string nat)) (a b : string) : nat :=
  default 0 (m !! a ≫= λ row, row !! b).

(** Sum of [f a b] over the unordered pairs of a list: the pairs of
    positions [i < j]. *)
Fixpoint pair_sum (f : string → string → nat) (ns : list string) : nat :=
  match ns with
  | [] => 0
  | a :: rest => sum_list (f a <$> rest) + pair_sum f rest
  end.

(** Sum of the cells above the diagonal. *)
Definition upper_sum (m : gmap string (gmap string nat)) (ns : list string) : nat :=
  pair_sum (cell m) ns.

(** Foreign keys with both ends among the names [ns]. *)
Definition inside (ns : list string) (k : ForeignKey) : bool :=
  bool_decide (sourceTable k ∈ ns) && bool_decide (targetTable k ∈ ns).

Definition self_ref (k : ForeignKey) : bool :=
  String.eqb (sourceTable k) (targetTable k).

End Correlation.

Section HierarchyViewDef.
Variable toLowerCase : string → string.

Definition hierarchyTreeData (s : SchemaData) (searchQuery : string)
  : option (list Hierarchy.TreeNode) :=
  Hierarchy.treeData (filteredTables toLowerCase s searchQuery) (foreignKeys s).
End HierarchyViewDef.

Section CorrelationViewDef.
Variable toLowerCase : string → string.

(** The filter of [CorrelationView] looks at table names only. *)
Definition correlationTables (s : SchemaData) (searchQuery : string) : list TableInfo :=
  List.filter (λ t, String.eqb searchQuery "" ||
                    includes (toLowerCase (name t)) (toLowerCase searchQuery))
              (tables s).

Definition correlationMatrix (s : SchemaData) (searchQuery : string)
  : gmap string (gmap string nat) :=
  Correlation.build_matrix (correlationTables s searchQuery) (foreignKeys s).
End CorrelationViewDef.

(** ** Force-Directed Layout Engine ([NodeLinkView]) *)

Module NodeLink.

Record GraphNode := {
  id : string;
  table : TableInfo;
  x : float;
  y : float;
  vx : float;
  vy : float;
  connections : nat
}.

Record GraphLink := {
  source : string;
  target : string;
  label : string
}.

(** *** Connection degree and initial placement *)

Definition connCount_init (ts : list TableInfo) : gmap string nat :=
  foldl (λ c t, <[name t := 0]> c) ∅ ts.

(** [if (connCount[k] !== undefined) connCount[k]++] *)
Definition bump (c : gmap string nat) (k : string) : gmap string nat :=
  match c !! k with
  | Some n => <[k := S n]> c
  | None => c
  end.

Definition connCount_add (c : gmap string nat) (k : ForeignKey) : gmap string nat :=
  bump (bump c (sourceTable k)) (targetTable k).

Definition build_connCount (ts : list TableInfo) (fks : list ForeignKey)
  : gmap string nat :=
  foldl connCount_add (connCount_init ts) fks.

(** [connCount[t.name] || 0] *)
Definition degree (c : gmap string nat) (t : TableInfo) : nat :=
  default 0 (c !! name t).

(** [[...tables].sort((a, b) => degree(b) - degree(a))] *)
Definition sorted (c : gmap string nat) (ts : list TableInfo) : list TableInfo :=
  array_sort (λ a b, (Z.of_nat (degree c b) - Z.of_nat (degree c a))%Z) ts.

Definition of_nat (n : nat) : float :=
  PrimFloat.of_uint63 (Uint63.of_Z (Z.of_nat n)).

Definition Math_PI : float := 0x1.921fb54442d18p+1%float.

(** [Math.ceil(i / 6)] *)
Definition ring (i : nat) : nat := (i + 5) / 6.

(** [(i - 1) % (ring * 6)] *)
Definition posInRing (i : nat) : nat := (i - 1) mod (ring i * 6).

(** [(posInRing / (ring * 6)) * Math.PI * 2 - Math.PI / 2] *)
Definition angle (i : nat) : float :=
  (((of_nat (posInRing i) / of_nat (ring i * 6)) * Math_PI) * 2 - Math_PI / 2)%float.

(** [ring * 280] *)
Definition radius (i : nat) : nat := ring i * 280.

Section Placement.
(** [Math.cos] and [Math.sin] are implementation-approximated. *)
Variables Math_cos Math_sin : float → float.

Definition place (c : gmap string nat) (i : nat) (t : TableInfo) : GraphNode :=
  match i with
  | O => {| id := name t; table := t; x := 0; y := 0; vx := 0; vy := 0;
            connections := degree c t |}
  | _ => {| id := name t; table := t;
            x := (Math_cos (angle i) * of_nat (radius i))%float;
            y := (Math_sin (angle i) * of_nat (radius i))%float;
            vx := 0; vy := 0;
            connections := degree c t |}
  end.

Definition initial_nodes (ts : list TableInfo) (fks : list ForeignKey)
  : list GraphNode :=
  let c := build_connCount ts fks in
  imap (place c) (sorted c ts).
End Placement.

(** [links]: the foreign keys with both ends in the filtered set. *)
Definition make_links (ts : list TableInfo) (fks : list ForeignKey) : list GraphLink :=
  let tableSet : gset string := list_to_set (map name ts) in
  map (λ k, {| source := sourceTable k; target := targetTable k;
               label := (sourceColumn k ++ " → " ++ targetColumn k)%string |})
      (List.filter (λ k, bool_decide (sourceTable k ∈ tableSet)
                         && bool_decide (targetTable k ∈ tableSet)) fks).

(** *** One simulation step *)

Definition maxIterations : nat := 150.

(** [Math.max(a, b)]: a [NaN] argument gives [NaN]; [+0] is larger than [-0]. *)
Definition Math_max (a b : float) : float :=
  if is_nan a || is_nan b then nan
  else if (a <? b)%float then b
  else if (b <? a)%float then a
  else if is_zero a && get_sign a then b else a.

Definition with_v (n : GraphNode) (vx' vy' : float) : GraphNode :=
  {| id := id n; table := table n; x := x n; y := y n;
     vx := vx'; vy := vy'; connections := connections n |}.

Definition distance (dx dy : float) : float :=
  Math_max (sqrt (dx * dx + dy * dy)) 1.

(** The body of the double loop, for [i < j]. *)
Definition repel (ns : list GraphNode) (i j : nat) : list GraphNode :=
  match ns !! i, ns !! j with
  | Some a, Some b =>
      let dx := (x b - x a)%float in
      let dy := (y b - y a)%float in
      let dist := distance dx dy in
      let force := (10000 / (dist * dist))%float in
      let fx := ((dx / dist) * force)%float in
      let fy := ((dy / dist) * force)%float in
      <[j := with_v b (vx b + fx) (vy b + fy)]>
        (<[i := with_v a (vx a - fx) (vy a - fy)]> ns)
  | _, _ => ns
  end.

Definition repulsion (ns : list GraphNode) : list GraphNode :=
  foldl (λ ns1 i,
           foldl (λ ns2 j, repel ns2 i j) ns1 (seq (S i) (length ns - S i)))
        ns (seq 0 (length ns)).

(** [nodeMap[k]]: the node stored under key [k], as a position in
    [Object.values(nodeMap)]. *)
Fixpoint index_of (ns : list GraphNode) (k : string) : option nat :=
  match ns with
  | [] => None
  | n :: ns' => if String.eqb (id n) k then Some 0 else option_map S (index_of ns' k)
  end.

(** The body of [links.forEach]; source and target may be one object. *)
Definition spring (ns : list GraphNode) (l : GraphLink) : list GraphNode :=
  match index_of ns (source l), index_of ns (target l) with
  | Some i, Some j =>
      match ns !! i, ns !! j with
      | Some s, Some t =>
          let dx := (x t - x s)%float in
          let dy := (y t - y s)%float in
          let dist := distance dx dy in
          let force := ((dist - 250) * 0.012)%float in
          let fx := ((dx / dist) * force)%float in
          let fy := ((dy / dist) * force)%float in
          let ns1 := <[i := with_v s (vx s + fx) (vy s + fy)]> ns in
          match ns1 !! j with
          | Some t' => <[j := with_v t' (vx t' - fx) (vy t' - fy)]> ns1
          | None => ns1
          end
      | _, _ => ns
      end
  | _, _ => ns
  end.

Definition centre (n : GraphNode) : GraphNode :=
  with_v n (vx n - x n * 0.001)%float (vy n - y n * 0.001)%float.

Definition damping : float := 0.82%float.

Definition integrate (n : GraphNode) : GraphNode :=
  let vx' := (vx n * damping)%float in
  let vy' := (vy n * damping)%float in
  {| id := id n; table := table n;
     x := (x n + vx')%float; y := (y n + vy')%float;
     vx := vx'; vy := vy'; connections := connections n |}.

Definition physics (links : list GraphLink) (ns : list GraphNode) : list GraphNode :=
  map integrate (map centre (foldl spring (repulsion ns) links)).

(** [ns.forEach(n => { pos[n.id] = { x: n.x, y: n.y }; })] *)
Definition publish (ns : list GraphNode) : list (string * (float * float)) :=
  foldl (λ pos n, JsObject.set pos (id n) (x n, y n)) [] ns.

(** *** The animation-frame loop *)

Record Sim := {
  iteration : nat;
  store : list GraphNode;
  positions : list (string * (float * float));
  settled : bool;
  scheduled : bool
}.

(** The effect: [nodeMap] holds a copy of each node under its id; the
    store is [Object.values(nodeMap)], whose key set never changes.  The
    [positions] state is not reset by the effect. *)
Definition start (nodes : list GraphNode) (previous : list (string * (float * float)))
  : Sim :=
  {| iteration := 0;
     store := JsObject.values (foldl (λ m n, JsObject.set m (id n) n) [] nodes);
     positions := previous;
     settled := false;
     scheduled := true |}.

(** [simulate], the frame callback. *)
Definition simulate (links : list GraphLink) (st : Sim) : Sim :=
  if bool_decide (maxIterations ≤ iteration st) then
    {| iteration := iteration st; store := store st; positions := positions st;
       settled := true; scheduled := false |}
  else
    let it := S (iteration st) in
    let ns := physics links (store st) in
    {| iteration := it; store := ns; positions := publish ns;
       settled := if bool_decide (it < maxIterations) then settled st else true;
       scheduled := bool_decide (it < maxIterations) |}.

(** The browser runs the callback once per frame while one is requested;
    [frames] is the number of frames that pass. *)
Fixpoint run (links : list GraphLink) (frames : nat) (st : Sim) : Sim :=
  match frames with
  | O => st
  | S k => if scheduled st then run links k (simulate links st) else st
  end.

End NodeLink.

Section NodeLinkViewDef.
Variable toLowerCase : string → string.
Variables Math_cos Math_sin : float → float.

End NodeLinkViewDef.

(** ** Layered layout ([getLayoutedElements]) *)

Module Layout.

Record XYPosition := { pos_x : float; pos_y : float }.

Section Nodes.
(** [D]: the members of [node.data] other than [columnCount];
    [R]: the properties of a node other than [id], [position] and
    [data]; [E]: the properties of an edge other than its ends. *)
Context {D R E : Type}.

Record NodeData := { columnCount : option float; data_rest : D }.

Record Node := {
  id : string;
  position : XYPosition;
  data : option NodeData;
  node_rest : R
}.

Record Edge := { source : string; target : string; edge_rest : E }.

Inductive Direction := TB | LR.

(** The graph handed to the layout library. *)
Record Graph := {
  rankdir : Direction;
  ranksep : nat;
  nodesep : nat;
  g_nodes : list (string * (float * float));
  g_edges : list (string * string)
}.

(** The label the library holds for a node after layout. *)
Record Label := { lx : float; ly : float; lwidth : float; lheight : float }.

(** [dagre.layout(g)] followed by [g.node(v)]. *)
Variable dagre_node : Graph → string → Label.

Definition truthy_num (f : float) : bool := negb (is_nan f || is_zero f).

(** [node.data?.columnCount ? 60 + columnCount * 28 : nodeHeight] *)
Definition height_of (nodeHeight : float) (n : Node) : float :=
  match data n ≫= columnCount with
  | Some c => if truthy_num c then (60 + c * 28)%float else nodeHeight
  | None => nodeHeight
  end.

Definition build_graph (nodes : list Node) (edges : list Edge)
    (direction : Direction) (nodeWidth nodeHeight : float) : Graph :=
  {| rankdir := direction; ranksep := 80; nodesep := 60;
     g_nodes := foldl (λ g n, JsObject.set g (id n) (nodeWidth, height_of nodeHeight n))
                      [] nodes;
     g_edges := map (λ e, (source e, target e)) edges |}.

(** [{ ...node, position: { ... } }] *)
Definition relocate (g : Graph) (nodeWidth nodeHeight : float) (node : Node) : Node :=
  let n := dagre_node g (id node) in
  {| id := id node;
     position :=
       {| pos_x := (lx n - nodeWidth / 2)%float;
          pos_y := (ly n - (if truthy_num (lheight n) then lheight n else nodeHeight) / 2)%float |};
     data := data node;
     node_rest := node_rest node |}.

Definition getLayoutedElements (nodes : list Node) (edges : list Edge)
    (direction : Direction) (nodeWidth nodeHeight : float)
  : list Node * list Edge :=
  let g := build_graph nodes edges direction nodeWidth nodeHeight in
  (map (relocate g nodeWidth nodeHeight) nodes, edges).
End Nodes.

Arguments NodeData : clear implicits.
Arguments Node : clear implicits.
Arguments Edge : clear implicits.

End Layout.

(** ** Node and edge placement of [ProcessFlowView] *)

Module ProcessFlow.

Record FlowNode := {
  table : TableInfo;
  level : nat;
  x : Z;
  y : Z
}.

Record FlowEdge := {
  from : string;
  to : string;
  sourceCol : string;
  targetCol : string
}.

Definition NODE_W : Z := 220.
Definition NODE_H : Z := 60.
Definition GAP_X : Z := 80.
Definition GAP_Y : Z := 120.

(** [Object.fromEntries(tables.map(t => [t.name, t]))]: a later table of
    the same name replaces an earlier one. *)
Definition tableMap (ts : list TableInfo) : gmap string TableInfo :=
  foldl (λ m t, <[name t := t]> m) ∅ ts.

(** [level.length * NODE_W + (level.length - 1) * GAP_X] *)
Definition totalWidth (len : nat) : Z :=
  Z.of_nat len * NODE_W + (Z.of_nat len - 1) * GAP_X.

(** [-totalWidth / 2]; [totalWidth] is even, so the half is an integer. *)
Definition startX (len : nat) : Z := (- totalWidth len) / 2.

(** The body of the inner [level.forEach((name, idx) => ...)]. *)
Definition node_at (tm : gmap string TableInfo) (len li idx : nat) (n : string)
  : option FlowNode :=
  match tm !! n with
  | Some t =>
      Some {| table := t; level := li;
              x := startX len + Z.of_nat idx * (NODE_W + GAP_X);
              y := Z.of_nat li * (NODE_H + GAP_Y) |}
  | None => None
  end.

Definition level_nodes (tm : gmap string TableInfo) (li : nat) (lv : list string)
  : list FlowNode :=
  omap (λ o, o) (imap (node_at tm (length lv) li) lv).

(** [nodes], from the levels. *)
Definition flow_nodes (ts : list TableInfo) (levels : list (list string))
  : list FlowNode :=
  concat (imap (level_nodes (tableMap ts)) levels).

(** [edges]: a foreign key with both ends in the filtered set, drawn from
    the referenced table to the referencing one. *)
Definition flow_edges (ts : list TableInfo) (fks : list ForeignKey) : list FlowEdge :=
  let tableSet : gset string := list_to_set (map name ts) in
  map (λ k, {| from := targetTable k; to := sourceTable k;
               sourceCol := targetColumn k; targetCol := sourceColumn k |})
      (List.filter (λ k, bool_decide (sourceTable k ∈ tableSet)
                         && bool_decide (targetTable k ∈ tableSet)) fks).

(** [nodeMap[n]] of the render: the last node of that table name. *)
Definition nodeMap (nodes : list FlowNode) : gmap string FlowNode :=
  foldl (λ m n, <[name (table n) := n]> m) ∅ nodes.

End ProcessFlow.

Section ProcessFlowViewDef.
Variable toLowerCase : string → string.

(** The [nodes] and [edges] of the view, when the level loop ends within
    its budget. *)
Definition processFlowGraph (s : SchemaData) (searchQuery : string)
  : option (list ProcessFlow.FlowNode * list ProcessFlow.FlowEdge) :=
  let ts := filteredTables toLowerCase s searchQuery in
  match Levels.level_names (length ts) ts (foreignKeys s) with
  | Some levels =>
      Some (ProcessFlow.flow_nodes ts levels, ProcessFlow.flow_edges ts (foreignKeys s))
  | None => None
  end.
End ProcessFlowViewDef.

(** ** Dependency lists of [TimelineView] *)

Module Timeline.

Record Deps := {
  dependsOn : list string;
  dependedBy : list string
}.

(** [schema.tables.forEach(t => { deps[t.name] = { dependsOn: [], dependedBy: [] }; })] *)
Definition tableDeps_init (ts : list TableInfo) : gmap string Deps :=
  foldl (λ d t, <[name t := {| dependsOn := []; dependedBy := [] |}]> d) ∅ ts.

(** The push onto the list of the record stored under [a]. *)
Definition push_dependsOn_own (d : gmap string Deps) (a b : string) : gmap string Deps :=
  match d !! a with
  | Some r => <[a := {| dependsOn := dependsOn r ++ [b]; dependedBy := dependedBy r |}]> d
  | None => d
  end.

Definition push_dependedBy_own (d : gmap string Deps) (a b : string) : gmap string Deps :=
  match d !! a with
  | Some r => <[a := {| dependsOn := dependsOn r; dependedBy := dependedBy r ++ [b] |}]> d
  | None => d
  end.

(** [deps[a]?.dependsOn.push(b)].  [deps] is a plain object: when [a] is
    no table and names a member that every object inherits, [deps[a]] is
    that member and not nullish, its [dependsOn] is [undefined], and the
    call of [push] throws a [TypeError]: [None]. *)
Definition push_dependsOn (d : gmap string Deps) (a b : string)
  : option (gmap string Deps) :=
  match d !! a with
  | Some _ => Some (push_dependsOn_own d a b)
  | None => if inherited a then None else Some d
  end.

(** [deps[a]?.dependedBy.push(b)], which throws in the same way. *)
Definition push_dependedBy (d : gmap string Deps) (a b : string)
  : option (gmap string Deps) :=
  match d !! a with
  | Some _ => Some (push_dependedBy_own d a b)
  | None => if inherited a then None else Some d
  end.

Definition tableDeps_add (d : gmap string Deps) (k : ForeignKey)
  : option (gmap string Deps) :=
  push_dependsOn d (sourceTable k) (targetTable k)
    ≫= λ d, push_dependedBy d (targetTable k) (sourceTable k).

(** [tableDeps]; [None] when a push throws. *)
Definition tableDeps (ts : list TableInfo) (fks : list ForeignKey)
  : option (gmap string Deps) :=
  foldl (λ d k, d ≫= λ d, tableDeps_add d k) (Some (tableDeps_init ts)) fks.

(** [highlightedDeps.dependsOn.includes(n) || highlightedDeps.dependedBy.includes(n)],
    for the hovered table [h], which is one of the tables shown; [false]
    when nothing is hovered. *)
Definition isConnected (d : gmap string Deps) (h n : string) : bool :=
  match d !! h with
  | Some r => bool_decide (n ∈ dependsOn r) || bool_decide (n ∈ dependedBy r)
  | None => false
  end.

End Timeline.

(** ** Table roles of [LayerView] *)

Module Layer.

Record Layer := {
  layer_name : string;
  color : string;
  layer_tables : list TableInfo
}.

(** [schema.tables.forEach(t => { inDegree[t.name] = 0; outDegree[t.name] = 0; })] *)
Definition degree_init (ts : list TableInfo) : gmap string nat :=
  foldl (λ m t, <[name t := 0]> m) ∅ ts.

(** [m[k] = (m[k] || 0) + 1] *)
Definition bump (m : gmap string nat) (k : string) : gmap string nat :=
  <[k := default 0 (m !! k) + 1]> m.

Definition build_outDegree (ts : list TableInfo) (fks : list ForeignKey)
  : gmap string nat :=
  foldl (λ m k, bump m (sourceTable k)) (degree_init ts) fks.

Definition build_inDegree (ts : list TableInfo) (fks : list ForeignKey)
  : gmap string nat :=
  foldl (λ m k, bump m (targetTable k)) (degree_init ts) fks.

(** The four arrays that the table loop fills. *)
Record Buckets := {
  reference : list TableInfo;
  core : list TableInfo;
  junction : list TableInfo;
  leaf : list TableInfo
}.

(** The body of the table loop. *)
Definition classify (inDegree outDegree : gmap string nat) (b : Buckets)
    (t : TableInfo) : Buckets :=
  let inD := default 0 (inDegree !! name t) in
  let outD := default 0 (outDegree !! name t) in
  if (inD =? 0) && (outD =? 0) then
    {| reference := reference b; core := core b; junction := junction b;
       leaf := leaf b ++ [t] |}
  else if (2 <=? outD) && (inD =? 0) then
    {| reference := reference b; core := core b; junction := junction b ++ [t];
       leaf := leaf b |}
  else if (0 <? inD) && (outD =? 0) then
    {| reference := reference b ++ [t]; core := core b; junction := junction b;
       leaf := leaf b |}
  else
    {| reference := reference b; core := core b ++ [t]; junction := junction b;
       leaf := leaf b |}.

Definition buckets (ts : list TableInfo) (fks : list ForeignKey) : Buckets :=
  foldl (classify (build_inDegree ts fks) (build_outDegree ts fks))
        {| reference := []; core := []; junction := []; leaf := [] |} ts.

(** [layers]: the four roles in their fixed order, without the empty ones. *)
Definition layers (ts : list TableInfo) (fks : list ForeignKey) : list Layer :=
  let b := buckets ts fks in
  List.filter (λ l, 0 <? length (layer_tables l))
    [ {| layer_name := "Reference / Lookup"; color := "text-warning";
         layer_tables := reference b |};
      {| layer_name := "Core Entities"; color := "text-primary";
         layer_tables := core b |};
      {| layer_name := "Junction / Bridge"; color := "text-info";
         layer_tables := junction b |};
      {| layer_name := "Standalone"; color := "text-muted-foreground";
         layer_tables := leaf b |} ].

End Layer.

Definition layerViewLayers (s : SchemaData) : list Layer.Layer :=
  Layer.layers (tables s) (foreignKeys s).

Definition timelineTableDeps (s : SchemaData) : option (gmap string Timeline.Deps) :=
  Timeline.tableDeps (tables s) (foreignKeys s).

(** ** Ranking, strongest cell and tooltips of [CorrelationView] *)

Module CorrelationStats.

Record Stat := {
  table : TableInfo;
  connections : nat;
  connectedTo : nat
}.

(** [Object.values(matrix[n] || {})].  The row is a finite map; the sum,
    the count and the maximum taken over its values do not depend on the
    order in which they are enumerated. *)
Definition row_values (m : gmap string (gmap string nat)) (n : string) : list nat :=
  (map_to_list (default ∅ (m !! n))).*2.

(** [{ table: t, connections, connectedTo }] *)
Definition stat_of (m : gmap string (gmap string nat)) (t : TableInfo) : Stat :=
  {| table := t;
     connections := foldl Nat.add 0 (row_values m (name t));
     connectedTo := length (List.filter (λ v, 0 <? v) (row_values m (name t))) |}.

(** [tables.map(...).sort((a, b) => b.connections - a.connections)] *)
Definition tableStats (ts : list TableInfo) (m : gmap string (gmap string nat))
  : list Stat :=
  array_sort (λ a b, (Z.of_nat (connections b) - Z.of_nat (connections a))%Z)
             (map (stat_of m) ts).

(** [Math.max(1, ...Object.values(matrix).flatMap(row => Object.values(row)))] *)
Definition maxVal (m : gmap string (gmap string nat)) : nat :=
  foldr Nat.max 1
    (concat ((λ row : gmap string nat, (map_to_list row).*2) <$> (map_to_list m).*2)).

(** [selectedConnections]; the empty string is no selection. *)
Definition selectedConnections (ts : list TableInfo)
    (m : gmap string (gmap string nat)) (selectedTable : option string)
  : list TableInfo :=
  if truthy selectedTable then
    let s := default "" selectedTable in
    List.filter (λ t, negb (String.eqb (name t) s)
                      && (0 <? Correlation.cell m s (name t))) ts
  else [].

Record Detail := {
  from : string;
  to : string;
  via : string
}.

(** [`${a}:${b}`] *)
Definition pair_key (a b : string) : string := (a ++ ":" ++ b)%string.

Definition detail_of (k : ForeignKey) : Detail :=
  {| from := sourceTable k; to := targetTable k;
     via := (sourceColumn k ++ " → " ++ targetColumn k)%string |}.

(** [connectionDetails[key] = [...(connectionDetails[key] || []), detail]] *)
Definition push_detail (cd : gmap string (list Detail)) (key : string) (d : Detail)
  : gmap string (list Detail) :=
  <[key := default [] (cd !! key) ++ [d]]> cd.

(** The body of [schema.foreignKeys.forEach], on the matrix and the
    details together. *)
Definition details_add
    (st : gmap string (gmap string nat) * gmap string (list Detail))
    (k : ForeignKey)
  : gmap string (gmap string nat) * gmap string (list Detail) :=
  match st.1 !! sourceTable k with
  | Some row =>
      if bool_decide (is_Some (row !! targetTable k))
      then (Correlation.incr (Correlation.incr st.1 (sourceTable k) (targetTable k))
                             (targetTable k) (sourceTable k),
            push_detail
              (push_detail st.2 (pair_key (sourceTable k) (targetTable k)) (detail_of k))
              (pair_key (targetTable k) (sourceTable k)) (detail_of k))
      else st
  | None => st
  end.

Definition build_details (ts : list TableInfo) (fks : list ForeignKey)
  : gmap string (gmap string nat) * gmap string (list Detail) :=
  foldl details_add (Correlation.matrix_init ts, ∅) fks.

End CorrelationStats.

Section CorrelationStatsDef.
Variable toLowerCase : string → string.

Definition correlationTableStats (s : SchemaData) (searchQuery : string)
  : list CorrelationStats.Stat :=
  CorrelationStats.tableStats (correlationTables toLowerCase s searchQuery)
    (correlationMatrix toLowerCase s searchQuery).

Definition correlationMaxVal (s : SchemaData) (searchQuery : string) : nat :=
  CorrelationStats.maxVal (correlationMatrix toLowerCase s searchQuery).

Definition correlationSelected (s : SchemaData) (searchQuery : string)
    (selectedTable : option string) : list TableInfo :=
  CorrelationStats.selectedConnections (correlationTables toLowerCase s searchQuery)
    (correlationMatrix toLowerCase s searchQuery) selectedTable.

Definition correlationDetails (s : SchemaData) (searchQuery : string)
  : gmap string (list CorrelationStats.Detail) :=
  (CorrelationStats.build_details (correlationTables toLowerCase s searchQuery)
     (foreignKeys s)).2.
End CorrelationStatsDef.

(** ** Node and edge selection of [SchemaFlow] *)

Module SchemaFlow.

Inductive ViewMode :=
| er_diagram | uml | hierarchy | spreadsheet | relationship_drill
| process_flow | node_link | timeline | layer | swimlane | story_driven
| data_correlation | grouped | schema_explorer.

Definition is_drill (v : ViewMode) : bool :=
  match v with relationship_drill => true | _ => false end.

(** The members of [node.data] beside [columnCount]. *)
Record TableData := {
  label : string;
  data_columns : list ColumnInfo;
  highlighted : bool;
  isCenter : bool
}.

(** The members of an edge beside its ends; the style follows from
    [animated]. *)
Record EdgeData := {
  edge_id : string;
  animated : bool;
  edge_label : string
}.

(** The body of the inner [schema.foreignKeys.forEach], for table [t]. *)
Definition related_step (t : string) (related : gset string) (k : ForeignKey)
  : gset string :=
  let r1 := if String.eqb (sourceTable k) t then related ∪ {[targetTable k]}
            else related in
  if String.eqb (targetTable k) t then r1 ∪ {[sourceTable k]} else r1.

Definition add_neighbours (fks : list ForeignKey) (related : gset string) (t : string)
  : gset string :=
  foldl (related_step t) related fks.

(** [related]: the selected table, its neighbours, and the neighbours of
    those.  [direct] is the snapshot [[...related]]; the set built from it
    does not depend on its order. *)
Definition related_of (fks : list ForeignKey) (selectedDrillTable : string)
  : gset string :=
  let direct := add_neighbours fks {[selectedDrillTable]} selectedDrillTable in
  foldl (add_neighbours fks) direct (elements direct).

(** [filteredTables] and [filteredFKs]; [ts] are the tables that pass the
    search. *)
Definition selection (viewMode : ViewMode) (selectedDrillTable : option string)
    (s : SchemaData) (ts : list TableInfo) : list TableInfo * list ForeignKey :=
  if is_drill viewMode && truthy selectedDrillTable then
    let related := related_of (foreignKeys s) (default "" selectedDrillTable) in
    (List.filter (λ t, bool_decide (name t ∈ related)) (tables s),
     List.filter (λ k, bool_decide (sourceTable k ∈ related)
                       && bool_decide (targetTable k ∈ related)) (foreignKeys s))
  else (ts, foreignKeys s).

Definition make_node (viewMode : ViewMode) (highlightedTable selectedDrillTable : option string)
    (t : TableInfo) : Layout.Node TableData string :=
  {| Layout.id := name t;
     Layout.position := {| Layout.pos_x := 0; Layout.pos_y := 0 |};
     Layout.data :=
       Some {| Layout.columnCount := Some (NodeLink.of_nat (length (columns t)));
               Layout.data_rest :=
                 {| label := name t; data_columns := columns t;
                    highlighted := bool_decide (highlightedTable = Some (name t));
                    isCenter := is_drill viewMode
                                && bool_decide (selectedDrillTable = Some (name t)) |} |};
     Layout.node_rest := "tableNode" |}.

Definition make_edge (highlightedTable : option string) (k : ForeignKey)
  : Layout.Edge EdgeData :=
  {| Layout.source := sourceTable k;
     Layout.target := targetTable k;
     Layout.edge_rest :=
       {| edge_id := constraintName k;
          animated := bool_decide (highlightedTable = Some (sourceTable k))
                      || bool_decide (highlightedTable = Some (targetTable k));
          edge_label := (sourceColumn k ++ " → " ++ targetColumn k)%string |} |}.

End SchemaFlow.

Section SchemaFlowDef.
Variable toLowerCase : string → string.
Variable dagre_node : @Layout.Graph → string → Layout.Label.

(** [initialNodes] and [initialEdges]. *)
Definition schemaFlowElements (s : SchemaData) (viewMode : SchemaFlow.ViewMode)
    (searchQuery : string) (highlightedTable selectedDrillTable : option string)
  : list (Layout.Node SchemaFlow.TableData string) * list (Layout.Edge SchemaFlow.EdgeData) :=
  let sel := SchemaFlow.selection viewMode selectedDrillTable s
               (filteredTables toLowerCase s searchQuery) in
  Layout.getLayoutedElements dagre_node
    (map (SchemaFlow.make_node viewMode highlightedTable selectedDrillTable) sel.1)
    (map (SchemaFlow.make_edge highlightedTable) sel.2)
    Layout.LR 280 200.
End SchemaFlowDef.

(** ** Search inside the groups of [GroupedView] *)

Section GroupedSearch.
Variable toLowerCase : string → string.

(** [filteredGroups] *)
Definition filteredGroups (groups : list Grouped.Cluster) (searchQuery : string)
  : list Grouped.Cluster :=
  List.filter (λ g, 0 <? length (Grouped.cluster_tables g))
    (map (λ g, {| Grouped.root := Grouped.root g;
                  Grouped.cluster_name := Grouped.cluster_name g;
                  Grouped.cluster_tables :=
                    List.filter (matchesSearch toLowerCase searchQuery)
                                (Grouped.cluster_tables g) |})
         groups).
End GroupedSearch.

(** ** Lane names of [SwimlaneView] *)

Module LaneName.

Definition patterns : list (list string * string) :=
  [ (["user"; "profile"; "auth"; "account"; "role"; "permission"], "Users & Auth");
    (["order"; "cart"; "payment"; "invoice"; "transaction"; "checkout"],
     "Orders & Payments");
    (["product"; "item"; "catalog"; "category"; "inventory"], "Products & Catalog");
    (["post"; "comment"; "article"; "blog"; "content"; "media"], "Content");
    (["message"; "notification"; "email"; "chat"], "Communication");
    (["setting"; "config"; "preference"; "option"], "Configuration");
    (["log"; "event"; "audit"; "history"; "analytics"], "Logging & Analytics") ].

Section Names.
Variable toLowerCase : string → string.

(** [names.some(n => pattern.keywords.some(k => n.includes(k)))] *)
Definition matches (names : list string) (pattern : list string * string) : bool :=
  existsb (λ n, existsb (λ k, includes n k) pattern.1) names.

(** [getLaneName]; its third argument is not used. *)
Definition getLaneName (root : string) (members : list TableInfo) : string :=
  let names := map (λ m, toLowerCase (name m)) members in
  match List.find (matches names) patterns with
  | Some pattern => pattern.2
  | None => if length members =? 1 then root else (root ++ " Domain")%string
  end.
End Names.

End LaneName.

(** ** Schema introspection ([parseOpenApiSpec]) *)

Module Introspection.

(** A column definition of the OpenAPI document; an absent member is
    [None]. *)
Record ColDef := {
  description : option string;
  type : option string;
  format : option string;
  (** [items.type] and [items.format], when [items] is present. *)
  items : option (option string * option string);
  (** [colDef.default] *)
  col_default : option string
}.

(** A table definition; [def.properties || {}] and [def.required || []]
    read an absent member as empty. *)
Record TableDef := {
  properties : list (string * ColDef);
  required : list string
}.

(** [`${fk.sourceTable}.${fk.sourceColumn}->${fk.targetTable}.${fk.targetColumn}`] *)
Definition fkKey (k : ForeignKey) : string :=
  (sourceTable k ++ "." ++ sourceColumn k ++ "->"
   ++ targetTable k ++ "." ++ targetColumn k)%string.

(** [a || b] on strings that may be absent. *)
Definition or_else (a : option string) (b : string) : string :=
  if truthy a then default "" a else b.

(** The three assignments to [dataType]. *)
Definition dataType_of (c : ColDef) : string :=
  let dataType := or_else (type c) "unknown" in
  let dataType := if truthy (format c) then default "" (format c) else dataType in
  match items c with
  | Some (ty, fmt) =>
      if String.eqb dataType "array"
      then (or_else ty (or_else fmt "unknown") ++ "[]")%string
      else dataType
  | None => dataType
  end.

Section Parser.
(** [description.match(/<fk\s+table='([^']+)'\s+column='([^']+)'/)]: the
    two captured groups of the first match. *)
Variable fkMatch : string → option (string * string).
Variable localeCompare : string → string → Z.

Definition column_of (tableName : string) (requiredFields : list string)
    (colName : string) (colDef : ColDef) : ColumnInfo :=
  let isPk := match description colDef with
              | Some d => includes d "<pk"
              | None => false
              end in
  let m := description colDef ≫= fkMatch in
  {| col_name := colName;
     dataType := dataType_of colDef;
     isNullable := negb (bool_decide (colName ∈ requiredFields));
     defaultValue := col_default colDef;
     isPrimaryKey := isPk;
     isForeignKey := bool_decide (is_Some m);
     isUnique := false;
     references := m |}.

(** The parser state: [tables], [foreignKeys] and [fkSet]. *)
Record State := {
  st_tables : list TableInfo;
  st_foreignKeys : list ForeignKey;
  st_fkSet : gset string
}.

(** The foreign-key part of the column loop body. *)
Definition note_fk (tableName colName : string) (colDef : ColDef)
    (fks : list ForeignKey * gset string) : list ForeignKey * gset string :=
  match description colDef ≫= fkMatch with
  | Some (t, c) =>
      let k := {| constraintName := (tableName ++ "_" ++ colName ++ "_fkey")%string;
                  sourceTable := tableName; sourceColumn := colName;
                  targetTable := t; targetColumn := c |} in
      if bool_decide (fkKey k ∈ fks.2) then fks
      else (fks.1 ++ [k], fks.2 ∪ {[fkKey k]})
  | None => fks
  end.

(** The body of the column loop. *)
Definition column_step (tableName : string) (requiredFields : list string)
    (acc : list ColumnInfo * (list ForeignKey * gset string))
    (e : string * ColDef) : list ColumnInfo * (list ForeignKey * gset string) :=
  (acc.1 ++ [column_of tableName requiredFields e.1 e.2],
   note_fk tableName e.1 e.2 acc.2).

(** Primary keys first, then foreign keys, then by name. *)
Definition column_cmp (a b : ColumnInfo) : Z :=
  if isPrimaryKey a && negb (isPrimaryKey b) then (-1)%Z
  else if negb (isPrimaryKey a) && isPrimaryKey b then 1%Z
  else if isForeignKey a && negb (isForeignKey b) then (-1)%Z
  else if negb (isForeignKey a) && isForeignKey b then 1%Z
  else localeCompare (col_name a) (col_name b).

(** The body of the table loop. *)
Definition table_step (st : State) (e : string * TableDef) : State :=
  if String.prefix "_" e.1 then st
  else
    let r := foldl (column_step e.1 (required e.2))
                   ([], (st_foreignKeys st, st_fkSet st))
                   (JsObject.entries (properties e.2)) in
    {| st_tables := st_tables st
                    ++ [ {| name := e.1; schema := "public";
                            columns := array_sort column_cmp r.1 |} ];
       st_foreignKeys := r.2.1;
       st_fkSet := r.2.2 |}.

(** [parseOpenApiSpec], on [spec.definitions || {}]; the [enums] of the
    result are always empty. *)
Definition parseOpenApiSpec (definitions : list (string * TableDef)) : SchemaData :=
  let st := foldl table_step
                  {| st_tables := []; st_foreignKeys := []; st_fkSet := ∅ |}
                  (JsObject.entries definitions) in
  {| tables := array_sort (λ a b, localeCompare (name a) (name b)) (st_tables st);
     foreignKeys := st_foreignKeys st |}.
End Parser.

End Introspection.

(** ** Encrypted storage ([crypto]) *)

Module Crypto.

Definition SALT_LENGTH : nat := 16.
Definition IV_LENGTH : nat := 12.

(** [dst.set(src, offset)] on a typed array, for a source that fits. *)
Definition uint8_set (dst src : list Byte.byte) (offset : nat) : list Byte.byte :=
  take offset dst ++ src ++ drop (offset + length src) dst.

(** [a.slice(from, to)] and [a.slice(from)] *)
Definition slice (a : list Byte.byte) (from to : nat) : list Byte.byte :=
  take (to - from) (drop from a).

Section Subtle.
(** The Web Crypto and encoding primitives. *)
Context {CryptoKey : Type}.
(** [importKey] followed by [deriveKey] (PBKDF2, 100000 rounds, SHA-256). *)
Variable deriveKey : string → list Byte.byte → CryptoKey.
(** AES-GCM; decryption rejects when authentication fails. *)
Variable subtle_encrypt : list Byte.byte → CryptoKey → list Byte.byte → list Byte.byte.
Variable subtle_decrypt : list Byte.byte → CryptoKey → list Byte.byte
                          → option (list Byte.byte).
(** [TextEncoder.encode] and [TextDecoder.decode]. *)
Variable encode : string → list Byte.byte.
Variable decode : list Byte.byte → string.
(** [btoa(String.fromCharCode(...bytes))] and
    [atob(s).split("").map(c => c.charCodeAt(0))]; [atob] throws on text
    that is not base64. *)
Variable btoa_bytes : list Byte.byte → string.
Variable atob_bytes : string → option (list Byte.byte).

(** [encrypt], for the salt and the vector that [getRandomValues] drew. *)
Definition encrypt (salt iv : list Byte.byte) (data passphrase : string) : string :=
  let key := deriveKey passphrase salt in
  let encrypted := subtle_encrypt iv key (encode data) in
  let combined := replicate (length salt + length iv + length encrypted) Byte.x00 in
  let combined := uint8_set combined salt 0 in
  let combined := uint8_set combined iv (length salt) in
  let combined := uint8_set combined encrypted (length salt + length iv) in
  btoa_bytes combined.

(** [decrypt]; [None] when a step throws. *)
Definition decrypt (encoded passphrase : string) : option string :=
  match atob_bytes encoded with
  | Some combined =>
      let salt := slice combined 0 SALT_LENGTH in
      let iv := slice combined SALT_LENGTH (SALT_LENGTH + IV_LENGTH) in
      let ciphertext := drop (SALT_LENGTH + IV_LENGTH) combined in
      let key := deriveKey passphrase salt in
      match subtle_decrypt iv key ciphertext with
      | Some decrypted => Some (decode decrypted)
      | None => None
      end
  | None => None
  end.
End Subtle.

End Crypto.

(** ** Connection store ([useConnectionStore]) *)

Module Store.

Record ProjectConnection := {
  conn_id : string;
  conn_name : string;
  url : string;
  anonKey : string;
  createdAt : nat
}.

Record ConnectionState := {
  connections : list ProjectConnection;
  activeConnectionId : option string;
  schema : option SchemaData;
  isConnected : bool;
  isLoading : bool;
  error : option string;
  passphrase : option string
}.

Definition initial : ConnectionState :=
  {| connections := []; activeConnectionId := None; schema := None;
     isConnected := false; isLoading := false; error := None; passphrase := None |}.

(** The calls of the store.  [LoadConnections] carries the list that
    decryption and [JSON.parse] gave, [AddConnection] the identifier and
    the time that [randomUUID] and [Date.now] gave. *)
Inductive Action :=
| LoadConnections (decrypted : list ProjectConnection) (pass : string)
| AddConnection (name url key : string) (uuid : string) (now : nat)
| RemoveConnection (id : string)
| SetActiveConnection (id : option string)
| SetSchema (s : option SchemaData)
| SetLoading (b : bool)
| SetError (e : option string)
| SetPassphrase (pass : string)
| ClearAll.

Definition step (st : ConnectionState) (a : Action) : ConnectionState :=
  match a with
  | LoadConnections decrypted pass =>
      {| connections := decrypted; activeConnectionId := activeConnectionId st;
         schema := schema st; isConnected := isConnected st;
         isLoading := isLoading st; error := error st; passphrase := Some pass |}
  | AddConnection name url key uuid now =>
      if truthy (passphrase st) then
        {| connections :=
             connections st
             ++ [ {| conn_id := uuid; conn_name := name; url := url; anonKey := key;
                     createdAt := now |} ];
           activeConnectionId := activeConnectionId st;
           schema := schema st; isConnected := isConnected st;
           isLoading := isLoading st; error := error st;
           passphrase := passphrase st |}
      else st
  | RemoveConnection id =>
      if truthy (passphrase st) then
        let active := bool_decide (activeConnectionId st = Some id) in
        {| connections :=
             List.filter (λ c, negb (String.eqb (conn_id c) id)) (connections st);
           activeConnectionId := if active then None else activeConnectionId st;
           schema := if active then None else schema st;
           isConnected := if active then false else isConnected st;
           isLoading := isLoading st; error := error st;
           passphrase := passphrase st |}
      else st
  | SetActiveConnection id =>
      {| connections := connections st; activeConnectionId := id;
         schema := schema st; isConnected := isConnected st;
         isLoading := isLoading st; error := error st; passphrase := passphrase st |}
  | SetSchema s =>
      {| connections := connections st; activeConnectionId := activeConnectionId st;
         schema := s; isConnected := bool_decide (is_Some s);
         isLoading := isLoading st; error := error st; passphrase := passphrase st |}
  | SetLoading b =>
      {| connections := connections st; activeConnectionId := activeConnectionId st;
         schema := schema st; isConnected := isConnected st;
         isLoading := b; error := error st; passphrase := passphrase st |}
  | SetError e =>
      {| connections := connections st; activeConnectionId := activeConnectionId st;
         schema := schema st; isConnected := isConnected st;
         isLoading := isLoading st; error := e; passphrase := passphrase st |}
  | SetPassphrase pass =>
      {| connections := connections st; activeConnectionId := activeConnectionId st;
         schema := schema st; isConnected := isConnected st;
         isLoading := isLoading st; error := error st; passphrase := Some pass |}
  | ClearAll => initial
  end.

(** [getActiveConnection] *)
Definition getActiveConnection (st : ConnectionState) : option ProjectConnection :=
  List.find (λ c, bool_decide (Some (conn_id c) = activeConnectionId st))
            (connections st).

(** The state after a sequence of calls on a fresh store. *)
Definition run (actions : list Action) : ConnectionState := foldl step initial actions.

End Store.

(** ** Chapters of [StoryView] *)

Module Story.

(** A JS [Set] of names: every element once, in insertion order. *)
Definition set_add (s : list string) (x : string) : list string :=
  if bool_decide (x ∈ s) then s else s ++ [x].

(** [schema.tables.forEach(t => { adj[t.name] = new Set(); })] *)
Definition adj_init (ts : list TableInfo) : gmap string (list string) :=
  foldl (λ a t, <[name t := []]> a) ∅ ts.

(** The addition to the set stored under [k]. *)
Definition adj_add_own (a : gmap string (list string)) (k v : string)
  : gmap string (list string) :=
  match a !! k with
  | Some s => <[k := set_add s v]> a
  | None => a
  end.

(** [adj[k]?.add(v)].  [adj] is a plain object: when [k] is no table and
    names a member that every object inherits, [adj[k]] is that member
    and not nullish, it has no [add], and the call throws a [TypeError]:
    [None]. *)
Definition adj_add (a : gmap string (list string)) (k v : string)
  : option (gmap string (list string)) :=
  match a !! k with
  | Some _ => Some (adj_add_own a k v)
  | None => if inherited k then None else Some a
  end.

(** [adj[fk.sourceTable]?.add(fk.targetTable);
     adj[fk.targetTable]?.add(fk.sourceTable)] *)
Definition adj_link (a : gmap string (list string)) (fk : ForeignKey)
  : option (gmap string (list string)) :=
  adj_add a (sourceTable fk) (targetTable fk)
    ≫= λ a, adj_add a (targetTable fk) (sourceTable fk).

(** The adjacency record; [None] when an addition throws. *)
Definition build_adj (ts : list TableInfo) (fks : list ForeignKey)
  : option (gmap string (list string)) :=
  foldl (λ a fk, a ≫= λ a, adj_link a fk) (Some (adj_init ts)) fks.

(** [if (!visited.has(neighbor)) { visited.add(neighbor); queue.push(neighbor); }]
    on the pair of the visited set and the queue. *)
Definition visit (st : gset string * list string) (neighbor : string)
  : gset string * list string :=
  if bool_decide (neighbor ∈ st.1) then st
  else ({[neighbor]} ∪ st.1, st.2 ++ [neighbor]).

(** The [while (queue.length)] loop of [bfs]; [adj[node]?.forEach] does
    nothing for a name without an entry.  Every [node] is a table name or
    an end of a foreign key, which [build_adj] has read already: it is an
    own key of [adj] or no member of it at all.  The result is the
    visited set and the cluster. *)
Fixpoint bfs_loop (fuel : nat) (adj : gmap string (list string))
    (visited : gset string) (queue cluster : list string)
  : option (gset string * list string) :=
  match queue with
  | [] => Some (visited, cluster)
  | node :: rest =>
    match fuel with
    | 0 => None
    | S fuel' =>
      let st := foldl visit (visited, rest) (default [] (adj !! node)) in
      bfs_loop fuel' adj st.1 st.2 (cluster ++ [node])
    end
  end.

Definition bfs (fuel : nat) (adj : gmap string (list string))
    (visited : gset string) (start : string)
  : option (gset string * list string) :=
  bfs_loop fuel adj ({[start]} ∪ visited) [start] [].

(** [schema.tables.forEach(t => { if (!visited.has(t.name)) clusters.push(bfs(t.name)); })] *)
Definition clusters_step (fuel : nat) (adj : gmap string (list string))
    (st : option (gset string * list (list string))) (t : TableInfo)
  : option (gset string * list (list string)) :=
  match st with
  | None => None
  | Some (visited, clusters) =>
    if bool_decide (name t ∈ visited) then st
    else match bfs fuel adj visited (name t) with
         | Some (visited', cluster) => Some (visited', clusters ++ [cluster])
         | None => None
         end
  end.

Definition build_clusters (fuel : nat) (ts : list TableInfo) (fks : list ForeignKey)
  : option (gset string * list (list string)) :=
  match build_adj ts fks with
  | Some adj => foldl (clusters_step fuel adj) (Some (∅, [])) ts
  | None => None
  end.

(** [clusters.sort((a, b) => b.length - a.length)] *)
Definition by_length (a b : list string) : Z :=
  (Z.of_nat (length b) - Z.of_nat (length a))%Z.

Definition clusters (fuel : nat) (ts : list TableInfo) (fks : list ForeignKey)
  : option (list (list string)) :=
  match build_clusters fuel ts fks with
  | Some (_, cl) => Some (array_sort by_length cl)
  | None => None
  end.

(** A chapter, without its texts: [title], [narrative], [insight] and the
    [explanation] of a relationship are not modelled. *)
Record Chapter := {
  chapter_tables : list TableInfo;
  relationships : list CorrelationStats.Detail;
  rootTable : option TableInfo
}.

(** [cluster.includes(n)] *)
Definition cluster_includes (cluster : list string) (n : string) : bool :=
  bool_decide (n ∈ cluster).

(** [tables.filter(t => !schema.foreignKeys.some(fk =>
      fk.sourceTable === t.name && cluster.includes(fk.targetTable)))] *)
Definition rootTables (fks : list ForeignKey) (cluster : list string)
    (tables : list TableInfo) : list TableInfo :=
  List.filter
    (λ t, negb (existsb (λ fk, String.eqb (sourceTable fk) (name t)
                               && cluster_includes cluster (targetTable fk)) fks))
    tables.

Definition make_chapter (tableMap : gmap string TableInfo) (fks : list ForeignKey)
    (cluster : list string) : Chapter :=
  (* cluster.map(n => tableMap[n]).filter(Boolean) *)
  let tables := omap (λ n, tableMap !! n) cluster in
  let rels :=
    map CorrelationStats.detail_of
      (List.filter (λ fk, cluster_includes cluster (sourceTable fk)
                          && cluster_includes cluster (targetTable fk)) fks) in
  (* rootTables[0] || tables[0] *)
  let root := match rootTables fks cluster tables with
              | r :: _ => Some r
              | [] => head tables
              end in
  {| chapter_tables := tables; relationships := rels; rootTable := root |}.

Definition chapters (fuel : nat) (s : SchemaData) : option (list Chapter) :=
  match clusters fuel (tables s) (foreignKeys s) with
  | Some cl =>
    Some (map (make_chapter (ProcessFlow.tableMap (tables s)) (foreignKeys s)) cl)
  | None => None
  end.

End Story.

(** * Vocabulary of the properties

    Relations, invariants and example inputs used to state and prove the
    properties below. *)

(** ** Names *)

(** No table name and no end of a foreign key names a member that every
    object inherits: each dictionary read of the views then finds an own
    property or nothing. *)
Definition plain_names (ts : list TableInfo) (fks : list ForeignKey) : Prop :=
  Forall (λ t, inherited (name t) = false) ts
  ∧ Forall (λ k, inherited (sourceTable k) = false
                 ∧ inherited (targetTable k) = false) fks.

(** A name that the clustering engine can carry: not the empty string,
    which is falsy, and not the name of an inherited member. *)
Definition ordinary (x : string) : Prop := x ≠ "" ∧ inherited x = false.

(** ** Example inputs *)

Definition shop : SchemaData :=
  {| tables := [tbl "customers"; tbl "order_items"; tbl "orders"; tbl "products"];
     foreignKeys := [fk "orders" "customers"; fk "order_items" "orders"] |}.

(** Three tables in a chain, placed by hand. *)
Definition node_at (n : string) (x0 y0 : float) : NodeLink.GraphNode :=
  {| NodeLink.id := n; NodeLink.table := tbl n;
     NodeLink.x := x0; NodeLink.y := y0; NodeLink.vx := 0; NodeLink.vy := 0;
     NodeLink.connections := 0 |}.

Definition chain_nodes : list NodeLink.GraphNode :=
  [node_at "B" 0 0; node_at "A" 0 (-280); node_at "C" 280 0].

Definition chain_links : list NodeLink.GraphLink :=
  NodeLink.make_links [tbl "A"; tbl "B"; tbl "C"] [fk "B" "A"; fk "C" "B"].

(** Id and parent of each node, for reading a result. *)
Definition tree_shape (r : option (list Hierarchy.TreeNode))
  : option (list (string * option string)) :=
  option_map (map (λ nd, (Hierarchy.id nd, Hierarchy.parentId nd))) r.

(** ** Level Assignment *)

(** The dependency sets that [build_deps] returns when it does not throw. *)
Definition dependency_sets (ts : list TableInfo) (fks : list ForeignKey)
  : gmap string (gset string) :=
  foldl Levels.deps_add_own (Levels.deps_init ts) fks.

(** The tables whose name is in [placed]. *)
Definition placed_tables (ts : list TableInfo) (placed : gset string) : list TableInfo :=
  filter (λ t, name t ∈ placed) ts.

(** State invariant of the loop. *)
Definition loop_inv (ts : list TableInfo) (levels : list (list TableInfo))
    (placed : gset string) : Prop :=
  placed ⊆ list_to_set (name <$> ts) ∧ concat levels ≡ₚ placed_tables ts placed.

(** [x] depends on [y]: some foreign key goes from [x] to [y]. *)
Definition depends_on (fks : list ForeignKey) : relation string :=
  λ x y, ∃ k, k ∈ fks ∧ sourceTable k = x ∧ targetTable k = y.

(** Every dependency of a table in a level is in an earlier level. *)
Definition ordered (fks : list ForeignKey) (levels : list (list TableInfo)) : Prop :=
  ∀ i l t d, levels !! i = Some l → t ∈ l → depends_on fks (name t) d →
    ∃ j l' t', j < i ∧ levels !! j = Some l' ∧ t' ∈ l' ∧ name t' = d.

(** ** Connection matrix *)

(** Every row exists exactly for the table names, with exactly the table
    names as columns. *)
Definition shape (ns : list string) (m : gmap string (gmap string nat)) : Prop :=
  ∀ a b, is_Some (m !! a ≫= λ row, row !! b) ↔ a ∈ ns ∧ b ∈ ns.

(** The contribution of one foreign key to one cell. *)
Definition delta (ns : list string) (k : ForeignKey) (a b : string) : nat :=
  if Correlation.inside ns k then
    (if bool_decide (sourceTable k = a ∧ targetTable k = b) then 1 else 0)
    + (if bool_decide (targetTable k = a ∧ sourceTable k = b) then 1 else 0)
  else 0.

(** ** Hierarchy *)

(** A table with an outgoing foreign key: not a root candidate. *)
Definition has_parent (fks : list ForeignKey) (t : TableInfo) : bool :=
  truthy (Hierarchy.build_parentMap fks !! name t).

(** A table whose first foreign key points outside the table list. *)
Definition orphan (ts : list TableInfo) (fks : list ForeignKey) (t : TableInfo) : bool :=
  has_parent fks t
  && negb (Hierarchy.has_table ts
             (default "" (Hierarchy.build_parentMap fks !! name t))).

(** The node the table loop pushes for a table. *)
Definition node_of (ts : list TableInfo) (fks : list ForeignKey) (t : TableInfo)
  : Hierarchy.TreeNode :=
  if has_parent fks t
     && Hierarchy.has_table ts (default "" (Hierarchy.build_parentMap fks !! name t))
  then {| Hierarchy.id := name t;
          Hierarchy.parentId := Hierarchy.build_parentMap fks !! name t;
          Hierarchy.table := t |}
  else {| Hierarchy.id := name t;
          Hierarchy.parentId :=
            Hierarchy.fallback_parent
              (Hierarchy.roots (Hierarchy.build_parentMap fks) ts);
          Hierarchy.table := t |}.

(** ** Clustering *)

(** [reach f n x r]: following [f] from [x] for [n] steps ends in the fixed
    point [r]. *)
Inductive reach (f : string → string) : nat → string → string → Prop :=
| reach_root x : f x = x → reach f 0 x x
| reach_step n x r : f x ≠ x → reach f n (f x) r → reach f (S n) x r.

(** The parent pointer read by [find]. *)
Definition nxt (p : gmap string string) (x : string) : string :=
  default x (p !! x).

(** The state of the structure: every stored parent is an ordinary name,
    and every name reaches its representative [rep x] within [d] steps. *)
Definition uf_inv (p : gmap string string) (rep : string → string) (d : nat)
  : Prop :=
  (∀ k v, p !! k = Some v → ordinary v)
  ∧ ∀ x, ∃ n, n ≤ d ∧ reach (nxt p) n x (rep x).

(** [union a b] merges the class of [a] into the class of [b]. *)
Definition merged (rep : string → string) (a b : string) (z : string) : string :=
  if decide (rep z = rep a) then rep b else rep z.

(** The foreign keys that the union loop uses, as a relation on names. *)
Definition fk_rel (g : ForeignKey → bool) (fks : list ForeignKey)
  : relation string :=
  λ x y, ∃ k, k ∈ fks ∧ g k = true ∧ sourceTable k = x ∧ targetTable k = y.

(** The foreign-key loop of both views: a union for the keys that pass the
    guard [g]. *)
Definition guarded_union (g : ForeignKey → bool) (fuel : nat)
    (p : gmap string string) (k : ForeignKey) : option (gmap string string) :=
  if g k then UnionFind.union fuel p (sourceTable k) (targetTable k) else Some p.

(** What the grouping loop has built after the tables [done]. *)
Definition grouped (rep : string → string) (done : list TableInfo)
    (groups : list (string * list TableInfo)) : Prop :=
  concat groups.*2 ≡ₚ done
  ∧ NoDup groups.*1
  ∧ ∀ r ms t, (r, ms) ∈ groups → t ∈ ms → rep (name t) = r.

(** Two names are connected when an undirected path of foreign keys whose
    ends all lie in [ns] joins them. *)
Definition fk_connected (ns : list string) (fks : list ForeignKey) : relation string :=
  rtsc (λ x y, ∃ k, k ∈ fks ∧ sourceTable k = x ∧ targetTable k = y
                    ∧ x ∈ ns ∧ y ∈ ns).


(** ** Simulation *)

(** The state after [i] frames have run. *)
Definition after_frames (links : list NodeLink.GraphLink)
    (ns0 : list NodeLink.GraphNode) (previous : list (string * (float * float)))
    (i : nat) : NodeLink.Sim :=
  {| NodeLink.iteration := i;
     NodeLink.store := Nat.iter i (NodeLink.physics links) ns0;
     NodeLink.positions :=
       match i with
       | O => previous
       | S _ => NodeLink.publish (Nat.iter i (NodeLink.physics links) ns0)
       end;
     NodeLink.settled := bool_decide (NodeLink.maxIterations ≤ i);
     NodeLink.scheduled := bool_decide (i < NodeLink.maxIterations) |}.

(** The boxes of two nodes are apart by at least the gap, sideways or
    downwards. *)
Definition apart (n m : ProcessFlow.FlowNode) : Prop :=
  (ProcessFlow.x n + ProcessFlow.NODE_W + ProcessFlow.GAP_X ≤ ProcessFlow.x m
   ∨ ProcessFlow.x m + ProcessFlow.NODE_W + ProcessFlow.GAP_X ≤ ProcessFlow.x n
   ∨ ProcessFlow.y n + ProcessFlow.NODE_H + ProcessFlow.GAP_Y ≤ ProcessFlow.y m
   ∨ ProcessFlow.y m + ProcessFlow.NODE_H + ProcessFlow.GAP_Y ≤ ProcessFlow.y n)%Z.

(** The node pushed for table [t] at position [idx] of level [li], which
    holds [len] tables. *)
Definition pushed (len li idx : nat) (t : TableInfo) : ProcessFlow.FlowNode :=
  {| ProcessFlow.table := t; ProcessFlow.level := li;
     ProcessFlow.x := (ProcessFlow.startX len
                       + Z.of_nat idx * (ProcessFlow.NODE_W + ProcessFlow.GAP_X))%Z;
     ProcessFlow.y := (Z.of_nat li * (ProcessFlow.NODE_H + ProcessFlow.GAP_Y))%Z |}.

(** Reading order of the nodes: by level, then from left to right with
    a full node and gap between neighbours. *)
Definition reading_order (n m : ProcessFlow.FlowNode) : Prop :=
  ProcessFlow.level n < ProcessFlow.level m
  ∨ (ProcessFlow.level n = ProcessFlow.level m
     ∧ (ProcessFlow.x n + (ProcessFlow.NODE_W + ProcessFlow.GAP_X) ≤ ProcessFlow.x m)%Z).

(** The foreign keys that leave table [n], and those that point to it. *)
Definition leaving (fks : list ForeignKey) (n : string) : list ForeignKey :=
  List.filter (λ k, String.eqb (sourceTable k) n) fks.

Definition entering (fks : list ForeignKey) (n : string) : list ForeignKey :=
  List.filter (λ k, String.eqb (targetTable k) n) fks.

(** The dependency record that [tableDeps] returns when no push throws. *)
Definition dependency_lists (ts : list TableInfo) (fks : list ForeignKey)
  : gmap string Timeline.Deps :=
  foldl (λ d k, Timeline.push_dependedBy_own
                  (Timeline.push_dependsOn_own d (sourceTable k) (targetTable k))
                  (targetTable k) (sourceTable k))
        (Timeline.tableDeps_init ts) fks.

(** The layer a table is shown in, by the number of foreign keys that
    enter and leave it. *)
Definition role (fks : list ForeignKey) (t : TableInfo) : string :=
  let i := length (entering fks (name t)) in
  let o := length (leaving fks (name t)) in
  if (i =? 0) && (o =? 0) then "Standalone"
  else if (i =? 0) && (2 <=? o) then "Junction / Bridge"
  else if o =? 0 then "Reference / Lookup"
  else "Core Entities".

(** The ends of foreign key [k] at table [a], among the keys inside the
    table set: a key from a table to itself has two. *)
Definition ends_at (ns : list string) (k : ForeignKey) (a : string) : nat :=
  if Correlation.inside ns k then
    (if String.eqb (sourceTable k) a then 1 else 0)
    + (if String.eqb (targetTable k) a then 1 else 0)
  else 0.

(** The tooltip lines of the cell [(a, b)], in foreign-key order. *)
Definition details_between (ns : list string) (fks : list ForeignKey)
    (a b : string) : list CorrelationStats.Detail :=
  flat_map (λ k,
    if Correlation.inside ns k then
      (if bool_decide (sourceTable k = a ∧ targetTable k = b)
       then [CorrelationStats.detail_of k] else [])
      ++ (if bool_decide (targetTable k = a ∧ sourceTable k = b)
          then [CorrelationStats.detail_of k] else [])
    else []) fks.


(** Tables [x] and [y] are joined by a foreign key, in either direction. *)
Definition adjacent (fks : list ForeignKey) (x y : string) : Prop :=
  depends_on fks x y ∨ depends_on fks y x.

(** [n] is at most two foreign keys away from [sel]. *)
Definition within_two (fks : list ForeignKey) (sel n : string) : Prop :=
  n = sel ∨ adjacent fks sel n ∨ ∃ m, adjacent fks sel m ∧ adjacent fks m n.

(** Primary keys come before the other columns, and among the others the
    foreign keys come first. *)
Definition keys_first (cols : list ColumnInfo) : Prop :=
  ∀ i j a b, i < j → cols !! i = Some a → cols !! j = Some b →
    (isPrimaryKey b = true → isPrimaryKey a = true)
    ∧ (isPrimaryKey a = false → isForeignKey b = true → isForeignKey a = true).

(** The order that [column_cmp] establishes between an earlier column [a]
    and a later column [b]. *)
Definition key_order (a b : ColumnInfo) : Prop :=
  (isPrimaryKey b = true → isPrimaryKey a = true)
  ∧ (isPrimaryKey a = false → isForeignKey b = true → isForeignKey a = true).

(** A foreign key is backed by a column of its source table. *)
Definition backed (ts : list TableInfo) (k : ForeignKey) : Prop :=
  ∃ t c, t ∈ ts ∧ c ∈ columns t
         ∧ name t = sourceTable k ∧ col_name c = sourceColumn k
         ∧ isForeignKey c = true
         ∧ references c = Some (targetTable k, targetColumn k)
         ∧ constraintName k
           = (sourceTable k ++ "_" ++ sourceColumn k ++ "_fkey")%string.

(** A foreign key of table [tn] is backed by one of the columns [cols]. *)
Definition column_backed (tn : string) (cols : list ColumnInfo) (k : ForeignKey)
  : Prop :=
  sourceTable k = tn
  ∧ ∃ c, c ∈ cols ∧ col_name c = sourceColumn k
         ∧ isForeignKey c = true
         ∧ references c = Some (targetTable k, targetColumn k)
         ∧ constraintName k
           = (sourceTable k ++ "_" ++ sourceColumn k ++ "_fkey")%string.

(** What the table loop keeps true. *)
Definition parser_inv (localeCompare : string → string → Z)
    (st : Introspection.State) : Prop :=
  Forall (backed (Introspection.st_tables st)) (Introspection.st_foreignKeys st)
  ∧ NoDup (Introspection.fkKey <$> Introspection.st_foreignKeys st)
  ∧ Introspection.st_fkSet st
    = list_to_set (Introspection.fkKey <$> Introspection.st_foreignKeys st)
  ∧ Forall (λ t, String.prefix "_" (name t) = false ∧ schema t = "public"
                 ∧ ∃ cols, columns t
                           = array_sort (Introspection.column_cmp localeCompare) cols)
           (Introspection.st_tables st).

(** [y] is the parent of [x] in a node list. *)
Definition parent_of (nodes : list Hierarchy.TreeNode) : relation string :=
  λ x y, ∃ nd, nd ∈ nodes ∧ Hierarchy.id nd = x ∧ Hierarchy.parentId nd = Some y.

(** The adjacency record that [build_adj] returns when no addition
    throws. *)
Definition adjacency (ts : list TableInfo) (fks : list ForeignKey)
  : gmap string (list string) :=
  foldl (λ a k, Story.adj_add_own
                  (Story.adj_add_own a (sourceTable k) (targetTable k))
                  (targetTable k) (sourceTable k))
        (Story.adj_init ts) fks.

(** [y] is in the adjacency set of [x]. *)
Definition neighbour (adj : gmap string (list string)) : relation string :=
  λ x y, y ∈ default [] (adj !! x).

(** Every name that can be visited: the table names and the ends of the
    foreign keys. *)
Definition universe (ts : list TableInfo) (fks : list ForeignKey) : gset string :=
  list_to_set (name <$> ts) ∪ list_to_set (sourceTable <$> fks)
  ∪ list_to_set (targetTable <$> fks).

(** A number of loop rounds that every schema stays within: one for
    every name that can enter the queue. *)
Definition rounds (ts : list TableInfo) (fks : list ForeignKey) : nat :=
  length ts + 2 * length fks.

(** What the queue loop keeps true of the visited set [v] and of the
    names [ms] that it has put into the queue so far, in a search from
    [start] that began with the visited set [v0]. *)
Definition bfs_inv (adj : gmap string (list string)) (U v0 : gset string)
    (start : string) (v : gset string) (ms : list string) : Prop :=
  NoDup ms
  ∧ v = v0 ∪ list_to_set ms
  ∧ (∀ x, x ∈ ms → x ∉ v0)
  ∧ (∀ x, x ∈ ms → x ∈ U)
  ∧ (∀ x, x ∈ ms → rtc (neighbour adj) start x).

(** What the loop over the tables keeps true of the visited set and of
    the clusters found so far. *)
Definition clusters_inv (adj : gmap string (list string)) (U : gset string)
    (v : gset string) (cl : list (list string)) : Prop :=
  v = list_to_set (concat cl)
  ∧ NoDup (concat cl)
  ∧ v ⊆ U
  ∧ (∀ x y, x ∈ v → neighbour adj x y → y ∈ v)
  ∧ Forall (λ c, ∃ start, head c = Some start ∧ is_Some (adj !! start)
                   ∧ (∀ x, x ∈ c → rtc (neighbour adj) start x)
                   ∧ (∀ x y, x ∈ c → neighbour adj x y → is_Some (adj !! y) → y ∈ c))
           cl.

(** * Properties *)

(** ** Lists *)

Lemma filter_split_perm {A : Type} (P Q R : A → Prop)
    `{!∀ x, Decision (P x), !∀ x, Decision (Q x), !∀ x, Decision (R x)}
    (l : list A) :
  (∀ x, x ∈ l → R x ↔ P x ∨ Q x) →
  (∀ x, x ∈ l → P x → Q x → False) →
  filter R l ≡ₚ filter P l ++ filter Q l.
Proof.
  induction l as [|x l IH]; intros Hiff Hdisj; [done|].
  assert (filter R l ≡ₚ filter P l ++ filter Q l) as IH'.
  { apply IH; intros y Hy; [apply Hiff|apply Hdisj]; by right. }
  pose proof (Hiff x (list_elem_of_here _ _)) as Hx.
  pose proof (Hdisj x (list_elem_of_here _ _)) as Hd.
  rewrite !filter_cons. repeat case_decide; try tauto.
  - simpl. by rewrite IH'.
  - rewrite IH'. apply Permutation_middle.
Qed.

Lemma sum_list_append (l1 l2 : list nat) :
  sum_list (l1 ++ l2) = sum_list l1 + sum_list l2.
Proof. induction l1 as [|x l1 IH]; simpl; lia. Qed.

Lemma concat_levels_unique {A : Type} (ls : list (list A)) (i j : nat)
    (l l' : list A) (x : A) :
  NoDup (concat ls) →
  ls !! i = Some l → ls !! j = Some l' → x ∈ l → x ∈ l' → i = j.
Proof.
  revert i j. induction ls as [|l0 ls IH]; intros i j Hnd Hi Hj Hx Hx'; [done|].
  simpl in Hnd. apply NoDup_app in Hnd as (_ & Hdisj & Hnd).
  assert (∀ k m, ls !! k = Some m → x ∈ m → x ∈ concat ls) as Hin.
  { intros k m Hk Hm. apply list_elem_of_In, in_concat. exists m.
    split; apply list_elem_of_In; [|done]. by eapply list_elem_of_lookup_2. }
  destruct i as [|i], j as [|j]; simpl in *; simplify_eq; try done.
  - exfalso. eapply Hdisj; [exact Hx|]. by eapply Hin.
  - exfalso. eapply Hdisj; [exact Hx'|]. by eapply Hin.
  - f_equal. by eapply IH.
Qed.

Lemma fmap_unique {A B : Type} (f : A → B) (l : list A) (x y : A) :
  NoDup (f <$> l) → x ∈ l → y ∈ l → f x = f y → x = y.
Proof.
  intros Hnd Hx Hy Hf.
  apply list_elem_of_lookup in Hx as [i Hi].
  apply list_elem_of_lookup in Hy as [j Hj].
  assert (i = j) as ->; [|congruence].
  eapply NoDup_lookup; [exact Hnd| |].
  - rewrite list_lookup_fmap, Hi. reflexivity.
  - rewrite list_lookup_fmap, Hj. simpl. by rewrite Hf.
Qed.

Lemma filter_negb_perm {A : Type} (f : A → bool) (l : list A) :
  List.filter f l ++ List.filter (λ x, negb (f x)) l ≡ₚ l.
Proof.
  induction l as [|x l IH]; simpl; [done|].
  destruct (f x); simpl; [by rewrite IH|].
  by rewrite <- Permutation_middle, IH.
Qed.

Lemma concat_perm {A : Type} (l l' : list (list A)) :
  l ≡ₚ l' → concat l ≡ₚ concat l'.
Proof.
  induction 1 as [|x l l' _ IH|x y l|l l' l'' _ IH1 _ IH2]; simpl.
  - done.
  - by rewrite IH.
  - rewrite !app_assoc. apply Permutation_app_tail, Permutation_app_comm.
  - by rewrite IH1.
Qed.

Lemma concat_perm_inner {A : Type} (l l' : list (list A)) :
  Forall2 (≡ₚ) l l' → concat l ≡ₚ concat l'.
Proof. induction 1 as [|x y l l' Hxy _ IH]; simpl; [done|]. by rewrite Hxy, IH. Qed.

(** ** Sorting *)

Section SortFacts.
Context {A : Type}.

Lemma sort_insert_perm (cmp : A → A → Z) (x : A) (l : list A) :
  sort_insert cmp x l ≡ₚ x :: l.
Proof.
  induction l as [|y l IH]; simpl; [done|].
  destruct (0 <? cmp x y)%Z; [|done]. rewrite IH. apply perm_swap.
Qed.

Lemma array_sort_perm (cmp : A → A → Z) (l : list A) : array_sort cmp l ≡ₚ l.
Proof.
  induction l as [|x l IH]; simpl; [done|].
  by rewrite sort_insert_perm, IH.
Qed.

(** Sorting by a numeric key, larger keys first. *)
Variable key : A → nat.
Let by_key (a b : A) : Z := (Z.of_nat (key b) - Z.of_nat (key a))%Z.

Lemma sort_insert_sorted (x : A) (l : list A) :
  StronglySorted (λ a b, key b ≤ key a) l →
  StronglySorted (λ a b, key b ≤ key a) (sort_insert by_key x l).
Proof.
  intros Hs. induction Hs as [|y l Hs IH Hall]; simpl.
  - repeat constructor.
  - unfold by_key at 1. destruct (Z.ltb_spec 0 (Z.of_nat (key y) - Z.of_nat (key x))).
    + constructor; [done|].
      rewrite (sort_insert_perm by_key x l). constructor; [lia|done].
    + constructor; [by constructor|]. constructor; [lia|].
      eapply Forall_impl; [exact Hall|]. simpl. intros; lia.
Qed.

Lemma array_sort_sorted (l : list A) :
  StronglySorted (λ a b, key b ≤ key a) (array_sort by_key l).
Proof.
  induction l as [|x l IH]; simpl; [constructor|]. by apply sort_insert_sorted.
Qed.


End SortFacts.

(** Keys that are array indices are enumerated first, in numeric order. *)
Example entries_example :
  JsObject.entries [("B", 1); ("10", 2); ("A", 3); ("9", 4); ("07", 5)]
  = [("9", 4); ("10", 2); ("B", 1); ("A", 3); ("07", 5)].
Proof. vm_compute. reflexivity. Qed.

Lemma entries_perm {V : Type} (o : list (string * V)) : JsObject.entries o ≡ₚ o.
Proof.
  unfold JsObject.entries. rewrite array_sort_perm. apply filter_negb_perm.
Qed.

(** ** Names that no object inherits *)

Lemma plain_names_filter (p : TableInfo → bool) (ts : list TableInfo)
    (fks : list ForeignKey) :
  plain_names ts fks → plain_names (List.filter p ts) fks.
Proof.
  intros [Hts Hfks]. split; [|done].
  rewrite Forall_forall in *. intros t Ht. apply Hts.
  apply list_elem_of_In, filter_In in Ht as [Ht _]. by apply list_elem_of_In.
Qed.

Lemma plain_table (ts : list TableInfo) (fks : list ForeignKey) (t : TableInfo) :
  plain_names ts fks → t ∈ ts → inherited (name t) = false.
Proof. intros [Hts _] Ht. rewrite Forall_forall in Hts. by apply Hts. Qed.

Lemma plain_ends (ts : list TableInfo) (fks : list ForeignKey) (k : ForeignKey) :
  plain_names ts fks → k ∈ fks →
  inherited (sourceTable k) = false ∧ inherited (targetTable k) = false.
Proof. intros [_ Hfks] Hk. rewrite Forall_forall in Hfks. by apply Hfks. Qed.

(** ** Level Assignment *)

(** Building [deps] does not throw on names that no object inherits. *)
Lemma build_deps_plain (ts : list TableInfo) (fks : list ForeignKey) :
  plain_names ts fks → Levels.build_deps ts fks = Some (dependency_sets ts fks).
Proof.
  intros [_ Hfks]. unfold Levels.build_deps, dependency_sets.
  induction fks as [|k fks IH] using rev_ind; [done|].
  apply Forall_app in Hfks as [Hfks [[Hk _] _]%Forall_cons].
  rewrite !foldl_snoc, (IH Hfks). simpl. unfold Levels.deps_add.
  rewrite Hk. unfold Levels.deps_add_own. by destruct (_ !! sourceTable k).
Qed.

Lemma levels_within_plain (fuel : nat) (ts : list TableInfo) (fks : list ForeignKey) :
  plain_names ts fks →
  Levels.levels_within fuel ts fks
  = Levels.levels_loop fuel (dependency_sets ts fks) ts [] ∅.
Proof. intros Hp. unfold Levels.levels_within. by rewrite build_deps_plain. Qed.

Section LevelFacts.
Import Levels.
Variable deps : gmap string (gset string).
Variable ts : list TableInfo.
Hypothesis names_unique : NoDup (name <$> ts).

Lemma unique_table (t t' : TableInfo) :
  t ∈ ts → t' ∈ ts → name t = name t' → t = t'.
Proof.
  intros Ht Ht' Hn.
  apply list_elem_of_lookup in Ht as [i Hi].
  apply list_elem_of_lookup in Ht' as [j Hj].
  assert (i = j) as ->; [|congruence].
  eapply NoDup_lookup; [exact names_unique| |].
  - rewrite list_lookup_fmap, Hi. reflexivity.
  - rewrite list_lookup_fmap, Hj. simpl. by rewrite Hn.
Qed.

Lemma placed_unplaced_length (placed : gset string) :
  length (placed_tables ts placed) + length (unplaced placed ts) = length ts.
Proof.
  unfold placed_tables, unplaced.
  rewrite <- length_app. apply Permutation_length, filter_app_complement.
Qed.

Lemma placed_size (placed : gset string) :
  placed ⊆ list_to_set (name <$> ts) →
  size placed = length (placed_tables ts placed).
Proof.
  intros Hsub.
  assert (placed = list_to_set (name <$> placed_tables ts placed)) as Heq.
  { apply set_eq. intros n. rewrite elem_of_list_to_set, list_elem_of_fmap.
    split.
    - intros Hn. pose proof (Hsub _ Hn) as Hin.
      rewrite elem_of_list_to_set, list_elem_of_fmap in Hin.
      destruct Hin as (t & -> & Ht). exists t. split; [done|].
      unfold placed_tables. by apply list_elem_of_filter.
    - intros (t & -> & Ht). unfold placed_tables in Ht.
      by apply list_elem_of_filter in Ht as [? _]. }
  rewrite Heq at 1. rewrite size_list_to_set, length_fmap; [done|].
  apply NoDup_fmap_2_strong.
  - intros t t' Ht Ht'. unfold placed_tables in Ht, Ht'.
    apply list_elem_of_filter in Ht as [_ Ht], Ht' as [_ Ht'].
    by apply unique_table.
  - apply NoDup_filter. by eapply NoDup_fmap_1.
Qed.

Lemma placed_all (placed : gset string) :
  unplaced placed ts = [] → placed_tables ts placed = ts.
Proof.
  unfold unplaced, placed_tables. clear names_unique.
  induction ts as [|t l IH]; [done|].
  rewrite !filter_cons. repeat case_decide; try done.
  intros Hl. by rewrite (IH Hl).
Qed.

(** The loop guard holds exactly while some table is unplaced. *)
Lemma guard_unplaced (placed : gset string) :
  placed ⊆ list_to_set (name <$> ts) →
  size placed < length ts ↔ unplaced placed ts ≠ [].
Proof.
  intros Hsub. rewrite (placed_size _ Hsub).
  pose proof (placed_unplaced_length placed) as Hlen.
  destruct (unplaced placed ts) eqn:Hu; simpl in *; split; intros; try done; lia.
Qed.

Lemma place_filter (Q : TableInfo → Prop) `{!∀ t, Decision (Q t)}
    (placed : gset string) :
  (∀ t, Q t → name t ∉ placed) →
  placed_tables ts (placed ∪ list_to_set (name <$> filter Q ts))
  ≡ₚ placed_tables ts placed ++ filter Q ts.
Proof.
  intros HQ. unfold placed_tables. apply filter_split_perm.
  - intros t Ht. rewrite elem_of_union, elem_of_list_to_set, list_elem_of_fmap.
    split; (intros [?|HR]; [by left|right]).
    + destruct HR as (t' & Hn & Ht'). apply list_elem_of_filter in Ht' as [HQ' Ht'].
      by rewrite (unique_table t t' Ht Ht' Hn).
    + exists t. split; [done|]. by apply list_elem_of_filter.
  - intros t _ Hp Hq. by apply (HQ t).
Qed.

Lemma next_level_step (placed : gset string) :
  let level := next_level deps placed ts in
  (∀ t, t ∈ level → t ∈ ts ∧ name t ∉ placed)
  ∧ (unplaced placed ts ≠ [] → level ≠ [])
  ∧ placed_tables ts (placed ∪ list_to_set (name <$> level))
    ≡ₚ placed_tables ts placed ++ level.
Proof.
  unfold next_level. destruct (placeable deps placed ts) as [|t0 l0] eqn:Hp.
  - split_and!.
    + intros t Ht. apply list_elem_of_filter in Ht. tauto.
    + done.
    + by apply place_filter.
  - rewrite <- Hp. split_and!.
    + intros t Ht. apply list_elem_of_filter in Ht. tauto.
    + by rewrite Hp.
    + apply place_filter. tauto.
Qed.

Lemma loop_inv_step levels placed :
  loop_inv ts levels placed →
  unplaced placed ts ≠ [] →
  let level := next_level deps placed ts in
  let placed' := placed ∪ list_to_set (name <$> level) in
  loop_inv ts (levels ++ [level]) placed'
  ∧ length (unplaced placed' ts) < length (unplaced placed ts).
Proof.
  intros [Hsub Hperm] Hne level placed'.
  destruct (next_level_step placed) as (Hin & Hnonempty & Hnew).
  fold level in Hin, Hnonempty, Hnew. fold placed' in Hnew.
  specialize (Hnonempty Hne).
  split; [split|].
  - intros n. unfold placed'. rewrite elem_of_union, !elem_of_list_to_set.
    intros [Hn|Hn]; [by apply Hsub, elem_of_list_to_set in Hn|].
    apply list_elem_of_fmap in Hn as (t & -> & Ht).
    apply list_elem_of_fmap. exists t. split; [done|]. by apply Hin.
  - rewrite concat_app, Hnew, Hperm. simpl. by rewrite app_nil_r.
  - pose proof (placed_unplaced_length placed) as H1.
    pose proof (placed_unplaced_length placed') as H2.
    apply Permutation_length in Hnew. rewrite length_app in Hnew.
    destruct level; [done|]. simpl in Hnew. lia.
Qed.

Lemma levels_loop_total fuel : ∀ levels placed,
  loop_inv ts levels placed →
  length (unplaced placed ts) ≤ fuel →
  ∃ res, levels_loop fuel deps ts levels placed = Some res
         ∧ length res ≤ length levels + length (unplaced placed ts)
         ∧ concat res ≡ₚ ts.
Proof.
  induction fuel as [|fuel IH]; intros levels placed Hinv Hfuel.
  - destruct Hinv as [Hsub Hperm].
    assert (unplaced placed ts = []) as Hu.
    { destruct (unplaced placed ts); [done|simpl in Hfuel; lia]. }
    simpl. destruct (decide (size placed < length ts)) as [Hlt|_].
    { by apply guard_unplaced in Hlt. }
    exists levels. split_and!; [done|lia|].
    by rewrite Hperm, (placed_all _ Hu).
  - simpl. destruct (decide (size placed < length ts)) as [Hlt|Hge].
    + apply guard_unplaced in Hlt; [|apply Hinv].
      destruct (loop_inv_step _ _ Hinv Hlt) as [Hinv' Hless].
      destruct (IH _ _ Hinv') as (res & Hres & Hlen & Hperm); [lia|].
      exists res. split_and!; [done| |done].
      rewrite length_app in Hlen. simpl in Hlen. lia.
    + destruct Hinv as [Hsub Hperm].
      assert (unplaced placed ts = []) as Hu.
      { destruct (unplaced placed ts) eqn:Hu; [done|].
        exfalso. apply Hge, guard_unplaced; [done|]. by rewrite Hu. }
      exists levels. split_and!; [done|lia|].
      by rewrite Hperm, (placed_all _ Hu).
Qed.
End LevelFacts.

Lemma levels_loop_mono deps ts fuel : ∀ levels placed res extra,
  Levels.levels_loop fuel deps ts levels placed = Some res →
  Levels.levels_loop (fuel + extra) deps ts levels placed = Some res.
Proof.
  induction fuel as [|fuel IH]; intros levels placed res extra; simpl.
  - destruct extra; simpl; by case_decide.
  - case_decide; [apply IH|done].
Qed.

Lemma loop_inv_start (ts : list TableInfo) : loop_inv ts [] ∅.
Proof.
  split; [set_solver|]. simpl. unfold placed_tables.
  induction ts as [|t l IH]; [done|].
  rewrite filter_cons. case_decide; [set_solver|done].
Qed.

Lemma unplaced_start (ts : list TableInfo) : Levels.unplaced ∅ ts = ts.
Proof.
  unfold Levels.unplaced. induction ts as [|t l IH]; [done|].
  rewrite filter_cons. case_decide; [by rewrite IH|set_solver].
Qed.

(** Where the claim C1 holds.  For a table list with unique names, and
    when no name is one that every object inherits, the level loop stops by
    its own guard within [T = length ts] iterations (also under any larger
    budget, with the same result), it produces at most [T] levels, and the
    levels taken together are a rearrangement of the table list: every
    table is in exactly one level.  The name levels of [ProcessFlowView]
    are the same levels read by name. *)
Lemma level_assignment_terminates (ts : list TableInfo) (fks : list ForeignKey) :
  NoDup (name <$> ts) →
  plain_names ts fks →
  ∃ levels : list (list TableInfo),
    (∀ fuel, length ts ≤ fuel →
       Levels.levels_within fuel ts fks = Some levels
       ∧ Levels.level_names fuel ts fks = Some (map (map name) levels))
    ∧ length levels ≤ length ts
    ∧ concat levels ≡ₚ ts
    ∧ ∀ t, t ∈ ts →
        ∃ i l, levels !! i = Some l ∧ t ∈ l
               ∧ ∀ j l', levels !! j = Some l' → t ∈ l' → j = i.
Proof.
  intros Hnd Hplain.
  destruct (levels_loop_total (dependency_sets ts fks) ts Hnd (length ts) [] ∅)
    as (levels & Hrun & Hlen & Hperm).
  { apply loop_inv_start. }
  { by rewrite unplaced_start. }
  rewrite unplaced_start in Hlen. simpl in Hlen.
  exists levels. split_and!; [|done|done|].
  - intros fuel Hfuel. unfold Levels.level_names.
    rewrite (levels_within_plain _ _ _ Hplain).
    replace fuel with (length ts + (fuel - length ts)) by lia.
    by rewrite (levels_loop_mono _ _ _ _ _ _ _ Hrun).
  - intros t Ht.
    assert (t ∈ concat levels) as Hin by by rewrite Hperm.
    apply list_elem_of_In, in_concat in Hin as (l & Hl & Htl).
    apply list_elem_of_In, list_elem_of_lookup in Hl as [i Hi].
    apply list_elem_of_In in Htl.
    exists i, l. split_and!; [done|done|].
    intros j l' Hj Htl'. eapply concat_levels_unique; [|done..].
    rewrite Hperm. by eapply NoDup_fmap_1.
Qed.

Lemma level_assignment_terminates_witness :
  NoDup (name <$> [tbl "A"; tbl "B"; tbl "C"])
  ∧ plain_names [tbl "A"; tbl "B"; tbl "C"] [fk "B" "A"; fk "C" "A"]
  ∧ ∃ levels : list (list TableInfo),
      (∀ fuel, length [tbl "A"; tbl "B"; tbl "C"] ≤ fuel →
         Levels.levels_within fuel [tbl "A"; tbl "B"; tbl "C"]
           [fk "B" "A"; fk "C" "A"] = Some levels
         ∧ Levels.level_names fuel [tbl "A"; tbl "B"; tbl "C"]
             [fk "B" "A"; fk "C" "A"] = Some (map (map name) levels))
      ∧ length levels ≤ length [tbl "A"; tbl "B"; tbl "C"]
      ∧ concat levels ≡ₚ [tbl "A"; tbl "B"; tbl "C"]
      ∧ ∀ t, t ∈ [tbl "A"; tbl "B"; tbl "C"] →
          ∃ i l, levels !! i = Some l ∧ t ∈ l
                 ∧ ∀ j l', levels !! j = Some l' → t ∈ l' → j = i.
Proof.
  assert (NoDup (name <$> [tbl "A"; tbl "B"; tbl "C"])) as Hnd.
  { apply (bool_decide_unpack _). vm_compute. exact I. }
  assert (plain_names [tbl "A"; tbl "B"; tbl "C"] [fk "B" "A"; fk "C" "A"]) as Hp.
  { split; repeat constructor. }
  split_and!; [exact Hnd|exact Hp|].
  exact (level_assignment_terminates [tbl "A"; tbl "B"; tbl "C"]
           [fk "B" "A"; fk "C" "A"] Hnd Hp).
Defined.

(** The example of the specification: with tables A, B, C and foreign keys
    B→A and C→A the levels are [[A]; [B; C]]. *)
Example levels_example :
  Levels.level_names 3 [tbl "A"; tbl "B"; tbl "C"] [fk "B" "A"; fk "C" "A"]
  = Some [["A"]; ["B"; "C"]].
Proof. vm_compute. reflexivity. Qed.

(** Unique names are needed: with two tables of one name the set of placed
    names never reaches the table count, and no budget is enough. *)
Lemma duplicate_names_never_stop (fuel : nat) :
  Levels.levels_within fuel [tbl "A"; tbl "A"] [] = None.
Proof.
  unfold Levels.levels_within.
  set (ts := [tbl "A"; tbl "A"]).
  set (deps := Levels.deps_init ts).
  assert (Levels.build_deps ts [] = Some deps) as -> by reflexivity.
  assert (size ({["A"]} : gset string) < length ts) as Hone
    by (rewrite size_singleton; simpl; lia).
  assert (size (∅ : gset string) < length ts) as Hzero
    by (rewrite size_empty; simpl; lia).
  assert (∀ f levels, Levels.levels_loop f deps ts levels {["A"]} = None) as Hstuck.
  { induction f as [|f IH]; intros levels.
    - cbn [Levels.levels_loop]. by rewrite decide_True.
    - cbn [Levels.levels_loop]. rewrite decide_True by done.
      replace ({["A"]} ∪ list_to_set (name <$> Levels.next_level deps {["A"]} ts))
        with ({["A"]} : gset string); [apply IH|].
      vm_compute. reflexivity. }
  destruct fuel as [|fuel]; cbn [Levels.levels_loop].
  - by rewrite decide_True.
  - rewrite decide_True by done.
    replace (∅ ∪ list_to_set (name <$> Levels.next_level deps ∅ ts))
      with ({["A"]} : gset string); [apply Hstuck|].
    vm_compute. reflexivity.
Qed.

(** ** A foreign key from a filtered-out table named like an inherited member *)

(** C1. A run on which the claim fails.  The schema has the tables
    [constructor] and [items] and the foreign key constructor→items;
    searching "items" keeps the table [items] only.  The dictionary [deps]
    is a plain object, so the test [deps[fk.sourceTable]] finds the member
    [constructor] that every object inherits, and the call of [add] on it
    throws: no level list is returned, under any budget, where the claim
    promises the single level that holds [items].  Without the search
    [constructor] is an own key of [deps] and the levels are returned. *)
Theorem inherited_source_stops_level_assignment :
  let s := {| tables := [tbl "constructor"; tbl "items"];
              foreignKeys := [fk "constructor" "items"] |} in
  filteredTables (λ n, n) s "items" = [tbl "items"]
  ∧ Levels.build_deps [tbl "items"] (foreignKeys s) = None
  ∧ (∀ fuel, Levels.level_names fuel [tbl "items"] (foreignKeys s) = None)
  ∧ processFlowLevels (λ n, n) s "items" = None
  ∧ processFlowLevels (λ n, n) s "" = Some [["items"]; ["constructor"]].
Proof.
  cbv zeta. split_and!.
  - reflexivity.
  - reflexivity.
  - intros fuel. unfold Levels.level_names, Levels.levels_within.
    by assert (Levels.build_deps [tbl "items"]
                 (foreignKeys {| tables := [tbl "constructor"; tbl "items"];
                                 foreignKeys := [fk "constructor" "items"] |})
               = None) as -> by reflexivity.
  - vm_compute. reflexivity.
  - vm_compute. reflexivity.
Qed.

(** ** Foreign keys that leave the filtered table set *)

(** C2. A run on which the claim fails: searching "order" in [shop] keeps
    [order_items] and [orders]; the dependency graph is acyclic and
    [order_items] depends on [orders], yet both get level 0, because the
    dependency of [orders] on the filtered-out [customers] is never met and
    the fallback places every remaining table at once.  Without the search
    the three levels are strictly ordered. *)
Theorem filtered_target_breaks_level_order :
  processFlowLevels (λ s, s) shop "order" = Some [["order_items"; "orders"]]
  ∧ Levels.level_of [["order_items"; "orders"]] "order_items" = Some 0
  ∧ Levels.level_of [["order_items"; "orders"]] "orders" = Some 0
  ∧ processFlowLevels (λ s, s) shop ""
    = Some [["customers"; "products"]; ["orders"]; ["order_items"]].
Proof. vm_compute. done. Qed.

(** C9. Runs on which the claim fails.  A foreign key whose target is
    outside the table list stays in the dependency set of its source, so
    its source waits for the fallback: [A] moves from level 0 to level 1.
    In [GroupedView] the union runs on every foreign key, so two tables
    that both point to a missing table [Z] are merged into a cluster keyed
    [Z].  The guarded union of [SwimlaneView] keeps them apart. *)
Theorem outside_target_changes_level_and_cluster :
  Levels.level_names 2 [tbl "A"; tbl "B"] [fk "A" "Z"] = Some [["B"]; ["A"]]
  ∧ Levels.level_names 2 [tbl "A"; tbl "B"] [] = Some [["A"; "B"]]
  ∧ option_map (map (λ c, (Grouped.root c, name <$> Grouped.cluster_tables c)))
      (Grouped.groups_within 3 [tbl "A"; tbl "B"] [fk "A" "Z"; fk "B" "Z"])
    = Some [("Z", ["A"; "B"])]
  ∧ option_map (map (λ c, (Grouped.root c, name <$> Grouped.cluster_tables c)))
      (Grouped.groups_within 3 [tbl "A"; tbl "B"] [])
    = Some [("A", ["A"]); ("B", ["B"])]
  ∧ option_map (map (λ l, (Swimlane.lane_id l, name <$> Swimlane.lane_tables l)))
      (Swimlane.lanes_within (λ _ _, 0%Z) 3 [tbl "A"; tbl "B"]
         [fk "A" "Z"; fk "B" "Z"])
    = Some [("A", ["A"]); ("B", ["B"])].
Proof. vm_compute. done. Qed.

(** ** Connection Matrix *)

Lemma lookup_foldl_insert {A V : Type} (f : A → string) (g : string → V)
    (l : list A) (m0 : gmap string V) (a : string) :
  foldl (λ m t, <[f t := g (f t)]> m) m0 l !! a
  = if decide (a ∈ f <$> l) then Some (g a) else m0 !! a.
Proof.
  revert m0. induction l as [|t l IH]; intros m0.
  - rewrite decide_False; [done|]. rewrite fmap_nil. apply not_elem_of_nil.
  - cbn [foldl]. rewrite IH, fmap_cons.
    destruct (decide (a = f t)) as [->|Hne].
    + rewrite lookup_insert_eq.
      rewrite (decide_True (P := f t ∈ f t :: (f <$> l))) by apply list_elem_of_here.
      by destruct (decide _).
    + rewrite lookup_insert_ne by done.
      destruct (decide (a ∈ f <$> l)) as [Hin|Hnin].
      * rewrite decide_True; [done|]. by right.
      * rewrite decide_False; [done|]. by intros [?|?]%elem_of_cons.
Qed.

Section MatrixFacts.
Import Correlation.
Variable ts : list TableInfo.
Let ns := name <$> ts.

Lemma zero_row_lookup (b : string) :
  zero_row ts !! b = if decide (b ∈ ns) then Some 0 else None.
Proof.
  unfold zero_row.
  rewrite (lookup_foldl_insert name (λ _, 0) ts ∅ b). by rewrite lookup_empty.
Qed.

Lemma matrix_init_lookup (a : string) :
  matrix_init ts !! a = if decide (a ∈ ns) then Some (zero_row ts) else None.
Proof.
  unfold matrix_init.
  rewrite (lookup_foldl_insert name (λ _, zero_row ts) ts ∅ a).
  by rewrite lookup_empty.
Qed.

Lemma matrix_init_shape : shape ns (matrix_init ts).
Proof.
  intros a b. rewrite matrix_init_lookup. case_decide; simpl.
  - rewrite zero_row_lookup. case_decide; split; try tauto; eauto.
    by intros [? ?].
  - split; [by intros [? ?]|tauto].
Qed.

Lemma matrix_init_cell (a b : string) : cell (matrix_init ts) a b = 0.
Proof.
  unfold cell. rewrite matrix_init_lookup. case_decide; [|done]. simpl.
  rewrite zero_row_lookup. by case_decide.
Qed.

Lemma incr_lookup m a b a' b' :
  is_Some (m !! a ≫= λ row, row !! b) →
  (incr m a b !! a' ≫= λ row, row !! b')
  = if bool_decide (a = a' ∧ b = b')
    then S <$> (m !! a' ≫= λ row, row !! b')
    else m !! a' ≫= λ row, row !! b'.
Proof.
  unfold incr. intros [n Hn].
  destruct (m !! a) as [row|] eqn:Hrow; [|done]. simpl in Hn. rewrite Hn.
  destruct (decide (a = a')) as [<-|Hne].
  - rewrite lookup_insert_eq. simpl. destruct (decide (b = b')) as [<-|Hne].
    + rewrite lookup_insert_eq, bool_decide_eq_true_2 by done.
      rewrite Hrow. simpl. by rewrite Hn.
    + rewrite lookup_insert_ne, bool_decide_eq_false_2 by tauto.
      by rewrite Hrow.
  - rewrite lookup_insert_ne, bool_decide_eq_false_2 by tauto. done.
Qed.

Lemma incr_shape m a b : shape ns m → shape ns (incr m a b).
Proof.
  intros Hs a' b'.
  destruct (decide (is_Some (m !! a ≫= λ row, row !! b))) as [Hd|Hd].
  - rewrite incr_lookup by done. case_bool_decide as Heq; [|apply Hs].
    rewrite fmap_is_Some. apply Hs.
  - replace (incr m a b) with m; [apply Hs|].
    unfold incr. destruct (m !! a) as [row|] eqn:Hrow; [|done].
    simpl in Hd. destruct (row !! b) eqn:Hb; [|done]. destruct Hd. eauto.
Qed.

Lemma incr_cell m a b a' b' :
  is_Some (m !! a ≫= λ row, row !! b) →
  cell (incr m a b) a' b'
  = cell m a' b' + (if bool_decide (a = a' ∧ b = b') then 1 else 0).
Proof.
  intros Hd. unfold cell. rewrite incr_lookup by done.
  case_bool_decide as Heq; [|lia].
  destruct Heq as [<- <-]. destruct Hd as [n ->]. simpl. lia.
Qed.

Lemma matrix_add_shape m k : shape ns m → shape ns (matrix_add m k).
Proof.
  intros Hs. unfold matrix_add.
  destruct (m !! sourceTable k) as [row|]; [|done].
  case_bool_decide; [|done]. by do 2 apply incr_shape.
Qed.

Lemma matrix_add_cell m k a b :
  shape ns m → cell (matrix_add m k) a b = cell m a b + delta ns k a b.
Proof.
  intros Hs. unfold matrix_add, delta, inside.
  pose proof (Hs (sourceTable k) (targetTable k)) as Hst.
  destruct (m !! sourceTable k) as [row|] eqn:Hrow; simpl in Hst.
  - case_bool_decide as Htgt.
    + apply Hst in Htgt as Hin. destruct Hin as [Hsrc Htg].
      rewrite !bool_decide_eq_true_2 by done. simpl.
      rewrite !incr_cell; [lia| |].
      * rewrite Hrow. simpl. done.
      * apply incr_shape; [done|]. done.
    + assert (¬ (sourceTable k ∈ ns ∧ targetTable k ∈ ns)) as Hout by tauto.
      repeat case_bool_decide; simpl; try lia; tauto.
  - assert (¬ (sourceTable k ∈ ns ∧ targetTable k ∈ ns)) as Hout.
    { rewrite <- Hst. by intros [? ?]. }
    repeat case_bool_decide; simpl; try lia; tauto.
Qed.

Lemma build_matrix_snoc fks k :
  build_matrix ts (fks ++ [k]) = matrix_add (build_matrix ts fks) k.
Proof. unfold build_matrix. by rewrite foldl_snoc. Qed.

Lemma build_matrix_shape fks : shape ns (build_matrix ts fks).
Proof.
  induction fks as [|k fks IH] using rev_ind.
  - apply matrix_init_shape.
  - rewrite build_matrix_snoc. by apply matrix_add_shape.
Qed.

(** Closed form of a cell: the contributions of the foreign keys. *)
Lemma build_matrix_cell fks a b :
  cell (build_matrix ts fks) a b = sum_list ((λ k, delta ns k a b) <$> fks).
Proof.
  induction fks as [|k fks IH] using rev_ind.
  - apply matrix_init_cell.
  - rewrite build_matrix_snoc, matrix_add_cell by apply build_matrix_shape.
    rewrite IH, fmap_app, sum_list_append. simpl. lia.
Qed.

Lemma pair_sum_ext (f g : string → string → nat) (l : list string) :
  (∀ a b, f a b = g a b) → pair_sum f l = pair_sum g l.
Proof.
  intros Hfg. induction l as [|a l IH]; simpl; [done|].
  rewrite IH. f_equal. f_equal. apply list_fmap_ext. intros; apply Hfg.
Qed.

Lemma pair_sum_zero (l : list string) : pair_sum (λ _ _, 0) l = 0.
Proof.
  induction l as [|a l IH]; simpl; [done|].
  rewrite IH, sum_list_fmap_const. lia.
Qed.

Lemma sum_list_fmap_plus {A : Type} (f g : A → nat) (l : list A) :
  sum_list ((λ x, f x + g x) <$> l) = sum_list (f <$> l) + sum_list (g <$> l).
Proof. induction l as [|x l IH]; csimpl; lia. Qed.

Lemma pair_sum_plus (f g : string → string → nat) (l : list string) :
  pair_sum (λ a b, f a b + g a b) l = pair_sum f l + pair_sum g l.
Proof.
  induction l as [|a l IH]; simpl; [done|].
  rewrite IH, sum_list_fmap_plus. lia.
Qed.

(** Occurrences of one name in a duplicate-free list. *)
Lemma sum_indicator (P : string → Prop) `{!∀ b, Decision (P b)}
    (l : list string) (t : string) :
  NoDup l → (∀ b, P b ↔ b = t) →
  sum_list ((λ b, if bool_decide (P b) then 1 else 0) <$> l)
  = if bool_decide (t ∈ l) then 1 else 0.
Proof.
  intros Hnd HP. induction Hnd as [|b l Hb Hnd IH]; csimpl; [done|].
  rewrite IH. destruct (decide (b = t)) as [->|Hne].
  - rewrite (bool_decide_eq_true_2 (P t)) by by apply HP.
    rewrite (bool_decide_eq_false_2 (t ∈ l)) by done.
    rewrite bool_decide_eq_true_2 by by left. done.
  - rewrite (bool_decide_eq_false_2 (P b)) by by rewrite HP.
    simpl. rewrite (bool_decide_ext (t ∈ l) (t ∈ b :: l)); [done|set_solver].
Qed.

Lemma sum_list_all_zero {A : Type} (f : A → nat) (l : list A) :
  (∀ x, x ∈ l → f x = 0) → sum_list (f <$> l) = 0.
Proof.
  induction l as [|x l IH]; intros Hz; csimpl; [done|].
  rewrite Hz by by left. rewrite IH; [done|]. intros; apply Hz. by right.
Qed.

(** One foreign key adds one to the sum above the diagonal when its ends
    are two different table names, and nothing otherwise. *)
Lemma pair_sum_delta (k : ForeignKey) :
  NoDup ns →
  pair_sum (delta ns k) ns = if inside ns k && negb (self_ref k) then 1 else 0.
Proof.
  intros Hnd. unfold delta.
  destruct (inside ns k) eqn:Hin; simpl; [|apply pair_sum_zero].
  unfold inside in Hin. apply andb_prop in Hin as [Hs Ht].
  apply bool_decide_eq_true in Hs, Ht.
  unfold self_ref. destruct (String.eqb_spec (sourceTable k) (targetTable k)) as [Heq|Hne];
    simpl.
  - clear Hs Ht. induction Hnd as [|a l Ha Hnd IH]; simpl; [done|].
    rewrite IH, sum_list_all_zero; [done|].
    intros b Hb. rewrite !bool_decide_eq_false_2; [done| |]; intros [H1 H2];
      (assert (a = b) as -> by congruence); done.
  - set (s := sourceTable k) in *. set (t := targetTable k) in *.
    clearbody s t. revert Hs Ht.
    induction Hnd as [|a l Ha Hnd IH]; intros Hs Ht; [by apply not_elem_of_nil in Hs|].
    simpl. rewrite sum_list_fmap_plus.
    destruct (decide (a = s)) as [->|Has]; [|destruct (decide (a = t)) as [->|Hat]].
    + assert (t ∈ l) as Htl by set_solver.
      rewrite (sum_indicator (λ b, s = s ∧ t = b) l t Hnd) by naive_solver.
      rewrite (bool_decide_eq_true_2 (t ∈ l)) by done.
      rewrite (sum_list_all_zero (λ b, if bool_decide (t = s ∧ s = b) then 1 else 0));
        [|intros; rewrite bool_decide_eq_false_2; [done|naive_solver]].
      assert (pair_sum (λ a b,
        (if bool_decide (s = a ∧ t = b) then 1 else 0)
        + (if bool_decide (t = a ∧ s = b) then 1 else 0)) l = 0) as ->; [|done].
      clear IH Hs Ht Htl. induction Hnd as [|c l Hc Hnd IH]; simpl; [done|].
      rewrite IH by set_solver. rewrite sum_list_all_zero; [done|].
      intros b Hb. rewrite !bool_decide_eq_false_2; [done| |]; set_solver.
    + assert (s ∈ l) as Hsl by set_solver.
      rewrite (sum_indicator (λ b, t = t ∧ s = b) l s Hnd) by naive_solver.
      rewrite (bool_decide_eq_true_2 (s ∈ l)) by done.
      rewrite (sum_list_all_zero (λ b, if bool_decide (s = t ∧ t = b) then 1 else 0));
        [|intros; rewrite bool_decide_eq_false_2; [done|naive_solver]].
      assert (pair_sum (λ a b,
        (if bool_decide (s = a ∧ t = b) then 1 else 0)
        + (if bool_decide (t = a ∧ s = b) then 1 else 0)) l = 0) as ->; [|done].
      clear IH Hs Ht Hsl. induction Hnd as [|c l Hc Hnd IH]; simpl; [done|].
      rewrite IH by set_solver. rewrite sum_list_all_zero; [done|].
      intros b Hb. rewrite !bool_decide_eq_false_2; [done| |]; set_solver.
    + rewrite !sum_list_all_zero;
        [|intros; rewrite bool_decide_eq_false_2; [done|naive_solver]..].
      simpl. apply IH; set_solver.
Qed.

Lemma upper_sum_count fks :
  NoDup ns →
  upper_sum (build_matrix ts fks) ns
  = length (List.filter (λ k, inside ns k && negb (self_ref k)) fks).
Proof.
  intros Hnd. unfold upper_sum.
  induction fks as [|k fks IH] using rev_ind.
  - rewrite (pair_sum_ext _ (λ _ _, 0)) by apply matrix_init_cell.
    apply pair_sum_zero.
  - rewrite build_matrix_snoc.
    rewrite (pair_sum_ext _ (λ a b, cell (build_matrix ts fks) a b + delta ns k a b))
      by (intros; apply matrix_add_cell, build_matrix_shape).
    rewrite pair_sum_plus, IH, pair_sum_delta by done.
    rewrite List.filter_app, length_app. simpl.
    destruct (inside ns k && negb (self_ref k)); simpl; lia.
Qed.
End MatrixFacts.

(** The diagonal cell of a table counts each of its self-referencing
    foreign keys twice. *)
Lemma diagonal_cell (ts : list TableInfo) (fks : list ForeignKey) (x : string) :
  x ∈ name <$> ts →
  Correlation.cell (Correlation.build_matrix ts fks) x x
  = 2 * length (List.filter
                  (λ k, String.eqb (sourceTable k) x && String.eqb (targetTable k) x)
                  fks).
Proof.
  intros Hx. rewrite build_matrix_cell.
  induction fks as [|k fks IH]; csimpl; [done|].
  rewrite IH. unfold delta, Correlation.inside.
  destruct (String.eqb_spec (sourceTable k) x) as [Hs|Hs];
    destruct (String.eqb_spec (targetTable k) x) as [Ht|Ht]; simpl.
  - rewrite Hs, Ht. rewrite !bool_decide_eq_true_2 by done. simpl. lia.
  - repeat case_bool_decide; simpl; try lia; naive_solver.
  - repeat case_bool_decide; simpl; try lia; naive_solver.
  - repeat case_bool_decide; simpl; try lia; naive_solver.
Qed.

(** Where the claim C3 holds.  For unique table names, and when no name
    is one that every object inherits, the matrix is symmetric; the
    diagonal cell of a table that no foreign key references from itself is
    0; and the cells above the diagonal add up to the number of foreign
    keys that join two different tables of the filtered set. *)
Lemma connection_matrix_properties (ts : list TableInfo) (fks : list ForeignKey) :
  NoDup (name <$> ts) →
  plain_names ts fks →
  let M := Correlation.build_matrix ts fks in
  (∀ a b, Correlation.cell M a b = Correlation.cell M b a)
  ∧ (∀ x, x ∈ name <$> ts →
       (∀ k, k ∈ fks → ¬ (sourceTable k = x ∧ targetTable k = x)) →
       Correlation.cell M x x = 0)
  ∧ Correlation.upper_sum M (name <$> ts)
    = length (List.filter
                (λ k, Correlation.inside (name <$> ts) k
                      && negb (Correlation.self_ref k)) fks).
Proof.
  intros Hnd _ M. split_and!.
  - intros a b. unfold M. rewrite !build_matrix_cell. f_equal.
    apply list_fmap_ext. intros _ k _. unfold delta.
    destruct (Correlation.inside _ k); [|done].
    repeat case_bool_decide; try lia; naive_solver.
  - intros x Hx Hself. unfold M. rewrite diagonal_cell by done.
    replace (List.filter _ fks) with (@nil ForeignKey); [done|].
    symmetry. induction fks as [|k fks IH]; [done|]. simpl.
    destruct (String.eqb_spec (sourceTable k) x) as [Hs|Hs];
      destruct (String.eqb_spec (targetTable k) x) as [Ht|Ht]; simpl;
      try (apply IH; intros k' Hk'; apply Hself; by right).
    exfalso. apply (Hself k); [by left|done].
  - by apply upper_sum_count.
Qed.

Lemma connection_matrix_properties_witness :
  NoDup (name <$> [tbl "X"; tbl "Y"])
  ∧ plain_names [tbl "X"; tbl "Y"] [fk "X" "Y"; fk "X" "Y"; fk "X" "X"]
  ∧ let M := Correlation.build_matrix [tbl "X"; tbl "Y"]
               [fk "X" "Y"; fk "X" "Y"; fk "X" "X"] in
    (∀ a b, Correlation.cell M a b = Correlation.cell M b a)
    ∧ (∀ x, x ∈ name <$> [tbl "X"; tbl "Y"] →
         (∀ k, k ∈ [fk "X" "Y"; fk "X" "Y"; fk "X" "X"] →
               ¬ (sourceTable k = x ∧ targetTable k = x)) →
         Correlation.cell M x x = 0)
    ∧ Correlation.upper_sum M (name <$> [tbl "X"; tbl "Y"])
      = length (List.filter
                  (λ k, Correlation.inside (name <$> [tbl "X"; tbl "Y"]) k
                        && negb (Correlation.self_ref k))
                  [fk "X" "Y"; fk "X" "Y"; fk "X" "X"]).
Proof.
  assert (NoDup (name <$> [tbl "X"; tbl "Y"])) as Hnd.
  { apply (bool_decide_unpack _). vm_compute. exact I. }
  assert (plain_names [tbl "X"; tbl "Y"] [fk "X" "Y"; fk "X" "Y"; fk "X" "X"]) as Hp.
  { split; repeat constructor. }
  split_and!; [exact Hnd|exact Hp|].
  exact (connection_matrix_properties [tbl "X"; tbl "Y"]
           [fk "X" "Y"; fk "X" "Y"; fk "X" "X"] Hnd Hp).
Defined.

(** C3. A run on which the claim fails: the single table [X] with the
    foreign key X→X.  The foreign-key loop has no guard for a key from a
    table to itself and increments the same cell twice: the diagonal cell
    is 2 where the claim says 0, and nothing is added above the diagonal
    although one foreign key lies inside the filtered set.  The value
    leaves the diagonal, which the renderer masks: the strongest value is
    2, and the ranking counts 2 connections and 1 related table for [X],
    while the list of its connected tables, which does skip the selected
    table, is empty. *)
Theorem self_reference_fills_diagonal :
  let s := {| tables := [tbl "X"]; foreignKeys := [fk "X" "X"] |} in
  let M := correlationMatrix (λ n, n) s "" in
  Correlation.cell M "X" "X" = 2
  ∧ Correlation.upper_sum M ["X"] = 0
  ∧ length (List.filter (Correlation.inside ["X"]) (foreignKeys s)) = 1
  ∧ correlationMaxVal (λ n, n) s "" = 2
  ∧ map (λ st, (name (CorrelationStats.table st),
                CorrelationStats.connections st, CorrelationStats.connectedTo st))
        (correlationTableStats (λ n, n) s "")
    = [("X", 2, 1)]
  ∧ correlationSelected (λ n, n) s "" (Some "X") = [].
Proof. cbv zeta. split_and!; vm_compute; reflexivity. Qed.

(** The claim C3, read for every table list with unique names, is refuted
    by that run. *)
Lemma self_reference_on_diagonal :
  ¬ (∀ (ts : list TableInfo) (fks : list ForeignKey),
       NoDup (name <$> ts) →
       let M := Correlation.build_matrix ts fks in
       (∀ a b, Correlation.cell M a b = Correlation.cell M b a)
       ∧ (∀ x, x ∈ name <$> ts → Correlation.cell M x x = 0)
       ∧ Correlation.upper_sum M (name <$> ts)
         = length (List.filter (Correlation.inside (name <$> ts)) fks)).
Proof.
  intros Hclaim.
  destruct (Hclaim [tbl "X"] [fk "X" "X"]) as (_ & Hdiag & _).
  { apply (bool_decide_unpack _). vm_compute. exact I. }
  specialize (Hdiag "X" ltac:(by left)). vm_compute in Hdiag. discriminate.
Qed.

(** The example of the specification: two foreign keys from X to Y give
    weight 2 in both cells. *)
Example matrix_example :
  let M := Correlation.build_matrix [tbl "X"; tbl "Y"] [fk "X" "Y"; fk "X" "Y"] in
  Correlation.cell M "X" "Y" = 2 ∧ Correlation.cell M "Y" "X" = 2
  ∧ Correlation.cell M "X" "X" = 0.
Proof. vm_compute. done. Qed.

(** ** Hierarchy Builder *)

Lemma truthy_at_plain (o : gmap string string) (n : string) :
  inherited n = false → truthy_at o n = truthy (o !! n).
Proof. intros Hn. unfold truthy_at, truthy. by destruct (o !! n). Qed.

Section HierarchyFacts.
Import Hierarchy.
Variable ts : list TableInfo.
Variable fks : list ForeignKey.
Let pm := build_parentMap fks.
Let rs := roots pm ts.

Hypothesis names_unique : NoDup (name <$> ts).
Hypothesis no_virtual_name : virtualRoot ∉ name <$> ts.
Hypothesis names_plain : ∀ t, t ∈ ts → inherited (name t) = false.

Lemma has_node_spec (nodes : list TreeNode) (n : string) :
  has_node nodes n = true ↔ n ∈ map id nodes.
Proof.
  unfold has_node. rewrite existsb_exists, list_elem_of_In, in_map_iff.
  split; intros (nd & H1 & H2); exists nd.
  - apply String.eqb_eq in H2. done.
  - split; [done|]. by apply String.eqb_eq.
Qed.

Lemma has_table_spec (l : list TableInfo) (n : string) :
  has_table l n = true ↔ n ∈ name <$> l.
Proof.
  unfold has_table. rewrite existsb_exists, list_elem_of_fmap.
  split; intros (t & H1 & H2); exists t.
  - apply String.eqb_eq in H2. by rewrite list_elem_of_In.
  - split; [by apply list_elem_of_In|]. by apply String.eqb_eq.
Qed.

Lemma root_nodes_ids (n : string) :
  n ∈ name <$> ts →
  n ∈ map id (root_nodes rs) ↔ n ∈ name <$> rs.
Proof.
  intros Hn. destruct rs as [|r [|r' l]]; simpl; [done|done|].
  rewrite map_map. simpl. change (map name l) with (name <$> l).
  rewrite !elem_of_cons. split; [|tauto].
  intros [->|H]; [done|tauto].
Qed.

Lemma in_roots (t : TableInfo) :
  t ∈ ts → name t ∈ name <$> rs ↔ has_parent fks t = false.
Proof.
  intros Ht. unfold rs, roots. rewrite list_elem_of_fmap. split.
  - intros (t' & Hn & Ht'). apply list_elem_of_In, filter_In in Ht' as [Hin Hr].
    apply list_elem_of_In in Hin.
    rewrite (truthy_at_plain _ _ (names_plain t' Hin)) in Hr.
    unfold has_parent. fold pm. rewrite Hn. by apply negb_true_iff in Hr.
  - intros Hp. exists t. split; [done|].
    apply list_elem_of_In, filter_In. split; [by apply list_elem_of_In|].
    rewrite (truthy_at_plain _ _ (names_plain t Ht)).
    unfold has_parent in Hp. fold pm in Hp. by rewrite Hp.
Qed.

Lemma attach_all (pre suf : list TableInfo) :
  ts = pre ++ suf →
  foldl (attach pm ts rs) (root_nodes rs ++ map (node_of ts fks) (List.filter (has_parent fks) pre)) suf
  = root_nodes rs ++ map (node_of ts fks) (List.filter (has_parent fks) ts).
Proof.
  revert pre. induction suf as [|t suf IH]; intros pre Hts.
  - rewrite app_nil_r in Hts. by subst.
  - cbn [foldl]. rewrite <- (IH (pre ++ [t])) by by rewrite <- app_assoc.
    f_equal. unfold attach.
    assert (t ∈ ts) as Ht by (rewrite Hts; set_solver).
    assert (name t ∉ name <$> pre) as Hfresh.
    { rewrite Hts, fmap_app, fmap_cons in names_unique.
      apply NoDup_app in names_unique as (_ & Hd & _).
      intros Hin. apply (Hd _ Hin). by left. }
    rewrite List.filter_app, map_app. simpl.
    assert (has_node (root_nodes rs ++ map (node_of ts fks) (List.filter (has_parent fks) pre)) (name t)
            = negb (has_parent fks t)) as Hnode.
    { apply eq_true_iff_eq.
      rewrite has_node_spec, map_app, elem_of_app, root_nodes_ids, in_roots
        by (done || by apply list_elem_of_fmap_2).
      rewrite negb_true_iff. split; [|tauto].
      intros [?|Hin]; [done|]. exfalso. apply Hfresh.
      apply list_elem_of_In, in_map_iff in Hin as (nd & Hid & Hnd).
      apply in_map_iff in Hnd as (t' & <- & Ht').
      apply filter_In in Ht' as [Ht' _].
      apply list_elem_of_fmap. exists t'. split; [|by apply list_elem_of_In].
      rewrite <- Hid. unfold node_of. by destruct (_ && _). }
    rewrite Hnode. destruct (has_parent fks t) eqn:Hp; simpl.
    + unfold node_of. change (truthy (pm !! name t)) with (has_parent fks t).
      rewrite Hp. simpl. by destruct (has_table ts _); rewrite <- app_assoc.
    + by rewrite app_nil_r.
Qed.

Lemma treeData_closed_form :
  rs ≠ [] →
  treeData ts fks = Some (root_nodes rs ++ map (node_of ts fks) (List.filter (has_parent fks) ts)).
Proof.
  intros Hrs. unfold treeData. fold pm. fold rs.
  rewrite (bool_decide_eq_false_2 (length rs = 0)) by by destruct rs.
  simpl. f_equal. rewrite <- (attach_all [] ts eq_refl). simpl.
  by rewrite app_nil_r.
Qed.

Lemma filter_twice {A : Type} (p q : A → bool) (l : list A) :
  List.filter p (List.filter q l) = List.filter (λ x, q x && p x) l.
Proof.
  induction l as [|x l IH]; simpl; [done|].
  destruct (q x); simpl; [destruct (p x)|]; by rewrite IH.
Qed.

Lemma node_of_id (l : list TableInfo) : map id (map (node_of ts fks) l) = map name l.
Proof.
  rewrite map_map. apply map_ext. intros t. unfold node_of. by destruct (_ && _).
Qed.

Lemma node_of_parent (t : TableInfo) :
  has_parent fks t = true →
  parentId (node_of ts fks t)
  = if orphan ts fks t then fallback_parent rs else pm !! name t.
Proof.
  intros Hp. unfold node_of, orphan. rewrite Hp. simpl.
  by destruct (has_table ts _).
Qed.

Lemma parent_is_table (t : TableInfo) :
  has_parent fks t = true → orphan ts fks t = false →
  ∃ p, pm !! name t = Some p ∧ p ∈ name <$> ts.
Proof.
  unfold orphan. intros Hp Ho. rewrite Hp in Ho. simpl in Ho.
  apply negb_false_iff, has_table_spec in Ho.
  unfold has_parent, truthy in Hp. fold pm in Hp, Ho.
  destruct (pm !! name t) as [p|]; [|done]. eauto.
Qed.


Lemma top_of_virtual_root :
  1 < length rs →
  top_nodes (root_nodes rs ++ map (node_of ts fks) (List.filter (has_parent fks) ts))
  = [virtualRoot].
Proof.
  intros Hlen. unfold top_nodes. rewrite List.filter_app, map_app.
  replace (List.filter _ (map (node_of ts fks) _)) with (@nil TreeNode).
  - destruct rs as [|r [|r' l]]; simpl in Hlen; try lia.
    cbn [root_nodes]. remember (r :: r' :: l) as rl. simpl.
    rewrite filter_map_swap. simpl. by rewrite filter_false.
  - symmetry. rewrite filter_map_swap, filter_twice.
    rewrite (filter_ext_in _ (λ _, false)); [by rewrite filter_false|].
    intros t Ht. apply list_elem_of_In in Ht.
    destruct (has_parent fks t) eqn:Hp; [|done]. simpl.
    rewrite node_of_parent by done. apply bool_decide_eq_false_2.
    destruct (orphan ts fks t) eqn:Ho.
    + unfold fallback_parent. by rewrite (bool_decide_eq_true_2 (1 < _)).
    + by destruct (parent_is_table t Hp Ho) as (p & -> & Hin).
Qed.

Lemma top_of_single_root (r : TableInfo) :
  "" ∉ name <$> ts →
  rs = [r] →
  top_nodes (root_nodes rs ++ map (node_of ts fks) (List.filter (has_parent fks) ts)) = [name r]
  ∧ virtualRoot ∉ map id (root_nodes rs ++ map (node_of ts fks) (List.filter (has_parent fks) ts)).
Proof.
  intros Hne Hrs.
  assert (r ∈ ts) as Hr.
  { assert (r ∈ rs) as Hin by (rewrite Hrs; by left).
    apply list_elem_of_In, filter_In in Hin as [Hin _]. by apply list_elem_of_In. }
  assert (fallback_parent rs = Some (name r)) as Hfb.
  { rewrite Hrs. unfold fallback_parent. simpl.
    destruct (String.eqb_spec (name r) "") as [He|_]; [|done].
    exfalso. apply Hne. rewrite <- He. by apply list_elem_of_fmap_2. }
  split.
  - unfold top_nodes. rewrite List.filter_app, map_app.
    replace (List.filter _ (map (node_of ts fks) _)) with (@nil TreeNode).
    + by rewrite Hrs.
    + symmetry. rewrite filter_map_swap, filter_twice.
      rewrite (filter_ext_in _ (λ _, false)); [by rewrite filter_false|].
      intros t Ht. apply list_elem_of_In in Ht.
      destruct (has_parent fks t) eqn:Hp; [|done]. simpl.
      rewrite node_of_parent by done. apply bool_decide_eq_false_2.
      destruct (orphan ts fks t) eqn:Ho; [by rewrite Hfb|].
      by destruct (parent_is_table t Hp Ho) as (p & -> & Hin).
  - rewrite map_app, node_of_id, Hrs. simpl.
    rewrite elem_of_cons. intros [Hv|Hv].
    + apply no_virtual_name. rewrite Hv. by apply list_elem_of_fmap_2.
    + apply no_virtual_name. apply list_elem_of_In, in_map_iff in Hv as (t & <- & Ht).
      apply filter_In in Ht as [Ht _]. apply list_elem_of_fmap_2.
      by apply list_elem_of_In.
Qed.
End HierarchyFacts.



(** A table that is named like an inherited member is no root candidate:
    with the tables [constructor] and [A] and no foreign key, [A] is the
    only root and [constructor] its child; the table [constructor] alone
    has no root candidate, and the result is [null]. *)
Example inherited_name_is_no_root :
  tree_shape (Hierarchy.treeData [tbl "constructor"; tbl "A"] [])
  = Some [("A", None); ("constructor", Some "A")]
  ∧ Hierarchy.treeData [tbl "constructor"] [] = None.
Proof. split; vm_compute; reflexivity. Qed.


(** ** Clustering Engine *)

(** *** Parent pointers *)

Lemma reach_end f n x r : reach f n x r → f r = r.
Proof. induction 1; done. Qed.

Lemma reach_det f n x r m r' :
  reach f n x r → reach f m x r' → r = r' ∧ n = m.
Proof.
  intros H. revert m r'. induction H as [x Hx|n x r Hx H IH]; intros m r' H'.
  - by inversion H'; subst.
  - inversion H' as [|m' ? ? Hx' H'']; subst; [done|].
    destruct (IH _ _ H'') as [-> ->]. done.
Qed.

Lemma reach_inv_step f n x r :
  reach f n x r → f x ≠ x → ∃ n', n = S n' ∧ reach f n' (f x) r.
Proof. destruct 1; [done|eauto]. Qed.

Lemma reach_ext f g n x r :
  (∀ z, f z = g z) → reach f n x r → reach g n x r.
Proof.
  intros Hfg. induction 1 as [x Hx|n x r Hx H IH].
  - apply reach_root. by rewrite <- Hfg.
  - apply reach_step; rewrite <- Hfg; done.
Qed.

(** Path compression: [x] is pointed at its own root. *)
Lemma reach_shortcut f x k rx m z s :
  reach f k x rx →
  reach f m z s →
  ∃ m', m' ≤ m ∧ reach (λ y, if decide (y = x) then rx else f y) m' z s.
Proof.
  intros Hx H. induction H as [z Hz|n z s Hz H IH].
  - exists 0. split; [done|]. apply reach_root. case_decide as Heq; [|done].
    subst. by destruct (reach_det _ _ _ _ _ _ Hx (reach_root f x Hz)).
  - destruct IH as (m' & Hle & IH). destruct (decide (z = x)) as [->|Hne].
    + destruct (reach_det _ _ _ _ _ _ Hx (reach_step f n x s Hz H)) as [-> _].
      pose proof (reach_end _ _ _ _ H) as Hs.
      assert (s ≠ x) as Hsx by (intros ->; done).
      exists 1. split; [lia|]. apply reach_step.
      * by rewrite decide_True.
      * rewrite decide_True by done. apply reach_root. by rewrite decide_False.
    + exists (S m'). split; [lia|]. apply reach_step.
      * by rewrite decide_False.
      * by rewrite decide_False.
Qed.

(** Linking the root [ra] under the root [rb]. *)
Lemma reach_link f ra rb m z s :
  f ra = ra → f rb = rb →
  reach f m z s →
  ∃ m', m' ≤ S m
    ∧ reach (λ y, if decide (y = ra) then rb else f y) m' z
            (if decide (s = ra) then rb else s).
Proof.
  intros Hra Hrb H. induction H as [z Hz|n z s Hz H IH].
  - destruct (decide (z = ra)) as [->|Hne].
    + destruct (decide (ra = rb)) as [<-|Hab].
      * exists 0. split; [lia|]. apply reach_root. by rewrite decide_True.
      * exists 1. split; [lia|]. apply reach_step.
        -- rewrite decide_True by done. congruence.
        -- rewrite decide_True by done. apply reach_root.
           rewrite decide_False by congruence. done.
    + exists 0. split; [lia|]. apply reach_root. by rewrite decide_False.
  - destruct IH as (m' & Hle & IH).
    assert (z ≠ ra) as Hne by congruence.
    exists (S m'). split; [lia|]. apply reach_step; by rewrite decide_False.
Qed.

(** *** [find] and [union] *)

Section UnionFindFacts.
Import UnionFind.

Lemma truthy_good (p : gmap string string) (x : string) :
  (∀ k v, p !! k = Some v → ordinary v) →
  truthy (p !! x) = bool_decide (is_Some (p !! x)).
Proof.
  intros Hg. unfold truthy. destruct (p !! x) as [v|] eqn:Hv.
  - rewrite bool_decide_eq_true_2 by eauto.
    destruct (String.eqb_spec v ""); [by destruct (Hg _ _ Hv)|done].
  - by rewrite bool_decide_eq_false_2 by by intros [? ?].
Qed.

Lemma nxt_insert p x v z :
  nxt (<[x := v]> p) z = if decide (z = x) then v else nxt p z.
Proof.
  unfold nxt. case_decide as Heq.
  - subst. by rewrite lookup_insert_eq.
  - by rewrite lookup_insert_ne.
Qed.

Lemma rep_root p rep d x :
  uf_inv p rep d → nxt p x = x → rep x = x.
Proof.
  intros [_ Hr] Hx. destruct (Hr x) as (n & _ & Hn).
  by destruct (reach_det _ _ _ _ _ _ Hn (reach_root _ x Hx)).
Qed.

Lemma rep_nxt p rep d x : uf_inv p rep d → rep (nxt p x) = rep x.
Proof.
  intros Hinv. destruct (decide (nxt p x = x)) as [->|Hne]; [done|].
  destruct Hinv as [_ Hr].
  destruct (Hr x) as (n & _ & Hn). destruct (Hr (nxt p x)) as (m & _ & Hm).
  destruct (reach_inv_step _ _ _ _ Hn Hne) as (n' & _ & Hn').
  by destruct (reach_det _ _ _ _ _ _ Hm Hn').
Qed.

Lemma rep_is_root p rep d x : uf_inv p rep d → nxt p (rep x) = rep x.
Proof.
  intros [_ Hr]. destruct (Hr x) as (n & _ & Hn). by eapply reach_end.
Qed.

Lemma rep_ordinary p rep d x : uf_inv p rep d → ordinary x → ordinary (rep x).
Proof.
  intros [Hg Hr] Hx. destruct (Hr x) as (n & _ & Hn).
  clear Hr. induction Hn as [z Hz|n z s Hz H IH]; [done|].
  apply IH. unfold nxt in *. destruct (p !! z) as [v|] eqn:Hv; simpl in *; [|done].
  by eapply Hg.
Qed.

Lemma lazy_init_inv p rep d x :
  uf_inv p rep d → ordinary x →
  let p1 := if truthy (p !! x) then p else <[x := x]> p in
  uf_inv p1 rep d ∧ ∀ z, nxt p1 z = nxt p z.
Proof.
  intros Hinv Hx p1.
  assert (∀ z, nxt p1 z = nxt p z) as Hsame.
  { intros z. unfold p1. rewrite (truthy_good _ _ (proj1 Hinv)).
    case_bool_decide as Hs; [done|]. rewrite nxt_insert.
    case_decide as Hz; [|done]. subst. unfold nxt.
    destruct (p !! x) eqn:Hpx; [|done]. destruct Hs. eauto. }
  split; [|done]. destruct Hinv as [Hg Hr]. split.
  - unfold p1. destruct (truthy (p !! x)); [done|].
    intros k v. rewrite lookup_insert. case_decide; [|by apply Hg].
    by intros [= <-].
  - intros z. destruct (Hr z) as (n & Hn & Hz). exists n. split; [done|].
    eapply reach_ext; [|done]. done.
Qed.

Lemma find_spec rep d fuel : ∀ p x,
  uf_inv p rep d → ordinary x → d < fuel →
  ∃ p', find fuel p x = Some (rep x, p') ∧ uf_inv p' rep d.
Proof.
  intros p x Hinv Hx Hd.
  destruct (proj2 Hinv x) as (n & Hn & Hreach).
  assert (n < fuel) as Hfuel by lia. clear Hn Hd.
  revert p x n Hinv Hx Hreach Hfuel.
  induction fuel as [|fuel IH]; intros p x n Hinv Hx Hreach Hfuel; [lia|].
  cbn [find]. rewrite (proj2 Hx). cbn [andb].
  destruct (lazy_init_inv p rep d x Hinv Hx) as [Hinv1 Hsame].
  set (p1 := if truthy (p !! x) then p else <[x := x]> p) in *.
  change (default x (p1 !! x)) with (nxt p1 x). rewrite Hsame.
  destruct (String.eqb_spec (nxt p x) x) as [Heq|Hne].
  - exists p1. split; [|done]. by rewrite (rep_root p rep d x).
  - destruct (reach_inv_step _ _ _ _ Hreach Hne) as (n' & -> & Hreach').
    assert (ordinary (nxt p x)) as Hpx.
    { unfold nxt in *. destruct (p !! x) as [v|] eqn:Hv; simpl in *; [|done].
      by eapply (proj1 Hinv). }
    destruct (IH p1 (nxt p x) n') as (p2 & Hfind & Hinv2); [done|done| |lia|].
    { rewrite (rep_nxt p rep d x Hinv). eapply reach_ext; [|done]. done. }
    rewrite Hfind, (rep_nxt p rep d x Hinv).
    eexists. split; [done|]. destruct Hinv2 as [Hg2 Hr2]. split.
    + intros k v. rewrite lookup_insert. case_decide; [|by apply Hg2].
      intros [= <-]. by eapply rep_ordinary.
    + intros z. destruct (Hr2 z) as (m & Hm & Hz).
      destruct (Hr2 x) as (k & _ & Hk).
      destruct (reach_shortcut _ _ _ _ _ _ _ Hk Hz) as (m' & Hle & Hz').
      exists m'. split; [lia|]. eapply reach_ext; [|done].
      intros y. by rewrite nxt_insert.
Qed.

Lemma union_spec rep d fuel p a b :
  uf_inv p rep d → ordinary a → ordinary b → d < fuel →
  ∃ p', union fuel p a b = Some p' ∧ uf_inv p' (merged rep a b) (S d).
Proof.
  intros Hinv Ha Hb Hd. unfold union.
  destruct (find_spec rep d fuel p a Hinv Ha Hd) as (p1 & -> & Hinv1).
  destruct (find_spec rep d fuel p1 b Hinv1 Hb Hd) as (p2 & -> & Hinv2).
  eexists. split; [done|]. split.
  - intros k v. rewrite lookup_insert. case_decide; [|by apply (proj1 Hinv2)].
    intros [= <-]. by eapply rep_ordinary.
  - intros z. destruct (proj2 Hinv2 z) as (m & Hm & Hz).
    destruct (reach_link (nxt p2) (rep a) (rep b) m z (rep z)) as (m' & Hle & Hz');
      [by eapply rep_is_root..|done|].
    exists m'. split; [lia|]. eapply reach_ext; [|exact Hz'].
    intros y. by rewrite nxt_insert.
Qed.

(** The classes after a union, when the classes before are the components
    of a relation [R]: the components of [R] with the edge (a, b) added. *)
Lemma merged_components (R R' : relation string) (rep : string → string)
    (a b : string) :
  (∀ x y, R' x y ↔ R x y ∨ (x = a ∧ y = b)) →
  (∀ x y, rep x = rep y ↔ rtsc R x y) →
  ∀ x y, merged rep a b x = merged rep a b y ↔ rtsc R' x y.
Proof.
  intros HR' Hrep.
  assert (∀ x y, rtsc R x y → rtsc R' x y) as Hmono.
  { intros x y. apply (rtsc_congruence (λ z, z)). intros ? ? ?. apply HR'. by left. }
  assert (rtsc R' a b) as Hab by (apply rtsc_lr, HR'; by right).
  intros x y. unfold merged. split.
  - repeat case_decide; intros Heq.
    + apply Hmono, Hrep. congruence.
    + etrans; [apply Hmono, Hrep; eassumption|]. etrans; [exact Hab|].
      by apply Hmono, Hrep.
    + symmetry. etrans; [apply Hmono, Hrep; eassumption|]. etrans; [exact Hab|].
      by apply Hmono, Hrep.
    + by apply Hmono, Hrep.
  - intros Hxy.
    assert (∀ u v, sc R' u v →
      (if decide (rep u = rep a) then rep b else rep u)
      = (if decide (rep v = rep a) then rep b else rep v)) as Hstep.
    { assert (∀ u v, R' u v →
        (if decide (rep u = rep a) then rep b else rep u)
        = (if decide (rep v = rep a) then rep b else rep v)) as Hone.
      { intros u v [Huv|[-> ->]]%HR'.
        - apply rtsc_lr, Hrep in Huv. rewrite Huv. done.
        - rewrite decide_True by done. by case_decide. }
      intros u v [?|?]; [by apply Hone|symmetry; by apply Hone]. }
    induction Hxy as [|u v w Huv _ IH]; [done|].
    rewrite <- IH. by apply Hstep.
Qed.

Lemma init_inv (ts : list TableInfo) :
  (∀ n, n ∈ name <$> ts → ordinary n) → uf_inv (init ts) (λ x, x) 0.
Proof.
  intros Hne.
  assert (∀ x, init ts !! x = if decide (x ∈ name <$> ts) then Some x else None) as Hl.
  { intros x. unfold init.
    rewrite (lookup_foldl_insert name (λ x, x) ts ∅ x). by rewrite lookup_empty. }
  split.
  - intros k v. rewrite Hl. case_decide; [|done]. intros [= <-]. by apply Hne.
  - intros x. exists 0. split; [done|]. apply reach_root.
    unfold nxt. rewrite Hl. by case_decide.
Qed.

Lemma no_edges g x y : rtsc (fk_rel g []) x y → x = y.
Proof.
  induction 1 as [|u v w Huv _ IH]; [done|].
  destruct Huv as [(k & Hk & _)|(k & Hk & _)]; by apply not_elem_of_nil in Hk.
Qed.

Lemma unions_spec (g : ForeignKey → bool) (fuel : nat) (fks : list ForeignKey) :
  (∀ k, k ∈ fks → g k = true → ordinary (sourceTable k) ∧ ordinary (targetTable k)) →
  length fks < fuel →
  ∀ rest done p rep d,
    fks = done ++ rest →
    uf_inv p rep d → d ≤ length done →
    (∀ x y, rep x = rep y ↔ rtsc (fk_rel g done) x y) →
    ∃ p' rep' d',
      for_each (guarded_union g fuel) p rest = Some p'
      ∧ uf_inv p' rep' d' ∧ d' ≤ length fks
      ∧ ∀ x y, rep' x = rep' y ↔ rtsc (fk_rel g fks) x y.
Proof.
  intros Hne Hfuel. induction rest as [|k rest IH]; intros done p rep d Hfks Hinv Hd Hrep.
  - rewrite app_nil_r in Hfks. subst done. exists p, rep, d. done.
  - assert (fks = (done ++ [k]) ++ rest) as Hfks' by by rewrite <- app_assoc.
    assert (length done < length fks) as Hlen.
    { rewrite Hfks, length_app. simpl. lia. }
    assert (k ∈ fks) as Hk by (rewrite Hfks; set_solver).
    cbn [for_each]. unfold guarded_union at 1. destruct (g k) eqn:Hg.
    + destruct (Hne k Hk Hg) as [Hs Ht].
      destruct (union_spec rep d fuel p _ _ Hinv Hs Ht) as (p' & -> & Hinv'); [lia|].
      apply (IH (done ++ [k]) p' _ (S d) Hfks' Hinv').
      { rewrite length_app. simpl. lia. }
      apply (merged_components (fk_rel g done)); [|done].
      intros x y. unfold fk_rel. split.
      * intros (k' & [Hin|Hin]%elem_of_app & Hg' & Hx & Hy).
        -- left. eauto.
        -- apply list_elem_of_singleton in Hin as ->. by right.
      * intros [(k' & Hin & ?)|[-> ->]].
        -- exists k'. split; [|done]. apply elem_of_app. by left.
        -- exists k. split; [|done]. apply elem_of_app. right. by left.
    + apply (IH (done ++ [k]) p rep d Hfks' Hinv).
      { rewrite length_app. simpl. lia. }
      intros x y. rewrite Hrep.
      split; apply (rtsc_congruence (λ z, z)); intros u v (k' & Hin & Hg' & Hu).
      * exists k'. split; [|done]. apply elem_of_app. by left.
      * apply elem_of_app in Hin as [Hin|Hin]; [by exists k'|].
        apply list_elem_of_singleton in Hin as ->. congruence.
Qed.

(** *** The grouping loop *)

Lemma jsobject_get_elem {V : Type} (o : list (string * V)) (k : string) (v : V) :
  JsObject.get o k = Some v → (k, v) ∈ o.
Proof.
  induction o as [|[k' v'] o IH]; simpl; [done|].
  destruct (String.eqb_spec k' k) as [->|Hne].
  - intros [= ->]. by left.
  - intros H. right. by apply IH.
Qed.

Lemma jsobject_get_none {V : Type} (o : list (string * V)) (k : string) :
  JsObject.get o k = None ↔ k ∉ o.*1.
Proof.
  induction o as [|[k' v'] o IH]; simpl.
  - split; [intros _; apply not_elem_of_nil|done].
  - rewrite not_elem_of_cons. simpl.
    destruct (String.eqb_spec k' k) as [->|Hne]; [split; [done|tauto]|].
    rewrite IH. split; [|tauto]. intros ?; split; [congruence|done].
Qed.

Lemma jsobject_set_keys {V : Type} (o : list (string * V)) (k : string) (v : V) :
  (JsObject.set o k v).*1 = if decide (k ∈ o.*1) then o.*1 else o.*1 ++ [k].
Proof.
  induction o as [|[k' v'] o IH].
  - destruct (decide _) as [Hin|Hnin]; [by apply not_elem_of_nil in Hin|done].
  - cbn [JsObject.set]. rewrite fmap_cons. cbn [fst].
    destruct (String.eqb_spec k' k) as [->|Hne].
    + rewrite fmap_cons. cbn [fst].
      destruct (decide (k ∈ k :: o.*1)) as [Hin|Hnin]; [done|].
      destruct Hnin. by left.
    + rewrite fmap_cons, IH. cbn [fst].
      destruct (decide (k ∈ o.*1)) as [Hin|Hnin];
        destruct (decide (k ∈ k' :: o.*1)) as [Hin'|Hnin']; try done.
      * destruct Hnin'. by right.
      * apply elem_of_cons in Hin' as [?|?]; congruence.
Qed.

Lemma jsobject_set_elem {V : Type} (o : list (string * V)) (k : string) (v : V) e :
  e ∈ JsObject.set o k v → e ∈ o ∨ e = (k, v).
Proof.
  induction o as [|[k' v'] o IH]; simpl.
  - intros He. apply list_elem_of_singleton in He as ->. by right.
  - destruct (String.eqb_spec k' k) as [->|Hne].
    + intros [->|?]%elem_of_cons; [by right|left; by right].
    + intros [->|?]%elem_of_cons; [left; by left|].
      destruct IH as [?|?]; [done|left; by right|by right].
Qed.

Lemma jsobject_push_concat {A : Type} (o : list (string * list A)) (k : string) (x : A) :
  concat (JsObject.set o k (default [] (JsObject.get o k) ++ [x])).*2
  ≡ₚ concat o.*2 ++ [x].
Proof.
  induction o as [|[k' v'] o IH]; simpl; [done|].
  destruct (String.eqb_spec k' k) as [->|Hne]; simpl.
  - rewrite <- !app_assoc. apply Permutation_app_head, Permutation_app_comm.
  - rewrite IH. by rewrite app_assoc.
Qed.

Lemma group_step_spec rep d fuel p groups done t :
  uf_inv p rep d → d < fuel → ordinary (name t) →
  grouped rep done groups →
  ∃ p' groups',
    group_step fuel (p, groups) t = Some (p', groups')
    ∧ uf_inv p' rep d ∧ grouped rep (done ++ [t]) groups'.
Proof.
  intros Hinv Hd Hne (Hperm & Hnd & Hmem). unfold group_step. simpl.
  destruct (find_spec rep d fuel p (name t) Hinv Hne Hd) as (p' & -> & Hinv').
  exists p', (JsObject.set groups (rep (name t))
                (default [] (JsObject.get groups (rep (name t))) ++ [t])).
  split.
  { destruct (JsObject.get groups (rep (name t))); [done|].
    by rewrite (proj2 (rep_ordinary p rep d (name t) Hinv Hne)). }
  split; [done|]. split_and!.
  - by rewrite jsobject_push_concat, Hperm.
  - rewrite jsobject_set_keys. case_decide as Hin; [done|].
    apply NoDup_app. split_and!; [done| |apply NoDup_singleton].
    intros k Hk Hk'. apply list_elem_of_singleton in Hk' as ->. done.
  - intros r ms t' Hin Ht'.
    apply jsobject_set_elem in Hin as [Hold|Heq]; [by eapply Hmem|].
    injection Heq as -> ->.
    apply elem_of_app in Ht' as [Ht'|Ht']; [|by apply list_elem_of_singleton in Ht' as ->].
    destruct (JsObject.get groups (rep (name t))) as [ms|] eqn:Hget; simpl in Ht'.
    + apply jsobject_get_elem in Hget. by eapply Hmem.
    + by apply not_elem_of_nil in Ht'.
Qed.

Lemma group_all_spec rep d fuel p ts :
  uf_inv p rep d → d < fuel → (∀ n, n ∈ name <$> ts → ordinary n) →
  ∃ groups, group_all fuel p ts = Some groups ∧ grouped rep ts groups.
Proof.
  intros Hinv Hd Hne. unfold group_all.
  assert (∀ rest done p groups,
    ts = done ++ rest → uf_inv p rep d → grouped rep done groups →
    ∃ st, for_each (group_step fuel) (p, groups) rest = Some st
          ∧ grouped rep ts st.2) as Hloop.
  { induction rest as [|t rest IH]; intros done p0 groups Hts Hinv0 Hg.
    - rewrite app_nil_r in Hts. subst done. by exists (p0, groups).
    - cbn [for_each].
      destruct (group_step_spec rep d fuel p0 groups done t Hinv0 Hd)
        as (p' & groups' & -> & Hinv' & Hg'); [|done|].
      { apply Hne. rewrite Hts. set_solver. }
      apply (IH (done ++ [t])); [by rewrite <- app_assoc|done..]. }
  destruct (Hloop ts [] p []) as (st & -> & Hg); [done|done| |by exists st.2].
  split_and!; [done|apply NoDup_nil_2|]. intros r ms t Hin. by apply not_elem_of_nil in Hin.
Qed.


Lemma grouped_perm rep ts groups es :
  grouped rep ts groups → es ≡ₚ groups → grouped rep ts es.
Proof.
  intros (Hperm & Hnd & Hmem) Hes. split_and!.
  - rewrite <- Hperm. apply concat_perm. by rewrite Hes.
  - by rewrite Hes.
  - intros r ms t Hin. rewrite Hes in Hin. by eapply Hmem.
Qed.

(** Reordering the members of each group keeps the grouping. *)
Lemma grouped_fmap rep ts (es : list (string * list TableInfo))
    (h : string * list TableInfo → string * list TableInfo) :
  (∀ e, (h e).1 = e.1 ∧ (h e).2 ≡ₚ e.2) →
  grouped rep ts es → grouped rep ts (h <$> es).
Proof.
  intros Hh (Hperm & Hnd & Hmem). split_and!.
  - rewrite <- Hperm. clear Hperm Hnd Hmem.
    induction es as [|e es IH]; csimpl; [done|].
    by rewrite (proj2 (Hh e)), IH.
  - replace ((h <$> es).*1) with (es.*1); [done|].
    rewrite <- list_fmap_compose. apply list_fmap_ext. intros _ e _.
    simpl. by rewrite (proj1 (Hh e)).
  - intros r ms t Hin Ht. apply list_elem_of_fmap in Hin as (e & Heq & He).
    destruct (Hh e) as [H1 H2]. rewrite <- Heq in H1, H2. simpl in *.
    destruct e as [r' ms']. simpl in *. subst r'.
    eapply Hmem; [done|]. by rewrite <- H2.
Qed.

(** What a grouping says about the clusters [xs] read from it. *)
Lemma cluster_props {X : Type} (idf : X → string) (tabs : X → list TableInfo)
    (xs : list X) rep ts (C : relation string) :
  grouped rep ts ((λ x, (idf x, tabs x)) <$> xs) →
  (∀ x y, rep x = rep y ↔ C x y) →
  concat (tabs <$> xs) ≡ₚ ts
  ∧ NoDup (idf <$> xs)
  ∧ (∀ t1 t2, t1 ∈ ts → t2 ∈ ts →
       (∃ x, x ∈ xs ∧ t1 ∈ tabs x ∧ t2 ∈ tabs x) ↔ C (name t1) (name t2))
  ∧ (∀ x x' t, x ∈ xs → x' ∈ xs → t ∈ tabs x → t ∈ tabs x' → x = x').
Proof.
  intros (Hperm & Hnd & Hmem) HC.
  rewrite <- !list_fmap_compose in Hperm, Hnd.
  change (snd ∘ _) with tabs in Hperm. change (fst ∘ _) with idf in Hnd.
  assert (∀ x t, x ∈ xs → t ∈ tabs x → rep (name t) = idf x) as Hid.
  { intros x t Hx Ht. eapply Hmem; [|exact Ht].
    apply list_elem_of_fmap. by exists x. }
  assert (∀ t, t ∈ ts → ∃ x, x ∈ xs ∧ t ∈ tabs x) as Hcover.
  { intros t Ht. rewrite <- Hperm in Ht.
    apply list_elem_of_In, in_concat in Ht as (ms & Hms & Ht).
    apply list_elem_of_In, list_elem_of_fmap in Hms as (x & -> & Hx).
    exists x. split; [done|]. by apply list_elem_of_In. }
  split_and!; [done|done| |].
  - intros t1 t2 Ht1 Ht2. rewrite <- HC. split.
    + intros (x & Hx & H1 & H2). by rewrite (Hid x t1), (Hid x t2).
    + intros Heq. destruct (Hcover t1 Ht1) as (x1 & Hx1 & H1).
      destruct (Hcover t2 Ht2) as (x2 & Hx2 & H2).
      assert (x1 = x2) as ->.
      { apply (fmap_unique idf xs); [done..|].
        by rewrite <- (Hid x1 t1), <- (Hid x2 t2). }
      eauto.
  - intros x x' t Hx Hx' Ht Ht'. apply (fmap_unique idf xs); [done..|].
    by rewrite <- (Hid x t), <- (Hid x' t).
Qed.
End UnionFindFacts.

Lemma swimlane_has_table (ts : list TableInfo) (n : string) :
  Swimlane.has_table ts n = true ↔ n ∈ name <$> ts.
Proof.
  unfold Swimlane.has_table. rewrite existsb_exists, list_elem_of_fmap.
  split; intros (t & H1 & H2); exists t.
  - apply String.eqb_eq in H2. by rewrite list_elem_of_In.
  - split; [by apply list_elem_of_In|]. by apply String.eqb_eq.
Qed.

Lemma ordinary_tables (ts : list TableInfo) (fks : list ForeignKey) :
  "" ∉ name <$> ts → plain_names ts fks →
  ∀ n, n ∈ name <$> ts → ordinary n.
Proof.
  intros Hne Hpl n Hn. split; [by intros ->|].
  apply list_elem_of_fmap in Hn as (t & -> & Ht). by eapply plain_table.
Qed.

Lemma swimlane_groups (ts : list TableInfo) (fks : list ForeignKey) :
  "" ∉ name <$> ts → plain_names ts fks →
  ∃ groups rep,
    Swimlane.groups_within (S (length fks)) ts fks = Some groups
    ∧ grouped rep ts groups
    ∧ ∀ x y, rep x = rep y ↔ fk_connected (name <$> ts) fks x y.
Proof.
  intros Hne Hpl. pose proof (ordinary_tables ts fks Hne Hpl) as Hord.
  unfold Swimlane.groups_within.
  set (g := λ k, Swimlane.has_table ts (sourceTable k)
                 && Swimlane.has_table ts (targetTable k)).
  change (Swimlane.union_step (S (length fks)) ts)
    with (guarded_union g (S (length fks))).
  destruct (unions_spec g (S (length fks)) fks) with
    (rest := fks) (done := @nil ForeignKey) (p := UnionFind.init ts)
    (rep := λ x : string, x) (d := 0) as (p & rep & d & -> & Hinv & Hd & Hrep).
  { intros k _ [Hs Ht]%andb_prop.
    apply swimlane_has_table in Hs, Ht. split; by apply Hord. }
  { lia. }
  { done. }
  { by apply init_inv. }
  { done. }
  { intros x y. split; [by intros ->|apply no_edges]. }
  destruct (group_all_spec rep d (S (length fks)) p ts Hinv) as (groups & -> & Hg);
    [lia|done|].
  exists groups, rep. split; [done|]. split; [done|].
  intros x y. rewrite Hrep. unfold fk_connected.
  split; apply (rtsc_congruence (λ z, z)).
  - intros u v (k & Hk & [Hs Ht]%andb_prop & <- & <-).
    apply swimlane_has_table in Hs, Ht. by exists k.
  - intros u v (k & Hk & <- & <- & Hs & Ht). exists k. split_and!; [done| |done..].
    unfold g. by rewrite !(proj2 (swimlane_has_table _ _)).
Qed.

Lemma lanes_read (localeCompare : string → string → Z)
    (es : list (string * list TableInfo)) :
  (λ l, (Swimlane.lane_id l, Swimlane.lane_tables l))
    <$> imap (Swimlane.make_lane localeCompare) es
  = (λ e, (e.1, array_sort (λ a b, localeCompare (name a) (name b)) e.2)) <$> es.
Proof.
  rewrite fmap_imap.
  rewrite (imap_ext _ (const (λ e : string * list TableInfo,
             (e.1, array_sort (λ a b, localeCompare (name a) (name b)) e.2))))
    by done.
  apply imap_const.
Qed.

Lemma lanes_grouped (localeCompare : string → string → Z)
    (ts : list TableInfo) (fks : list ForeignKey) :
  "" ∉ name <$> ts → plain_names ts fks →
  ∃ lanes rep,
    Swimlane.lanes_within localeCompare (S (length fks)) ts fks = Some lanes
    ∧ grouped rep ts ((λ l, (Swimlane.lane_id l, Swimlane.lane_tables l)) <$> lanes)
    ∧ ∀ x y, rep x = rep y ↔ fk_connected (name <$> ts) fks x y.
Proof.
  intros Hne Hpl. unfold Swimlane.lanes_within.
  destruct (swimlane_groups ts fks Hne Hpl) as (groups & rep & -> & Hg & Hrep).
  eexists _, rep. split; [done|]. split; [|done].
  rewrite lanes_read. apply grouped_fmap.
  - intros e. split; [done|]. simpl. apply array_sort_perm.
  - eapply grouped_perm; [exact Hg|]. by rewrite array_sort_perm, entries_perm.
Qed.

(** [GroupedView] unions over every foreign key; the loops end when no
    name involved is empty. *)
Lemma grouped_clusters (ts : list TableInfo) (fks : list ForeignKey) :
  "" ∉ name <$> ts → plain_names ts fks →
  (∀ k, k ∈ fks → sourceTable k ≠ "" ∧ targetTable k ≠ "") →
  ∃ clusters rep,
    Grouped.clusters_within (S (length fks)) ts fks = Some clusters
    ∧ grouped rep ts clusters
    ∧ ∀ x y, rep x = rep y ↔ rtsc (fk_rel (λ _, true) fks) x y.
Proof.
  intros Hne Hpl Hfk. pose proof (ordinary_tables ts fks Hne Hpl) as Hord.
  unfold Grouped.clusters_within.
  change (Grouped.union_step (S (length fks)))
    with (guarded_union (λ _, true) (S (length fks))).
  destruct (unions_spec (λ _, true) (S (length fks)) fks) with
    (rest := fks) (done := @nil ForeignKey) (p := UnionFind.init ts)
    (rep := λ x : string, x) (d := 0) as (p & rep & d & -> & Hinv & Hd & Hrep).
  { intros k Hk _. destruct (Hfk k Hk), (plain_ends ts fks k Hpl Hk). done. }
  { lia. }
  { done. }
  { by apply init_inv. }
  { done. }
  { intros x y. split; [by intros ->|apply no_edges]. }
  destruct (group_all_spec rep d (S (length fks)) p ts Hinv) as (groups & -> & Hg);
    [lia|done|].
  by exists groups, rep.
Qed.

Lemma clusters_read (es : list (string * list TableInfo)) :
  (λ c, (Grouped.root c, Grouped.cluster_tables c)) <$> (Grouped.make_cluster <$> es)
  = es.
Proof.
  rewrite <- list_fmap_compose.
  rewrite (list_fmap_ext _ (λ e, e) es); [apply list_fmap_id|].
  by intros _ [r ms] _.
Qed.

Lemma clusters_grouped (ts : list TableInfo) (fks : list ForeignKey) :
  "" ∉ name <$> ts → plain_names ts fks →
  (∀ k, k ∈ fks → sourceTable k ∈ name <$> ts ∧ targetTable k ∈ name <$> ts) →
  ∃ clusters rep,
    Grouped.groups_within (S (length fks)) ts fks = Some clusters
    ∧ grouped rep ts ((λ c, (Grouped.root c, Grouped.cluster_tables c)) <$> clusters)
    ∧ ∀ x y, rep x = rep y ↔ fk_connected (name <$> ts) fks x y.
Proof.
  intros Hne Hpl Hclosed. unfold Grouped.groups_within.
  destruct (grouped_clusters ts fks Hne Hpl) as (groups & rep & -> & Hg & Hrep).
  { intros k Hk. destruct (Hclosed k Hk) as [Hs Ht].
    split; intros Heq; rewrite Heq in *; done. }
  eexists _, rep. split; [done|]. split.
  - eapply grouped_perm; [exact Hg|].
    by rewrite array_sort_perm, clusters_read, entries_perm.
  - intros x y. rewrite Hrep. unfold fk_connected.
    split; apply (rtsc_congruence (λ z, z)).
    + intros u v (k & Hk & _ & <- & <-). exists k.
      destruct (Hclosed k Hk). done.
    + intros u v (k & Hk & <- & <- & Hs & Ht). by exists k.
Qed.

(** Where the clusters are the connected components.  For names that are
    neither empty nor inherited, the lanes of [SwimlaneView] are the
    connected components of the foreign keys inside the filtered table
    set: the lanes taken together are a rearrangement of the table list,
    lane ids are distinct, two tables share a lane exactly when an
    undirected path of such foreign keys joins their names, and no table
    is in two lanes.  The clusters of [GroupedView] have the same
    properties for the whole table list of a schema in which every
    foreign key has both ends among the tables. *)
Lemma clusters_are_components (localeCompare : string → string → Z)
    (ts : list TableInfo) (fks : list ForeignKey) :
  "" ∉ name <$> ts → plain_names ts fks →
  (∃ lanes,
     Swimlane.lanes_within localeCompare (S (length fks)) ts fks = Some lanes
     ∧ concat (Swimlane.lane_tables <$> lanes) ≡ₚ ts
     ∧ NoDup (Swimlane.lane_id <$> lanes)
     ∧ (∀ t1 t2, t1 ∈ ts → t2 ∈ ts →
          (∃ l, l ∈ lanes ∧ t1 ∈ Swimlane.lane_tables l ∧ t2 ∈ Swimlane.lane_tables l)
          ↔ fk_connected (name <$> ts) fks (name t1) (name t2))
     ∧ (∀ l l' t, l ∈ lanes → l' ∈ lanes →
          t ∈ Swimlane.lane_tables l → t ∈ Swimlane.lane_tables l' → l = l'))
  ∧ ((∀ k, k ∈ fks → sourceTable k ∈ name <$> ts ∧ targetTable k ∈ name <$> ts) →
     ∃ clusters,
       Grouped.groups_within (S (length fks)) ts fks = Some clusters
       ∧ concat (Grouped.cluster_tables <$> clusters) ≡ₚ ts
       ∧ NoDup (Grouped.root <$> clusters)
       ∧ (∀ t1 t2, t1 ∈ ts → t2 ∈ ts →
            (∃ c, c ∈ clusters ∧ t1 ∈ Grouped.cluster_tables c
                  ∧ t2 ∈ Grouped.cluster_tables c)
            ↔ fk_connected (name <$> ts) fks (name t1) (name t2))
       ∧ (∀ c c' t, c ∈ clusters → c' ∈ clusters →
            t ∈ Grouped.cluster_tables c → t ∈ Grouped.cluster_tables c' → c = c')).
Proof.
  intros Hne Hpl. split.
  - destruct (lanes_grouped localeCompare ts fks Hne Hpl)
      as (lanes & rep & Hrun & Hg & Hrep).
    exists lanes. split; [done|]. by eapply cluster_props.
  - intros Hclosed.
    destruct (clusters_grouped ts fks Hne Hpl Hclosed)
      as (clusters & rep & Hrun & Hg & Hrep).
    exists clusters. split; [done|]. by eapply cluster_props.
Qed.

Lemma clusters_are_components_witness :
  ("" ∉ name <$> [tbl "A"; tbl "B"; tbl "C"])
  ∧ plain_names [tbl "A"; tbl "B"; tbl "C"] [fk "B" "A"]
  ∧ ∃ lanes,
      Swimlane.lanes_within (λ _ _, 0%Z) 2 [tbl "A"; tbl "B"; tbl "C"] [fk "B" "A"]
      = Some lanes
      ∧ concat (Swimlane.lane_tables <$> lanes) ≡ₚ [tbl "A"; tbl "B"; tbl "C"]
      ∧ NoDup (Swimlane.lane_id <$> lanes).
Proof.
  assert ("" ∉ name <$> [tbl "A"; tbl "B"; tbl "C"]) as Hne.
  { apply (bool_decide_unpack _). vm_compute. exact I. }
  assert (plain_names [tbl "A"; tbl "B"; tbl "C"] [fk "B" "A"]) as Hpl.
  { split; repeat constructor. }
  split_and!; [exact Hne|exact Hpl|].
  destruct (clusters_are_components (λ _ _, 0%Z) [tbl "A"; tbl "B"; tbl "C"]
              [fk "B" "A"] Hne Hpl) as [(lanes & Hrun & Hperm & Hnd & _) _].
  exists lanes. split_and!; [exact Hrun|exact Hperm|exact Hnd].
Defined.

Lemma no_inside_key (ns : list string) (fks : list ForeignKey) (x y : string) :
  Forall (λ k, sourceTable k ∉ ns ∨ targetTable k ∉ ns) fks →
  fk_connected ns fks x y → x = y.
Proof.
  intros Hout. rewrite Forall_forall in Hout.
  induction 1 as [|u v w Huv _ IH]; [done|].
  destruct Huv as [(k & Hk & <- & <- & Hs & Ht)|(k & Hk & <- & <- & Hs & Ht)];
    destruct (Hout k Hk); done.
Qed.

(** C4.  Runs on which the claim fails.  In [GroupedView] the union runs
    on every foreign key, also on one whose target is no table, and the
    search is applied to the finished clusters.  So [invoices] and
    [orders], which both point to the missing table [_audit], share a
    cluster although no path of foreign keys between tables joins them;
    and under the search [order] the tables [order_notes] and [orders]
    are shown in one group although the only path between them runs
    through the filtered-out [customers].  [SwimlaneView], which filters
    first and guards the union, keeps each pair apart.  In both views a
    table named [constructor] that is the root of its component ends the
    grouping loop with a [TypeError], whatever the budget: there are no
    clusters at all. *)
Theorem grouped_view_joins_unconnected_tables :
  let s := {| tables := [tbl "invoices"; tbl "orders"];
              foreignKeys := [fk "invoices" "_audit"; fk "orders" "_audit"] |} in
  let s' := {| tables := [tbl "customers"; tbl "order_notes"; tbl "orders"];
               foreignKeys := [fk "order_notes" "customers";
                               fk "orders" "customers"] |} in
  (¬ fk_connected (name <$> tables s) (foreignKeys s) "invoices" "orders"
   ∧ option_map (map (λ c, name <$> Grouped.cluster_tables c)) (groupedGroups s)
     = Some [["invoices"; "orders"]]
   ∧ option_map (map (λ l, name <$> Swimlane.lane_tables l))
       (swimlaneLanes (λ n, n) (λ _ _, 0%Z) s "")
     = Some [["invoices"]; ["orders"]])
  ∧ (name <$> filteredTables (λ n, n) s' "order" = ["order_notes"; "orders"]
     ∧ ¬ fk_connected ["order_notes"; "orders"] (foreignKeys s')
           "order_notes" "orders"
     ∧ option_map (λ groups, map (λ c, name <$> Grouped.cluster_tables c)
                               (filteredGroups (λ n, n) groups "order"))
         (groupedGroups s')
       = Some [["order_notes"; "orders"]]
     ∧ option_map (map (λ l, name <$> Swimlane.lane_tables l))
         (swimlaneLanes (λ n, n) (λ _ _, 0%Z) s' "order")
       = Some [["order_notes"]; ["orders"]])
  ∧ ∀ fuel,
      Swimlane.lanes_within (λ _ _, 0%Z) fuel [tbl "constructor"] [] = None
      ∧ Grouped.groups_within fuel [tbl "constructor"] [] = None.
Proof.
  cbv zeta. split_and!.
  - intros Hc. apply no_inside_key in Hc; [done|].
    apply (bool_decide_unpack _). vm_compute. exact I.
  - vm_compute. reflexivity.
  - vm_compute. reflexivity.
  - vm_compute. reflexivity.
  - intros Hc. apply no_inside_key in Hc; [done|].
    apply (bool_decide_unpack _). vm_compute. exact I.
  - vm_compute. reflexivity.
  - vm_compute. reflexivity.
  - intros [|fuel]; split; reflexivity.
Qed.

(** The lanes of a small schema: B and A share a lane, keyed by the root A
    that the union made. *)
Example lanes_example :
  option_map (map (λ l, (Swimlane.lane_id l, name <$> Swimlane.lane_tables l)))
    (Swimlane.lanes_within (λ _ _, 0%Z) 2 [tbl "A"; tbl "B"; tbl "C"] [fk "B" "A"])
  = Some [("A", ["A"; "B"]); ("C", ["C"])].
Proof. vm_compute. reflexivity. Qed.

(** Non-empty names are needed: the empty string is falsy, so a parent
    pointer to a table named by it is taken for a missing one and reset. *)
Example empty_name_splits_cluster :
  option_map (map (λ l, (Swimlane.lane_id l, name <$> Swimlane.lane_tables l)))
    (Swimlane.lanes_within (λ _ _, 0%Z) 2 [tbl "A"; tbl ""] [fk "A" ""])
  = Some [("A", ["A"]); ("", [""])].
Proof. vm_compute. reflexivity. Qed.

(** ** Order of the cluster list *)








(** [GroupedView] sorts the clusters before the search removes tables, and
    does not sort again: under the search [order] a cluster of three
    tables is shown with its one match, ahead of a cluster shown with
    two. *)
Example search_keeps_cluster_order :
  let s := {| tables := [tbl "orders"; tbl "customers"; tbl "addresses";
                         tbl "order_tags"; tbl "order_labels"];
              foreignKeys := [fk "orders" "customers"; fk "addresses" "customers";
                              fk "order_labels" "order_tags"] |} in
  option_map (λ groups, map (λ c, name <$> Grouped.cluster_tables c)
                            (filteredGroups (λ n, n) groups "order"))
    (groupedGroups s)
  = Some [["orders"]; ["order_tags"; "order_labels"]].
Proof. vm_compute. reflexivity. Qed.

(** ** Layered layout *)

(** C10.  [getLayoutedElements] returns one node per input node, in the
    input order; each returned node has the id, the data and every other
    property of the node it comes from, so only [position] can differ; the
    returned edges are the input edges.  The layout library is arbitrary. *)
Theorem layout_keeps_nodes_and_edges {D R E : Type}
    (dagre_node : @Layout.Graph → string → Layout.Label)
    (nodes : list (Layout.Node D R)) (edges : list (Layout.Edge E))
    (direction : Layout.Direction) (nodeWidth nodeHeight : float) :
  let r := Layout.getLayoutedElements dagre_node nodes edges direction
             nodeWidth nodeHeight in
  r.2 = edges
  ∧ length r.1 = length nodes
  ∧ Layout.id <$> r.1 = Layout.id <$> nodes
  ∧ ∀ i n, nodes !! i = Some n →
      ∃ n', r.1 !! i = Some n'
            ∧ Layout.id n' = Layout.id n
            ∧ Layout.data n' = Layout.data n
            ∧ Layout.node_rest n' = Layout.node_rest n.
Proof.
  simpl. split_and!.
  - done.
  - apply length_map.
  - change (map ?f ?l) with (f <$> l). rewrite <- list_fmap_compose.
    by apply list_fmap_ext.
  - intros i n Hi. exists (Layout.relocate dagre_node
      (Layout.build_graph nodes edges direction nodeWidth nodeHeight)
      nodeWidth nodeHeight n).
    split; [|done].
    change (map ?f ?l) with (f <$> l). by rewrite list_lookup_fmap, Hi.
Qed.

(** ** Force-Directed Layout Engine *)

(** *** Initial placement *)

(** The parts of the placement that hold: the first node is a table of
    highest degree and sits at the origin. *)
Lemma first_node_at_origin (Math_cos Math_sin : float → float)
    (ts : list TableInfo) (fks : list ForeignKey) :
  ts ≠ [] →
  ∃ n rest,
    NodeLink.initial_nodes Math_cos Math_sin ts fks = n :: rest
    ∧ NodeLink.x n = 0%float ∧ NodeLink.y n = 0%float
    ∧ NodeLink.table n ∈ ts
    ∧ ∀ t, t ∈ ts →
        NodeLink.degree (NodeLink.build_connCount ts fks) t ≤ NodeLink.connections n.
Proof.
  intros Hts. unfold NodeLink.initial_nodes.
  set (c := NodeLink.build_connCount ts fks).
  pose proof (array_sort_sorted (NodeLink.degree c) ts) as Hsorted.
  pose proof (array_sort_perm
    (λ a b, (Z.of_nat (NodeLink.degree c b) - Z.of_nat (NodeLink.degree c a))%Z) ts)
    as Hperm.
  fold (NodeLink.sorted c ts) in Hsorted, Hperm.
  destruct (NodeLink.sorted c ts) as [|t0 l] eqn:Hs.
  { apply Permutation_nil in Hperm. done. }
  rewrite imap_cons. eexists _, _. split; [done|]. simpl.
  split_and!; [done|done| |].
  - rewrite <- Hperm. by left.
  - intros t Ht. rewrite <- Hperm in Ht.
    apply StronglySorted_inv in Hsorted as [_ Hall].
    apply elem_of_cons in Ht as [->|Ht]; [done|].
    rewrite Forall_forall in Hall. by apply Hall.
Qed.

(** Six tables share a ring, the radius grows with the ring, and the
    modulus in [posInRing] never takes effect: the position is the index
    among all placed tables, not the index within the ring. *)
Lemma rings_of_six (i : nat) :
  1 ≤ i →
  6 * (NodeLink.ring i - 1) < i ∧ i ≤ 6 * NodeLink.ring i
  ∧ NodeLink.radius i = 280 * NodeLink.ring i
  ∧ NodeLink.posInRing i = i - 1.
Proof.
  intros Hi. unfold NodeLink.radius, NodeLink.posInRing, NodeLink.ring.
  pose proof (Nat.div_mod_eq (i + 5) 6) as Hdiv.
  pose proof (Nat.mod_upper_bound (i + 5) 6) as Hmod.
  split_and!; try lia. apply Nat.mod_small. lia.
Qed.

(** C6. A placement on which the claim fails: the seventh table after the
    first (index 7) opens the second ring; its slot is 6 of 12, so its
    angle is +90 degrees, not -90 degrees, and the six tables of the second
    ring take the slots 6 to 11, half of the ring, 30 degrees apart.  Only
    the first ring starts at -90 degrees and goes round in steps of 60. *)
Theorem second_ring_starts_at_bottom :
  NodeLink.ring 7 = 2
  ∧ NodeLink.posInRing <$> [7; 8; 9; 10; 11; 12] = [6; 7; 8; 9; 10; 11]
  ∧ NodeLink.angle 7 = (NodeLink.Math_PI / 2)%float
  ∧ NodeLink.angle 1 = (- (NodeLink.Math_PI / 2))%float
  ∧ NodeLink.angle 7 ≠ NodeLink.angle 1
  ∧ NodeLink.ring 1 = 1
  ∧ NodeLink.posInRing <$> [1; 2; 3; 4; 5; 6] = [0; 1; 2; 3; 4; 5].
Proof.
  split_and!; try (vm_compute; reflexivity).
  intros Heq. apply (f_equal (λ a, PrimFloat.eqb a (NodeLink.angle 1))) in Heq.
  vm_compute in Heq. discriminate.
Qed.

(** *** The simulation *)

Section SimulationFacts.
Import NodeLink.
Variable links : list GraphLink.
Variable ns0 : list GraphNode.
Variable previous : list (string * (float * float)).

Lemma simulate_frame (i : nat) :
  i < maxIterations → simulate links (after_frames links ns0 previous i) = after_frames links ns0 previous (S i).
Proof.
  intros Hi. unfold simulate, after_frames. cbn [iteration store settled positions].
  rewrite (bool_decide_eq_false_2 (maxIterations ≤ i)) by lia. f_equal.
  destruct (decide (S i < maxIterations)).
  - rewrite bool_decide_eq_true_2 by done. by rewrite bool_decide_eq_false_2 by lia.
  - rewrite bool_decide_eq_false_2 by done. by rewrite bool_decide_eq_true_2 by lia.
Qed.

Lemma run_frames (k : nat) : ∀ i,
  i ≤ maxIterations →
  run links k (after_frames links ns0 previous i) = after_frames links ns0 previous (Nat.min (i + k) maxIterations).
Proof.
  induction k as [|k IH]; intros i Hi.
  - simpl. rewrite Nat.add_0_r. by rewrite Nat.min_l.
  - cbn [run]. destruct (decide (i < maxIterations)) as [Hlt|Hge].
    + cbn [scheduled after_frames]. rewrite bool_decide_eq_true_2 by done.
      rewrite simulate_frame, IH by lia. f_equal. lia.
    + cbn [scheduled after_frames]. rewrite bool_decide_eq_false_2 by done.
      f_equal. lia.
Qed.
End SimulationFacts.

(** C5.  From the same nodes and links the simulation ends in the same
    state whatever the [positions] state held before and however many
    frames pass beyond the budget: the callback runs the physics step
    exactly [maxIterations] = 150 times, each time on the store the step
    before left, then stops requesting frames and reports [settled]; the
    published positions are those of the 150th step. *)
Theorem simulation_deterministic (nodes : list NodeLink.GraphNode)
    (links : list NodeLink.GraphLink)
    (previous1 previous2 : list (string * (float * float))) (frames1 frames2 : nat) :
  NodeLink.maxIterations ≤ frames1 →
  NodeLink.maxIterations ≤ frames2 →
  let s1 := NodeLink.run links frames1 (NodeLink.start nodes previous1) in
  let s2 := NodeLink.run links frames2 (NodeLink.start nodes previous2) in
  NodeLink.positions s1 = NodeLink.positions s2
  ∧ s1 = s2
  ∧ NodeLink.iteration s1 = NodeLink.maxIterations
  ∧ NodeLink.settled s1 = true
  ∧ NodeLink.scheduled s1 = false
  ∧ NodeLink.store s1
    = Nat.iter NodeLink.maxIterations (NodeLink.physics links)
        (NodeLink.store (NodeLink.start nodes previous1))
  ∧ NodeLink.positions s1 = NodeLink.publish (NodeLink.store s1).
Proof.
  intros H1 H2 s1 s2.
  set (ns0 := NodeLink.store (NodeLink.start nodes previous1)).
  assert (∀ prev k, NodeLink.maxIterations ≤ k →
    NodeLink.run links k (NodeLink.start nodes prev)
    = after_frames links ns0 prev NodeLink.maxIterations) as Hrun.
  { intros prev k Hk.
    change (NodeLink.start nodes prev) with (after_frames links ns0 prev 0).
    rewrite run_frames by lia. f_equal. lia. }
  unfold s1, s2. rewrite !Hrun by done. done.
Qed.

(** ** Level order on acyclic, closed dependency graphs *)

Lemma dependency_sets_snoc ts fks k :
  dependency_sets ts (fks ++ [k]) = Levels.deps_add_own (dependency_sets ts fks) k.
Proof. unfold dependency_sets. by rewrite foldl_snoc. Qed.

Lemma depends_on_snoc fks k x y :
  depends_on (fks ++ [k]) x y
  ↔ depends_on fks x y ∨ (sourceTable k = x ∧ targetTable k = y).
Proof.
  unfold depends_on. split.
  - intros (k' & [Hin|Hin]%elem_of_app & Hx & Hy); [left; eauto|].
    apply list_elem_of_singleton in Hin as ->. by right.
  - intros [(k' & Hin & ?)|[Hx Hy]].
    + exists k'. split; [|done]. apply elem_of_app. by left.
    + exists k. split; [|done]. apply elem_of_app. right. by left.
Qed.

(** The dependency set of a table holds the targets of its foreign keys,
    inside the table list or not. *)
Lemma dependency_sets_spec (ts : list TableInfo) (fks : list ForeignKey) (n : string) :
  (is_Some (dependency_sets ts fks !! n) ↔ n ∈ name <$> ts)
  ∧ ∀ d, d ∈ default ∅ (dependency_sets ts fks !! n)
         ↔ n ∈ name <$> ts ∧ depends_on fks n d.
Proof.
  induction fks as [|k fks IH] using rev_ind.
  - unfold dependency_sets, Levels.deps_init. simpl.
    rewrite (lookup_foldl_insert name (λ _, ∅) ts ∅ n), lookup_empty.
    case_decide as Hn; simpl.
    + split; [split; [done|eauto]|]. intros d. split; [set_solver|].
      intros [_ (k & Hk & _)]. by apply not_elem_of_nil in Hk.
    + split; [split; [by intros [? ?]|done]|]. intros d. set_solver.
  - rewrite dependency_sets_snoc. unfold Levels.deps_add_own.
    set (D := dependency_sets ts fks) in *. destruct IH as [IH1 IH2].
    destruct (D !! sourceTable k) as [s|] eqn:Hs.
    + destruct (decide (sourceTable k = n)) as [Heq|Hne].
      * rewrite Heq in *. rewrite lookup_insert_eq. simpl.
        assert (n ∈ name <$> ts) as Hn by (apply IH1; eauto).
        split; [split; [done|eauto]|]. intros d.
        rewrite elem_of_union, elem_of_singleton, depends_on_snoc.
        specialize (IH2 d). rewrite Hs in IH2. simpl in IH2. rewrite IH2.
        split; [intros [[? ?]| ->]; split; auto|intros [? [?|[_ <-]]]; auto].
      * rewrite lookup_insert_ne by done. split; [done|]. intros d.
        rewrite IH2, depends_on_snoc. split; [intros [? ?]; auto|].
        intros [? [?|[? _]]]; [done|congruence].
    + split; [done|]. intros d. rewrite IH2, depends_on_snoc.
      split; [intros [? ?]; auto|]. intros [Hn [?|[Heq _]]]; [done|].
      rewrite Heq in Hs. apply IH1 in Hn. rewrite Hs in Hn. by destruct Hn.
Qed.

Lemma level_of_lookup (nls : list (list string)) : ∀ i l n,
  NoDup (concat nls) → nls !! i = Some l → n ∈ l →
  Levels.level_of nls n = Some i.
Proof.
  induction nls as [|l0 nls IH]; intros i l n Hnd Hi Hn; [done|].
  simpl in Hnd. apply NoDup_app in Hnd as (_ & Hdisj & Hnd).
  destruct i as [|i]; simpl in *.
  - injection Hi as ->. by rewrite decide_True.
  - rewrite decide_False.
    + by rewrite (IH i l n).
    + intros Hn0. apply (Hdisj n Hn0). apply list_elem_of_In, in_concat.
      exists l. split; apply list_elem_of_In; [|done]. by eapply list_elem_of_lookup_2.
Qed.

Section DependencyOrder.
Import Levels.
Variable ts : list TableInfo.
Variable fks : list ForeignKey.
Let deps := dependency_sets ts fks.

Hypothesis names_unique : NoDup (name <$> ts).
Hypothesis closed :
  ∀ k, k ∈ fks → sourceTable k ∈ name <$> ts → targetTable k ∈ name <$> ts.
Hypothesis acyclic : Irreflexive (tc (depends_on fks)).

Lemma unmet_nil (placed : gset string) (n : string) :
  n ∈ name <$> ts →
  unmet deps placed n = [] ↔ ∀ d, depends_on fks n d → d ∈ placed.
Proof.
  intros Hn. unfold unmet. split.
  - intros Hnil d Hd. destruct (decide (d ∈ placed)) as [|Hout]; [done|].
    assert (d ∈ filter (λ d, d ∉ placed) (elements (default ∅ (deps !! n)))) as Hin.
    { apply list_elem_of_filter. split; [done|]. apply elem_of_elements.
      by apply dependency_sets_spec. }
    rewrite Hnil in Hin. by apply not_elem_of_nil in Hin.
  - intros Hall.
    destruct (filter _ _) as [|d l] eqn:Hf; [done|].
    assert (d ∈ d :: l) as Hd by by left. rewrite <- Hf in Hd.
    apply list_elem_of_filter in Hd as [Hout Hd].
    apply elem_of_elements, dependency_sets_spec in Hd as [_ Hd].
    by apply Hall in Hd.
Qed.

(** While a table is unplaced, some unplaced table has all its
    dependencies placed: the fallback is never taken. *)
Lemma exists_placeable (placed : gset string) :
  unplaced placed ts ≠ [] → placeable deps placed ts ≠ [].
Proof.
  intros Hne. destruct (unplaced placed ts) as [|t0 l] eqn:Hu; [done|]. clear Hne.
  assert (t0 ∈ ts ∧ name t0 ∉ placed) as [Ht0 Hout0].
  { assert (t0 ∈ unplaced placed ts) as Hin by (rewrite Hu; by left).
    apply list_elem_of_filter in Hin. tauto. }
  set (U := λ x : string, x ∈ name <$> ts ∧ x ∉ placed).
  set (R := λ x y : string, depends_on fks x y ∧ U x ∧ U y).
  assert (sn R (name t0)) as Hsn.
  { apply tc_finite_sn.
    - intros x Hx. apply (acyclic x).
      eapply (tc_congruence (λ z, z)); [|exact Hx]. by intros ? ? [? _].
    - exists (name <$> ts). intros y Hy.
      assert (U y) as [Hy' _]; [|done].
      remember (name t0) as x0 eqn:Hx0. clear Hx0 Hout0.
      induction Hy as [x y Hxy|x z y _ _ IH]; [|exact IH].
      by destruct Hxy as (_ & _ & ?). }
  assert (∀ x, sn R x → U x → ∃ y, U y ∧ unmet deps placed y = []) as Hmin.
  { induction 1 as [x _ IH]. intros Ux.
    destruct (unmet deps placed x) as [|d l'] eqn:Hun; [by exists x|].
    assert (d ∈ unmet deps placed x) as Hd by (rewrite Hun; by left).
    apply list_elem_of_filter in Hd as [Hout Hd].
    apply elem_of_elements, dependency_sets_spec in Hd as [Hx Hd].
    assert (U d) as Ud.
    { split; [|done]. destruct Hd as (k & Hk & <- & <-). by apply closed. }
    apply (IH d); [|done]. by split. }
  destruct (Hmin (name t0) Hsn) as (y & [Hy Hout] & Hun).
  { split; [by apply list_elem_of_fmap_2|done]. }
  apply list_elem_of_fmap in Hy as (t & -> & Ht).
  assert (t ∈ placeable deps placed ts) as Hin.
  { apply list_elem_of_filter. done. }
  intros Hnil. rewrite Hnil in Hin. by apply not_elem_of_nil in Hin.
Qed.

Lemma loop_ordered (fuel : nat) : ∀ levels placed res,
  loop_inv ts levels placed → ordered fks levels →
  levels_loop fuel deps ts levels placed = Some res → ordered fks res.
Proof.
  induction fuel as [|fuel IH]; intros levels placed res Hinv Hord; cbn [levels_loop].
  - case_decide; [done|]. by intros [= <-].
  - case_decide as Hguard; [|by intros [= <-]].
    apply (guard_unplaced ts names_unique) in Hguard; [|apply Hinv].
    destruct (loop_inv_step deps ts names_unique _ _ Hinv Hguard) as [Hinv' _].
    apply IH; [done|]. clear IH Hinv'.
    pose proof (exists_placeable placed Hguard) as Hpl.
    unfold next_level. destruct (placeable deps placed ts) as [|t1 l1] eqn:Hp; [done|].
    rewrite <- Hp. clear Hpl.
    intros i l t d Hi Ht Hd.
    destruct (decide (i < length levels)) as [Hlt|Hge].
    + rewrite lookup_app_l in Hi by done.
      destruct (Hord i l t d Hi Ht Hd) as (j & l' & t' & Hj & Hl' & Hin).
      exists j, l', t'. split; [done|]. split; [|done].
      rewrite lookup_app_l; [done|lia].
    + assert (i = length levels ∧ l = placeable deps placed ts) as [-> ->].
      { rewrite lookup_app_r in Hi by lia.
        destruct (i - length levels) as [|m] eqn:Hm; simpl in Hi; [|done].
        split; [lia|congruence]. }
      apply list_elem_of_filter in Ht as [[Hout Hun] Ht].
      rewrite unmet_nil in Hun by by apply list_elem_of_fmap_2.
      pose proof (Hun d Hd) as Hplaced.
      destruct Hinv as [Hsub Hperm].
      pose proof (Hsub d Hplaced) as Hdn.
      rewrite elem_of_list_to_set in Hdn.
      apply list_elem_of_fmap in Hdn as (t' & -> & Ht').
      assert (t' ∈ concat levels) as Hin.
      { rewrite Hperm. by apply list_elem_of_filter. }
      apply list_elem_of_In, in_concat in Hin as (l' & Hl' & Hin).
      apply list_elem_of_In, list_elem_of_lookup in Hl' as [j Hj].
      exists j, l', t'. split_and!; [by eapply lookup_lt_Some| |by apply list_elem_of_In|done].
      rewrite lookup_app_l; [done|by eapply lookup_lt_Some].
Qed.
End DependencyOrder.

(** Where the claim C2 does hold: when the names are unique, every foreign
    key of a filtered table points into the filtered set and no chain of
    foreign keys returns to its start, each filtered table is on a strictly
    higher level than every table it depends on. *)
Lemma levels_respect_dependencies (ts : list TableInfo) (fks : list ForeignKey) :
  NoDup (name <$> ts) →
  plain_names ts fks →
  (∀ k, k ∈ fks → sourceTable k ∈ name <$> ts → targetTable k ∈ name <$> ts) →
  Irreflexive (tc (depends_on fks)) →
  ∃ levels,
    Levels.level_names (length ts) ts fks = Some levels
    ∧ ∀ k, k ∈ fks → sourceTable k ∈ name <$> ts →
        ∃ i j, Levels.level_of levels (sourceTable k) = Some i
               ∧ Levels.level_of levels (targetTable k) = Some j
               ∧ j < i.
Proof.
  intros Hnd Hplain Hclosed Hacyc.
  destruct (levels_loop_total (dependency_sets ts fks) ts Hnd (length ts) [] ∅)
    as (levels & Hrun & _ & Hperm).
  { apply loop_inv_start. }
  { by rewrite unplaced_start. }
  assert (ordered fks levels) as Hord.
  { eapply (loop_ordered ts fks Hnd Hclosed Hacyc); [apply loop_inv_start| |exact Hrun].
    intros i l t d Hi. done. }
  unfold Levels.level_names. rewrite (levels_within_plain _ _ _ Hplain), Hrun.
  eexists. split; [done|].
  assert (NoDup (concat (map (map name) levels))) as Hnames.
  { rewrite <- concat_map. change (map name ?l) with (name <$> l). by rewrite Hperm. }
  assert (∀ i l t, levels !! i = Some l → t ∈ l →
    Levels.level_of (map (map name) levels) (name t) = Some i) as Hlevel.
  { intros i l t Hi Ht. apply (level_of_lookup _ i (name <$> l)); [done| |].
    - change (map ?f ?l) with (f <$> l). by rewrite list_lookup_fmap, Hi.
    - by apply list_elem_of_fmap_2. }
  intros k Hk Hsrc.
  apply list_elem_of_fmap in Hsrc as (t & Hname & Ht).
  assert (t ∈ concat levels) as Hin by by rewrite Hperm.
  apply list_elem_of_In, in_concat in Hin as (l & Hl & Hin).
  apply list_elem_of_In, list_elem_of_lookup in Hl as [i Hi].
  apply list_elem_of_In in Hin.
  destruct (Hord i l t (targetTable k) Hi Hin) as (j & l' & t' & Hj & Hl' & Hin' & Hn').
  { exists k. done. }
  exists i, j. rewrite Hname, <- Hn'.
  by rewrite (Hlevel i l t), (Hlevel j l' t').
Qed.

Lemma simulation_deterministic_witness :
  NodeLink.maxIterations ≤ 150
  ∧ NodeLink.maxIterations ≤ 200
  ∧ NodeLink.positions
      (NodeLink.run chain_links 150 (NodeLink.start chain_nodes []))
    = NodeLink.positions
        (NodeLink.run chain_links 200
           (NodeLink.start chain_nodes [("B", (1%float, 1%float))])).
Proof.
  assert (NodeLink.maxIterations ≤ 150) as H1.
  { apply (bool_decide_unpack _). vm_compute. exact I. }
  assert (NodeLink.maxIterations ≤ 200) as H2.
  { apply (bool_decide_unpack _). vm_compute. exact I. }
  split; [exact H1|]. split; [exact H2|].
  exact (proj1 (simulation_deterministic chain_nodes chain_links []
                  [("B", (1%float, 1%float))] 150 200 H1 H2)).
Defined.

(** After one frame the store has moved and another frame is requested;
    after the budget the simulation is settled. *)
Example simulation_example :
  let s1 := NodeLink.run chain_links 1 (NodeLink.start chain_nodes []) in
  let s := NodeLink.run chain_links 150 (NodeLink.start chain_nodes []) in
  NodeLink.iteration s1 = 1 ∧ NodeLink.scheduled s1 = true
  ∧ NodeLink.settled s1 = false
  ∧ NodeLink.iteration s = 150 ∧ NodeLink.scheduled s = false
  ∧ NodeLink.settled s = true
  ∧ NodeLink.id <$> NodeLink.store s = ["B"; "A"; "C"].
Proof. vm_compute. done. Qed.

(** ** The level loop on duplicate names *)

Lemma size_list_to_set_le (l : list string) :
  size (list_to_set l : gset string) ≤ length l.
Proof.
  induction l as [|a l IH]; [by rewrite list_to_set_nil, size_empty|].
  rewrite list_to_set_cons, length_cons. rewrite size_union_alt.
  rewrite size_singleton.
  assert (size (list_to_set l ∖ {[a]} : gset string) ≤ size (list_to_set l : gset string)).
  { apply subseteq_size. set_solver. }
  lia.
Qed.

Lemma size_list_to_set_dup (l : list string) :
  ¬ NoDup l → size (list_to_set l : gset string) < length l.
Proof.
  induction l as [|a l IH]; intros Hdup.
  - destruct Hdup. constructor.
  - destruct (decide (a ∈ l)) as [Hin|Hout].
    + rewrite list_to_set_cons, length_cons.
      replace ({[a]} ∪ list_to_set l) with (list_to_set l : gset string).
      * pose proof (size_list_to_set_le l). lia.
      * apply set_eq. intros z. rewrite elem_of_union, elem_of_singleton, elem_of_list_to_set.
        split; [auto|]. by intros [->|?].
    + assert (¬ NoDup l) as Hl.
      { intros Hnd. apply Hdup. by constructor. }
      rewrite list_to_set_cons, length_cons.
      rewrite size_union by set_solver. rewrite size_singleton.
      specialize (IH Hl). lia.
Qed.

Lemma next_level_names deps placed ts :
  list_to_set (name <$> Levels.next_level deps placed ts) ⊆@{gset string}
  list_to_set (name <$> ts).
Proof.
  intros n. rewrite !elem_of_list_to_set, !list_elem_of_fmap.
  intros (t & -> & Ht). exists t. split; [done|].
  unfold Levels.next_level in Ht.
  destruct (Levels.placeable deps placed ts) eqn:Hp.
  - by apply list_elem_of_filter in Ht as [_ ?].
  - rewrite <- Hp in Ht. by apply list_elem_of_filter in Ht as [_ ?].
Qed.

(** X1. When two tables share a name, the level loop of ProcessFlowView and
    of TimelineView never ends: however many rounds are allowed, no level
    list is returned.  The set of placed names holds each name once, so
    its size never reaches the number of tables. *)
Theorem duplicate_names_never_terminate (ts : list TableInfo)
    (fks : list ForeignKey) (fuel : nat) :
  ¬ NoDup (name <$> ts) →
  Levels.levels_within fuel ts fks = None
  ∧ Levels.level_names fuel ts fks = None.
Proof.
  intros Hdup.
  assert (Levels.levels_within fuel ts fks = None) as Hnone.
  { unfold Levels.levels_within.
    destruct (Levels.build_deps ts fks) as [deps|]; [|done].
    assert (∀ levels placed,
      placed ⊆ list_to_set (name <$> ts) →
      Levels.levels_loop fuel deps ts levels placed = None)
      as Hloop.
    { induction fuel as [|fuel IH]; intros levels placed Hsub.
      - cbn [Levels.levels_loop]. rewrite decide_True; [done|].
        apply subseteq_size in Hsub. apply size_list_to_set_dup in Hdup.
        rewrite length_fmap in Hdup. lia.
      - cbn [Levels.levels_loop]. rewrite decide_True.
        + apply IH. pose proof (next_level_names deps placed ts).
          set_solver.
        + apply subseteq_size in Hsub. apply size_list_to_set_dup in Hdup.
          rewrite length_fmap in Hdup. lia. }
    apply Hloop. set_solver. }
  split; [done|]. unfold Levels.level_names. by rewrite Hnone.
Qed.

Lemma duplicate_names_never_terminate_witness :
  ¬ NoDup (name <$> [tbl "A"; tbl "B"; tbl "A"])
  ∧ Levels.levels_within 1000 [tbl "A"; tbl "B"; tbl "A"] [fk "B" "A"] = None.
Proof.
  assert (¬ NoDup (name <$> [tbl "A"; tbl "B"; tbl "A"])) as Hdup.
  { apply (bool_decide_unpack _). vm_compute. exact I. }
  split; [exact Hdup|].
  exact (proj1 (duplicate_names_never_terminate [tbl "A"; tbl "B"; tbl "A"]
                  [fk "B" "A"] 1000 Hdup)).
Defined.

(** ** Objects built from a list by key *)

Section KeyedObject.
Context {A : Type} (kf : A → string).

Lemma keyed_elem (l : list A) (k : string) (a : A) :
  foldl (λ m a, <[kf a := a]> m) (∅ : gmap string A) l !! k = Some a →
  a ∈ l ∧ kf a = k.
Proof.
  induction l as [|b l IH] using rev_ind; [simpl; by rewrite lookup_empty|].
  rewrite foldl_snoc. destruct (decide (kf b = k)) as [<-|Hne].
  - rewrite lookup_insert_eq. intros [= <-]. split; [|done].
    apply elem_of_app. right. by left.
  - rewrite lookup_insert_ne by done. intros [? ?]%IH. split; [|done].
    apply elem_of_app. by left.
Qed.

Lemma keyed_is_Some (l : list A) (k : string) :
  k ∈ kf <$> l →
  is_Some (foldl (λ m a, <[kf a := a]> m) (∅ : gmap string A) l !! k).
Proof.
  induction l as [|b l IH] using rev_ind; [by intros ?%not_elem_of_nil|].
  rewrite foldl_snoc, fmap_app. destruct (decide (kf b = k)) as [<-|Hne].
  - rewrite lookup_insert_eq. eauto.
  - rewrite lookup_insert_ne by done. intros [Hin|Hin]%elem_of_app; [by apply IH|].
    apply list_elem_of_singleton in Hin. done.
Qed.

Lemma keyed_unique (l : list A) (a : A) :
  NoDup (kf <$> l) → a ∈ l →
  foldl (λ m a, <[kf a := a]> m) (∅ : gmap string A) l !! kf a = Some a.
Proof.
  intros Hnd Ha. destruct (keyed_is_Some l (kf a)) as [b Hb].
  { by apply list_elem_of_fmap_2. }
  rewrite Hb. f_equal. apply keyed_elem in Hb as [Hb Hk].
  by apply (fmap_unique kf l).
Qed.
End KeyedObject.

Lemma filter_unique_names (p : TableInfo → bool) (ts : list TableInfo) :
  NoDup (name <$> ts) → NoDup (name <$> List.filter p ts).
Proof.
  induction ts as [|t ts IH]; [done|]. csimpl.
  intros [Hout Hnd]%NoDup_cons. destruct (p t); csimpl; [|by apply IH].
  apply NoDup_cons. split; [|by apply IH].
  intros Hin. apply Hout. apply list_elem_of_fmap in Hin as (t' & -> & Ht').
  apply list_elem_of_fmap_2. apply list_elem_of_In in Ht'.
  apply filter_In in Ht' as [Ht' _]. by apply list_elem_of_In.
Qed.

(** ** Node and edge placement of [ProcessFlowView] *)

Section ProcessFlowFacts.
Import ProcessFlow.

Lemma startX_closed (len : nat) : startX len = (40 - 150 * Z.of_nat len)%Z.
Proof.
  unfold startX, totalWidth, NODE_W, GAP_X.
  replace (- (Z.of_nat len * 220 + (Z.of_nat len - 1) * 80))%Z
    with ((40 - 150 * Z.of_nat len) * 2)%Z by lia.
  by rewrite Z.div_mul.
Qed.

(** The nodes of one level, for any table map: in reading order. *)
Lemma level_nodes_shape (tm : gmap string TableInfo) (len li : nat) :
  ∀ (lv : list string) (k : nat),
    let l := omap (λ o, o) (imap (λ i, node_at tm len li (k + i)) lv) in
    Forall (λ n, ∃ idx t, k ≤ idx ∧ n = pushed len li idx t) l
    ∧ StronglySorted reading_order l.
Proof.
  induction lv as [|a lv IH]; intros k; [split; constructor|].
  cbn zeta. rewrite imap_cons.
  rewrite (imap_ext _ (λ i, node_at tm len li (S k + i))); cycle 1.
  { intros i z _. simpl. f_equal. lia. }
  destruct (IH (S k)) as [Hall Hsorted]. cbn zeta in Hall, Hsorted.
  cbn [omap list_omap]. rewrite Nat.add_0_r.
  destruct (node_at tm len li k a) as [n0|] eqn:Hn0.
  - assert (∃ t, n0 = pushed len li k t) as [t ->].
    { unfold node_at in Hn0. destruct (tm !! a) as [t|]; [|done].
      exists t. by injection Hn0 as <-. }
    split.
    + constructor; [by exists k, t|].
      eapply Forall_impl; [exact Hall|]. intros n (idx & t' & ? & ?).
      exists idx, t'. split; [lia|done].
    + constructor; [done|].
      eapply Forall_impl; [exact Hall|]. intros n (idx & t' & Hidx & ->).
      right. split; [done|]. simpl. unfold NODE_W, GAP_X. lia.
  - split; [|done].
    eapply Forall_impl; [exact Hall|]. intros n (idx & t' & ? & ?).
    exists idx, t'. split; [lia|done].
Qed.

Lemma flow_nodes_shape (tm : gmap string TableInfo) :
  ∀ (levels : list (list string)) (k : nat),
    let l := concat (imap (λ i, level_nodes tm (k + i)) levels) in
    Forall (λ n, k ≤ level n ∧ y n = (Z.of_nat (level n) * (NODE_H + GAP_Y))%Z) l
    ∧ StronglySorted reading_order l.
Proof.
  induction levels as [|lv levels IH]; intros k; [split; constructor|].
  cbn zeta. rewrite imap_cons.
  rewrite (imap_ext _ (λ i, level_nodes tm (S k + i))); cycle 1.
  { intros i z _. simpl. f_equal. lia. }
  destruct (IH (S k)) as [Hall Hsorted]. cbn zeta in Hall, Hsorted.
  cbn [concat]. rewrite Nat.add_0_r.
  destruct (level_nodes_shape tm (length lv) k lv 0) as [Hall0 Hsorted0].
  cbn zeta in Hall0, Hsorted0. fold (level_nodes tm k lv) in Hall0, Hsorted0.
  split.
  - apply Forall_app. split.
    + eapply Forall_impl; [exact Hall0|]. intros n (idx & t & _ & ->). done.
    + eapply Forall_impl; [exact Hall|]. intros n [? ?]. split; [lia|done].
  - apply StronglySorted_app_2; [|done..].
    intros n m Hn Hm. rewrite Forall_forall in Hall0, Hall.
    destruct (Hall0 n Hn) as (idx & t & _ & ->). destruct (Hall m Hm) as [Hk _].
    left. simpl. lia.
Qed.

Lemma reading_order_apart (n m : FlowNode) :
  y n = (Z.of_nat (level n) * (NODE_H + GAP_Y))%Z →
  y m = (Z.of_nat (level m) * (NODE_H + GAP_Y))%Z →
  reading_order n m → apart n m.
Proof.
  unfold apart, NODE_W, NODE_H, GAP_X, GAP_Y. intros -> -> [Hlt|[_ Hx]].
  - right. right. left. lia.
  - left. unfold NODE_W, GAP_X in Hx. lia.
Qed.

Lemma apart_sym (n m : FlowNode) : apart n m → apart m n.
Proof. unfold apart. tauto. Qed.

Lemma sorted_pairwise {A : Type} (R : relation A) (l : list A) :
  StronglySorted R l →
  ∀ i j a b, i < j → l !! i = Some a → l !! j = Some b → R a b.
Proof.
  induction 1 as [|x l _ IH Hall]; intros i j a b Hij Hi Hj; [done|].
  destruct j as [|j]; [lia|]. simpl in Hj. destruct i as [|i]; simpl in Hi.
  - injection Hi as <-. rewrite Forall_forall in Hall. apply Hall.
    by eapply list_elem_of_lookup_2.
  - apply (IH i j); [lia|done..].
Qed.

(** With every name of a level in the table map, the level gives one node
    per name. *)
Lemma level_nodes_resolved (tm : gmap string TableInfo) (len li : nat) :
  ∀ (lv : list TableInfo) (k : nat),
    (∀ t, t ∈ lv → tm !! name t = Some t) →
    omap (λ o, o) (imap (λ i, node_at tm len li (k + i)) (name <$> lv))
    = imap (λ i, pushed len li (k + i)) lv.
Proof.
  induction lv as [|t lv IH]; intros k Htm; [done|].
  rewrite fmap_cons, !imap_cons. cbn [omap list_omap].
  rewrite Nat.add_0_r. unfold node_at at 1. rewrite (Htm t) by by left.
  f_equal.
  rewrite (imap_ext _ (λ i, node_at tm len li (S k + i))); cycle 1.
  { intros i z _. simpl. f_equal. lia. }
  rewrite IH by (intros t' Ht'; apply Htm; by right).
  apply imap_ext. intros i z _. simpl. f_equal. lia.
Qed.

Lemma flow_nodes_resolved (ts : list TableInfo) (levels : list (list TableInfo)) :
  NoDup (name <$> ts) →
  (∀ t, t ∈ concat levels → t ∈ ts) →
  flow_nodes ts (map (map name) levels)
  = concat (imap (λ li lv, imap (pushed (length lv) li) lv) levels).
Proof.
  intros Hnd Hin. unfold flow_nodes. change (map (map name) levels) with (map name <$> levels).
  rewrite imap_fmap. f_equal. apply imap_ext. intros li lv Hlv. simpl.
  unfold level_nodes. change (map name lv) with (name <$> lv).
  rewrite length_fmap.
  etrans; [apply (level_nodes_resolved (tableMap ts) (length lv) li lv 0)|].
  - intros t Ht. apply (keyed_unique name); [done|]. apply Hin.
    apply list_elem_of_In, in_concat. exists lv.
    split; apply list_elem_of_In; [by eapply list_elem_of_lookup_2|done].
  - by apply imap_ext.
Qed.

Lemma pushed_tables : ∀ (levels : list (list TableInfo)) (k : nat),
  table <$> concat (imap (λ li lv, imap (pushed (length lv) (k + li)) lv) levels)
  = concat levels.
Proof.
  induction levels as [|lv levels IH]; intros k; [done|].
  rewrite imap_cons. cbn [concat]. rewrite fmap_app. f_equal.
  - rewrite fmap_imap. clear. generalize (length lv), (k + 0). intros len li.
    assert (∀ j, imap (λ n, table ∘ pushed len li (j + n)) lv = lv) as H.
    { induction lv as [|t lv IH]; intros j; [done|]. rewrite imap_cons. simpl.
      f_equal. rewrite <- (IH (S j)) at 2. apply imap_ext. done. }
    apply (H 0).
  - rewrite <- (IH (S k)). do 2 f_equal. apply imap_ext. intros i z _. simpl.
    apply imap_ext. intros j t _. do 2 f_equal. lia.
Qed.

Lemma pushed_tables_all (levels : list (list TableInfo)) :
  table <$> concat (imap (λ li lv, imap (pushed (length lv) li) lv) levels)
  = concat levels.
Proof. exact (pushed_tables levels 0). Qed.

Lemma pushed_elem (levels : list (list TableInfo)) (n : FlowNode) :
  n ∈ concat (imap (λ li lv, imap (pushed (length lv) li) lv) levels)
  ↔ ∃ li lv idx t, levels !! li = Some lv ∧ lv !! idx = Some t
                   ∧ n = pushed (length lv) li idx t.
Proof.
  rewrite list_elem_of_In, in_concat. split.
  - intros (l & Hl & Hn). apply list_elem_of_In, list_elem_of_lookup in Hl as [li Hli].
    apply list_lookup_imap_Some in Hli as (lv & Hlv & ->).
    apply list_elem_of_In, list_elem_of_lookup in Hn as [idx Hidx].
    apply list_lookup_imap_Some in Hidx as (t & Ht & ->).
    by exists li, lv, idx, t.
  - intros (li & lv & idx & t & Hlv & Ht & ->).
    exists (imap (pushed (length lv) li) lv). split; apply list_elem_of_In.
    + apply list_elem_of_lookup. exists li. rewrite list_lookup_imap, Hlv. done.
    + apply list_elem_of_lookup. exists idx. rewrite list_lookup_imap, Ht. done.
Qed.

(** The levels and nodes of the view, for unique table names that no
    object inherits. *)
Lemma flow_graph_core (ts : list TableInfo) (fks : list ForeignKey) :
  NoDup (name <$> ts) →
  plain_names ts fks →
  ∃ levels : list (list TableInfo),
    Levels.level_names (length ts) ts fks = Some (map (map name) levels)
    ∧ concat levels ≡ₚ ts
    ∧ flow_nodes ts (map (map name) levels)
      = concat (imap (λ li lv, imap (pushed (length lv) li) lv) levels).
Proof.
  intros Hnd Hplain.
  destruct (levels_loop_total (dependency_sets ts fks) ts Hnd (length ts) [] ∅)
    as (levels & Hrun & _ & Hperm).
  { apply loop_inv_start. }
  { by rewrite unplaced_start. }
  exists levels. split_and!; [|done|].
  - unfold Levels.level_names. by rewrite (levels_within_plain _ _ _ Hplain), Hrun.
  - apply flow_nodes_resolved; [done|]. intros t. by rewrite Hperm.
Qed.

Lemma flow_edge_ends (ts : list TableInfo) (fks : list ForeignKey) (e : FlowEdge) :
  e ∈ flow_edges ts fks →
  ∃ k, k ∈ fks ∧ from e = targetTable k ∧ to e = sourceTable k
       ∧ sourceTable k ∈ name <$> ts ∧ targetTable k ∈ name <$> ts.
Proof.
  unfold flow_edges. intros He. apply list_elem_of_In, in_map_iff in He as (k & <- & Hk).
  apply filter_In in Hk as [Hk Hin]. apply andb_true_iff in Hin as [Hs Ht].
  apply bool_decide_eq_true_1 in Hs, Ht. rewrite elem_of_list_to_set in Hs, Ht.
  exists k. split_and!; [by apply list_elem_of_In|done..].
Qed.

Lemma pushed_level (ts : list TableInfo) (levels : list (list TableInfo)) (n : FlowNode) :
  NoDup (name <$> ts) → concat levels ≡ₚ ts →
  n ∈ concat (imap (λ li lv, imap (pushed (length lv) li) lv) levels) →
  table n ∈ ts
  ∧ Levels.level_of (map (map name) levels) (name (table n)) = Some (level n)
  ∧ y n = (Z.of_nat (level n) * (NODE_H + GAP_Y))%Z.
Proof.
  intros Hnd Hperm (li & lv & idx & t & Hlv & Ht & ->)%pushed_elem. simpl.
  assert (t ∈ lv) as Hin by by eapply list_elem_of_lookup_2.
  split_and!; [| |done].
  - rewrite <- Hperm. apply list_elem_of_In, in_concat. exists lv.
    split; apply list_elem_of_In; [by eapply list_elem_of_lookup_2|done].
  - apply (level_of_lookup _ li (name <$> lv)).
    + rewrite <- concat_map. change (map name ?l) with (name <$> l). by rewrite Hperm.
    + change (map ?f ?l) with (f <$> l). by rewrite list_lookup_fmap, Hlv.
    + by apply list_elem_of_fmap_2.
Qed.

Lemma pushed_mirror (levels : list (list TableInfo)) (n : FlowNode) :
  n ∈ concat (imap (λ li lv, imap (pushed (length lv) li) lv) levels) →
  ∃ m, m ∈ concat (imap (λ li lv, imap (pushed (length lv) li) lv) levels)
       ∧ level m = level n ∧ (x n + NODE_W + x m = 0)%Z.
Proof.
  intros (li & lv & idx & t & Hlv & Ht & ->)%pushed_elem.
  pose proof (lookup_lt_Some _ _ _ Ht) as Hidx.
  destruct (lookup_lt_is_Some_2 lv (length lv - 1 - idx)) as [t' Ht']; [lia|].
  exists (pushed (length lv) li (length lv - 1 - idx) t'). split_and!.
  - apply pushed_elem. by exists li, lv, (length lv - 1 - idx), t'.
  - done.
  - simpl. rewrite startX_closed. unfold NODE_W, GAP_X. lia.
Qed.
End ProcessFlowFacts.

Lemma acyclic_by_rank {A : Type} (R : relation A) (f : A → nat) :
  (∀ x y, R x y → f y < f x) → Irreflexive (tc R).
Proof.
  intros Hf x Hx.
  assert (∀ a b, tc R a b → f b < f a) as Htc.
  { induction 1 as [a b Hab|a b c Hab _ IH]; [by apply Hf|].
    apply Hf in Hab. lia. }
  apply Htc in Hx. lia.
Qed.

(** X2. With unique table names, and when no table name and no end of a
    foreign key is a name that every object inherits (such as
    constructor), ProcessFlowView draws exactly one node for every
    filtered table, each node carries the level that the level loop gave
    its table, and both ends of every edge are found in the node map of
    the render. *)
Theorem flow_nodes_one_per_table (toLowerCase : string → string)
    (s : SchemaData) (searchQuery : string) :
  NoDup (name <$> tables s) →
  plain_names (tables s) (foreignKeys s) →
  ∃ levels nodes edges,
    processFlowLevels toLowerCase s searchQuery = Some levels
    ∧ processFlowGraph toLowerCase s searchQuery = Some (nodes, edges)
    ∧ ProcessFlow.table <$> nodes ≡ₚ filteredTables toLowerCase s searchQuery
    ∧ (∀ n, n ∈ nodes →
         Levels.level_of levels (name (ProcessFlow.table n))
         = Some (ProcessFlow.level n))
    ∧ (∀ e, e ∈ edges →
         is_Some (ProcessFlow.nodeMap nodes !! ProcessFlow.from e)
         ∧ is_Some (ProcessFlow.nodeMap nodes !! ProcessFlow.to e)).
Proof.
  intros Hnd0 Hplain0. unfold processFlowLevels, processFlowGraph.
  set (ts := filteredTables toLowerCase s searchQuery).
  assert (NoDup (name <$> ts)) as Hnd by by apply filter_unique_names.
  assert (plain_names ts (foreignKeys s)) as Hplain by by apply plain_names_filter.
  destruct (flow_graph_core ts (foreignKeys s) Hnd Hplain)
    as (levels & Hlv & Hperm & Hnodes).
  cbn zeta. rewrite Hlv, Hnodes.
  eexists _, _, _. split_and!; [done|done| | |].
  - rewrite pushed_tables_all. done.
  - intros n Hn. by apply (pushed_level ts levels n Hnd Hperm).
  - intros e (k & _ & -> & -> & Hs & Ht)%flow_edge_ends.
    assert (name ∘ ProcessFlow.table
              <$> concat (imap (λ li lv, imap (pushed (length lv) li) lv) levels)
            ≡ₚ name <$> ts) as Hnames.
    { rewrite list_fmap_compose, pushed_tables_all. by rewrite Hperm. }
    split; apply (keyed_is_Some (name ∘ ProcessFlow.table)); by rewrite Hnames.
Qed.

Lemma flow_nodes_one_per_table_witness :
  NoDup (name <$> tables shop)
  ∧ plain_names (tables shop) (foreignKeys shop)
  ∧ ∃ levels nodes edges,
      processFlowLevels (λ s, s) shop "order" = Some levels
      ∧ processFlowGraph (λ s, s) shop "order" = Some (nodes, edges)
      ∧ ProcessFlow.table <$> nodes ≡ₚ filteredTables (λ s, s) shop "order"
      ∧ (∀ n, n ∈ nodes →
           Levels.level_of levels (name (ProcessFlow.table n))
           = Some (ProcessFlow.level n))
      ∧ (∀ e, e ∈ edges →
           is_Some (ProcessFlow.nodeMap nodes !! ProcessFlow.from e)
           ∧ is_Some (ProcessFlow.nodeMap nodes !! ProcessFlow.to e)).
Proof.
  assert (NoDup (name <$> tables shop)) as Hnd.
  { apply (bool_decide_unpack _). vm_compute. exact I. }
  assert (plain_names (tables shop) (foreignKeys shop)) as Hp.
  { split; repeat constructor. }
  split_and!; [exact Hnd|exact Hp|].
  exact (flow_nodes_one_per_table (λ s, s) shop "order" Hnd Hp).
Defined.

(** X3. With unique table names, and when no table name and no end of a
    foreign key is a name that every object inherits, any two nodes of
    ProcessFlowView are apart by at least the gap, sideways within a level
    and downwards between levels, and every level is centred on x = 0:
    each node [n] has a mirror node [m] in its level with
    [x n + NODE_W + x m = 0]. *)
Theorem flow_nodes_apart_and_centred (toLowerCase : string → string)
    (s : SchemaData) (searchQuery : string) :
  NoDup (name <$> tables s) →
  plain_names (tables s) (foreignKeys s) →
  ∃ nodes edges,
    processFlowGraph toLowerCase s searchQuery = Some (nodes, edges)
    ∧ (∀ i j n m, i ≠ j → nodes !! i = Some n → nodes !! j = Some m → apart n m)
    ∧ (∀ n, n ∈ nodes →
         ∃ m, m ∈ nodes ∧ ProcessFlow.level m = ProcessFlow.level n
              ∧ (ProcessFlow.x n + ProcessFlow.NODE_W + ProcessFlow.x m = 0)%Z).
Proof.
  intros Hnd0 Hplain0. unfold processFlowGraph.
  set (ts := filteredTables toLowerCase s searchQuery).
  assert (NoDup (name <$> ts)) as Hnd by by apply filter_unique_names.
  assert (plain_names ts (foreignKeys s)) as Hplain by by apply plain_names_filter.
  destruct (flow_graph_core ts (foreignKeys s) Hnd Hplain)
    as (levels & Hlv & Hperm & Hnodes).
  cbn zeta. rewrite Hlv.
  eexists _, _. split_and!; [done| |].
  - destruct (flow_nodes_shape (ProcessFlow.tableMap ts) (map (map name) levels) 0)
      as [Hall Hsorted].
    cbn zeta in Hall, Hsorted.
    change (concat _) with (ProcessFlow.flow_nodes ts (map (map name) levels))
      in Hall, Hsorted.
    rewrite Forall_forall in Hall.
    assert (∀ i j n m, i < j →
      ProcessFlow.flow_nodes ts (map (map name) levels) !! i = Some n →
      ProcessFlow.flow_nodes ts (map (map name) levels) !! j = Some m →
      apart n m) as Hlt.
    { intros i j n m Hij Hi Hj. apply reading_order_apart.
      - apply Hall. by eapply list_elem_of_lookup_2.
      - apply Hall. by eapply list_elem_of_lookup_2.
      - by apply (sorted_pairwise _ _ Hsorted i j). }
    intros i j n m Hij Hi Hj. destruct (decide (i < j)).
    + by apply (Hlt i j).
    + apply apart_sym. apply (Hlt j i); [lia|done..].
  - rewrite Hnodes. apply pushed_mirror.
Qed.

Lemma flow_nodes_apart_and_centred_witness :
  NoDup (name <$> tables shop)
  ∧ plain_names (tables shop) (foreignKeys shop)
  ∧ ∃ nodes edges,
      processFlowGraph (λ s, s) shop "" = Some (nodes, edges)
      ∧ (∀ i j n m, i ≠ j → nodes !! i = Some n → nodes !! j = Some m → apart n m)
      ∧ (∀ n, n ∈ nodes →
           ∃ m, m ∈ nodes ∧ ProcessFlow.level m = ProcessFlow.level n
                ∧ (ProcessFlow.x n + ProcessFlow.NODE_W + ProcessFlow.x m = 0)%Z).
Proof.
  assert (NoDup (name <$> tables shop)) as Hnd.
  { apply (bool_decide_unpack _). vm_compute. exact I. }
  assert (plain_names (tables shop) (foreignKeys shop)) as Hp.
  { split; repeat constructor. }
  split_and!; [exact Hnd|exact Hp|].
  exact (flow_nodes_apart_and_centred (λ s, s) shop "" Hnd Hp).
Defined.

(** X4. On an acyclic schema with unique table names, whose foreign keys
    from a table lead to a table, and in which no table name and no end of
    a foreign key is a name that every object inherits, every edge of
    ProcessFlowView points downwards: the node it ends at lies at least a
    node height and a gap below the node it starts from. *)
Theorem flow_edges_point_down (ts : list TableInfo) (fks : list ForeignKey) :
  NoDup (name <$> ts) →
  plain_names ts fks →
  (∀ k, k ∈ fks → sourceTable k ∈ name <$> ts → targetTable k ∈ name <$> ts) →
  Irreflexive (tc (depends_on fks)) →
  ∃ levels,
    Levels.level_names (length ts) ts fks = Some levels
    ∧ ∀ e, e ∈ ProcessFlow.flow_edges ts fks →
        ∃ n m,
          ProcessFlow.nodeMap (ProcessFlow.flow_nodes ts levels) !! ProcessFlow.from e
          = Some n
          ∧ ProcessFlow.nodeMap (ProcessFlow.flow_nodes ts levels) !! ProcessFlow.to e
            = Some m
          ∧ (ProcessFlow.y n + ProcessFlow.NODE_H + ProcessFlow.GAP_Y
             ≤ ProcessFlow.y m)%Z.
Proof.
  intros Hnd Hplain Hclosed Hacyc.
  destruct (flow_graph_core ts fks Hnd Hplain) as (levels & Hlv & Hperm & Hnodes).
  destruct (levels_respect_dependencies ts fks Hnd Hplain Hclosed Hacyc)
    as (levels' & Hlv' & Horder).
  rewrite Hlv in Hlv'. injection Hlv' as <-.
  eexists. split; [done|]. rewrite Hnodes.
  intros e (k & Hk & -> & -> & Hs & Ht)%flow_edge_ends.
  destruct (Horder k Hk Hs) as (i & j & Hi & Hj & Hji).
  assert (name ∘ ProcessFlow.table
            <$> concat (imap (λ li lv, imap (pushed (length lv) li) lv) levels)
          ≡ₚ name <$> ts) as Hnames.
  { rewrite list_fmap_compose, pushed_tables_all. by rewrite Hperm. }
  assert (∀ x l, x ∈ name <$> ts →
    Levels.level_of (map (map name) levels) x = Some l →
    ∃ n, ProcessFlow.nodeMap
           (concat (imap (λ li lv, imap (pushed (length lv) li) lv) levels)) !! x
         = Some n
         ∧ ProcessFlow.y n
           = (Z.of_nat l * (ProcessFlow.NODE_H + ProcessFlow.GAP_Y))%Z) as Hnode.
  { intros x l Hx Hl.
    destruct (keyed_is_Some (name ∘ ProcessFlow.table)
                (concat (imap (λ li lv, imap (pushed (length lv) li) lv) levels)) x)
      as [n Hn]; [by rewrite Hnames|].
    exists n. split; [done|].
    apply keyed_elem in Hn as [Hn Hname].
    destruct (pushed_level ts levels n Hnd Hperm Hn) as (_ & Hlevel & Hy).
    simpl in Hname. rewrite Hname, Hl in Hlevel. injection Hlevel as ->. done. }
  destruct (Hnode _ _ Ht Hj) as (n & Hn & Hyn).
  destruct (Hnode _ _ Hs Hi) as (m & Hm & Hym).
  exists n, m. split_and!; [done|done|].
  rewrite Hyn, Hym. unfold ProcessFlow.NODE_H, ProcessFlow.GAP_Y. lia.
Qed.

Lemma flow_edges_point_down_witness :
  NoDup (name <$> tables shop)
  ∧ plain_names (tables shop) (foreignKeys shop)
  ∧ (∀ k, k ∈ foreignKeys shop →
       sourceTable k ∈ name <$> tables shop → targetTable k ∈ name <$> tables shop)
  ∧ Irreflexive (tc (depends_on (foreignKeys shop)))
  ∧ ∃ levels,
      Levels.level_names (length (tables shop)) (tables shop) (foreignKeys shop)
      = Some levels
      ∧ ∀ e, e ∈ ProcessFlow.flow_edges (tables shop) (foreignKeys shop) →
          ∃ n m,
            ProcessFlow.nodeMap (ProcessFlow.flow_nodes (tables shop) levels)
              !! ProcessFlow.from e = Some n
            ∧ ProcessFlow.nodeMap (ProcessFlow.flow_nodes (tables shop) levels)
                !! ProcessFlow.to e = Some m
            ∧ (ProcessFlow.y n + ProcessFlow.NODE_H + ProcessFlow.GAP_Y
               ≤ ProcessFlow.y m)%Z.
Proof.
  assert (NoDup (name <$> tables shop)) as Hnd.
  { apply (bool_decide_unpack _). vm_compute. exact I. }
  assert (∀ k, k ∈ foreignKeys shop →
    sourceTable k ∈ name <$> tables shop → targetTable k ∈ name <$> tables shop)
    as Hclosed.
  { intros k Hk _. apply (bool_decide_unpack _).
    repeat (apply elem_of_cons in Hk as [->|Hk]; [vm_compute; exact I|]).
    by apply not_elem_of_nil in Hk. }
  assert (Irreflexive (tc (depends_on (foreignKeys shop)))) as Hacyc.
  { apply (acyclic_by_rank _
      (λ x, if String.eqb x "order_items" then 2
            else if String.eqb x "orders" then 1 else 0)).
    intros x y (k & Hk & <- & <-).
    repeat (apply elem_of_cons in Hk as [->|Hk]; [vm_compute; lia|]).
    by apply not_elem_of_nil in Hk. }
  assert (plain_names (tables shop) (foreignKeys shop)) as Hp.
  { split; repeat constructor. }
  split_and!; [exact Hnd|exact Hp|exact Hclosed|exact Hacyc|].
  exact (flow_edges_point_down (tables shop) (foreignKeys shop) Hnd Hp Hclosed Hacyc).
Defined.

(** ** Dependency lists of [TimelineView] *)

Section TimelineFacts.
Import Timeline.
Variable ts : list TableInfo.

Lemma tableDeps_init_lookup (n : string) :
  tableDeps_init ts !! n
  = if decide (n ∈ name <$> ts)
    then Some {| dependsOn := []; dependedBy := [] |} else None.
Proof.
  unfold tableDeps_init.
  rewrite (lookup_foldl_insert name (λ _, {| dependsOn := []; dependedBy := [] |})).
  by rewrite lookup_empty.
Qed.

Lemma dependency_lists_snoc fks k :
  dependency_lists ts (fks ++ [k])
  = push_dependedBy_own
      (push_dependsOn_own (dependency_lists ts fks) (sourceTable k) (targetTable k))
      (targetTable k) (sourceTable k).
Proof. unfold dependency_lists. by rewrite foldl_snoc. Qed.

Lemma push_dependsOn_plain d a b :
  inherited a = false → push_dependsOn d a b = Some (push_dependsOn_own d a b).
Proof.
  intros Ha. unfold push_dependsOn, push_dependsOn_own. rewrite Ha.
  by destruct (d !! a).
Qed.

Lemma push_dependedBy_plain d a b :
  inherited a = false → push_dependedBy d a b = Some (push_dependedBy_own d a b).
Proof.
  intros Ha. unfold push_dependedBy, push_dependedBy_own. rewrite Ha.
  by destruct (d !! a).
Qed.

(** Building the record does not throw on names that no object inherits. *)
Lemma tableDeps_plain fks :
  plain_names ts fks → tableDeps ts fks = Some (dependency_lists ts fks).
Proof.
  intros [_ Hfks]. unfold tableDeps, dependency_lists.
  induction fks as [|k fks IH] using rev_ind; [done|].
  apply Forall_app in Hfks as [Hfks [[Hs Ht] _]%Forall_cons].
  rewrite !foldl_snoc, (IH Hfks). simpl. unfold tableDeps_add.
  rewrite push_dependsOn_plain by done. simpl.
  by rewrite push_dependedBy_plain.
Qed.

Lemma leaving_snoc fks k n :
  leaving (fks ++ [k]) n
  = leaving fks n ++ (if String.eqb (sourceTable k) n then [k] else []).
Proof. unfold leaving. by rewrite List.filter_app. Qed.

Lemma entering_snoc fks k n :
  entering (fks ++ [k]) n
  = entering fks n ++ (if String.eqb (targetTable k) n then [k] else []).
Proof. unfold entering. by rewrite List.filter_app. Qed.

Lemma dependency_lists_lookup (fks : list ForeignKey) (n : string) :
  dependency_lists ts fks !! n
  = if decide (n ∈ name <$> ts)
    then Some {| dependsOn := targetTable <$> leaving fks n;
                 dependedBy := sourceTable <$> entering fks n |}
    else None.
Proof.
  induction fks as [|k fks IH] using rev_ind.
  - unfold dependency_lists. simpl. apply tableDeps_init_lookup.
  - rewrite dependency_lists_snoc, leaving_snoc, entering_snoc, !fmap_app.
    set (d := dependency_lists ts fks) in *.
    destruct (decide (n ∈ name <$> ts)) as [Hn|Hn].
    + assert (∀ a b, push_dependsOn_own d a b !! n
        = Some {| dependsOn := (targetTable <$> leaving fks n)
                               ++ (if String.eqb a n then [b] else []);
                  dependedBy := sourceTable <$> entering fks n |}) as Hfirst.
      { intros a b. unfold push_dependsOn_own.
        destruct (String.eqb_spec a n) as [->|Hne].
        - rewrite IH. rewrite lookup_insert_eq. done.
        - rewrite app_nil_r. destruct (d !! a); [|done].
          by rewrite lookup_insert_ne. }
      unfold push_dependedBy_own.
      destruct (String.eqb_spec (targetTable k) n) as [<-|Hne].
      * rewrite Hfirst. rewrite lookup_insert_eq. simpl.
        by destruct (String.eqb (sourceTable k) (targetTable k)).
      * rewrite !app_nil_r.
        destruct (push_dependsOn_own d (sourceTable k) (targetTable k) !! targetTable k).
        -- rewrite lookup_insert_ne by done. rewrite Hfirst.
           by destruct (String.eqb (sourceTable k) n).
        -- rewrite Hfirst. by destruct (String.eqb (sourceTable k) n).
    + assert (∀ a b, push_dependsOn_own d a b !! n = None) as Hfirst.
      { intros a b. unfold push_dependsOn_own. destruct (d !! a) eqn:Ha; [|done].
        rewrite lookup_insert_ne; [done|]. intros ->. congruence. }
      unfold push_dependedBy_own.
      destruct (push_dependsOn_own d (sourceTable k) (targetTable k) !! targetTable k)
        eqn:Ht; [|done].
      rewrite lookup_insert_ne; [done|]. intros Heq. rewrite Heq, Hfirst in Ht. done.
Qed.
End TimelineFacts.

Lemma in_leaving (fks : list ForeignKey) (a b : string) :
  b ∈ targetTable <$> leaving fks a ↔ depends_on fks a b.
Proof.
  unfold leaving, depends_on. rewrite list_elem_of_fmap. split.
  - intros (k & -> & Hk). apply list_elem_of_In, filter_In in Hk as [Hk Ha].
    apply String.eqb_eq in Ha. exists k. by rewrite <- list_elem_of_In in Hk.
  - intros (k & Hk & Ha & Hb). exists k. split; [done|].
    apply list_elem_of_In, filter_In. split; [by apply list_elem_of_In|].
    by apply String.eqb_eq.
Qed.

Lemma in_entering (fks : list ForeignKey) (a b : string) :
  b ∈ sourceTable <$> entering fks a ↔ depends_on fks b a.
Proof.
  unfold entering, depends_on. rewrite list_elem_of_fmap. split.
  - intros (k & -> & Hk). apply list_elem_of_In, filter_In in Hk as [Hk Ha].
    apply String.eqb_eq in Ha. exists k. by rewrite <- list_elem_of_In in Hk.
  - intros (k & Hk & Ha & Hb). exists k. split; [done|].
    apply list_elem_of_In, filter_In. split; [by apply list_elem_of_In|].
    by apply String.eqb_eq.
Qed.

(** A foreign key to a missing table named like an inherited member stops
    the dependency record of [TimelineView] with a [TypeError]. *)
Example inherited_target_stops_dependency_lists :
  timelineTableDeps {| tables := [tbl "A"]; foreignKeys := [fk "A" "constructor"] |}
  = None.
Proof. reflexivity. Qed.

(** X5. When no table and no end of a foreign key is named like a member
    that every object inherits, TimelineView builds its dependency
    record, and the record has an entry for the table names and for
    nothing else.  The entry of a table lists the targets of the foreign
    keys that leave it and the sources of those that enter it, in
    foreign-key order and with repetitions.  A table is marked as
    connected to the hovered table exactly when a foreign key joins the
    two, and between tables the mark is symmetric. *)
Theorem timeline_dependency_lists (s : SchemaData) :
  plain_names (tables s) (foreignKeys s) →
  ∃ d, timelineTableDeps s = Some d
  ∧ (∀ n, n ∉ name <$> tables s → d !! n = None)
  ∧ (∀ t, t ∈ tables s →
       d !! name t
       = Some {| Timeline.dependsOn :=
                   targetTable <$> leaving (foreignKeys s) (name t);
                 Timeline.dependedBy :=
                   sourceTable <$> entering (foreignKeys s) (name t) |})
  ∧ (∀ a b, a ∈ name <$> tables s →
       Timeline.isConnected d a b = true
       ↔ depends_on (foreignKeys s) a b ∨ depends_on (foreignKeys s) b a)
  ∧ (∀ a b, a ∈ name <$> tables s → b ∈ name <$> tables s →
       Timeline.isConnected d a b = Timeline.isConnected d b a).
Proof.
  intros Hpl. exists (dependency_lists (tables s) (foreignKeys s)).
  split; [by apply tableDeps_plain|].
  set (d := dependency_lists (tables s) (foreignKeys s)).
  assert (∀ a b, a ∈ name <$> tables s →
    Timeline.isConnected d a b = true
    ↔ depends_on (foreignKeys s) a b ∨ depends_on (foreignKeys s) b a) as Hconn.
  { intros a b Ha. unfold Timeline.isConnected, d.
    rewrite dependency_lists_lookup, decide_True by done. simpl.
    rewrite orb_true_iff, !bool_decide_eq_true, in_leaving, in_entering. done. }
  split_and!.
  - intros n Hn. unfold d. by rewrite dependency_lists_lookup, decide_False.
  - intros t Ht. unfold d.
    rewrite dependency_lists_lookup, decide_True; [done|]. by apply list_elem_of_fmap_2.
  - done.
  - intros a b Ha Hb. apply eq_true_iff_eq. rewrite !Hconn by done. tauto.
Qed.

Lemma timeline_dependency_lists_witness :
  plain_names (tables shop) (foreignKeys shop)
  ∧ ∃ d, timelineTableDeps shop = Some d
         ∧ Timeline.isConnected d "orders" "customers" = true.
Proof.
  assert (plain_names (tables shop) (foreignKeys shop)) as Hpl.
  { split; repeat constructor. }
  split; [exact Hpl|].
  destruct (timeline_dependency_lists shop Hpl) as (d & Hrun & _ & _ & Hconn & _).
  exists d. split; [exact Hrun|].
  apply Hconn.
  - apply (bool_decide_unpack _). vm_compute. exact I.
  - left. exists (fk "orders" "customers"). split; [by left|done].
Defined.

(** ** Table roles of [LayerView] *)

Section LayerFacts.
Import Layer.
Variable ts : list TableInfo.

Lemma bump_lookup (m : gmap string nat) (k n : string) :
  default 0 (bump m k !! n)
  = default 0 (m !! n) + (if String.eqb k n then 1 else 0).
Proof.
  unfold bump. destruct (String.eqb_spec k n) as [->|Hne].
  - by rewrite lookup_insert_eq.
  - rewrite lookup_insert_ne by done. lia.
Qed.

Lemma degree_init_lookup (n : string) : default 0 (degree_init ts !! n) = 0.
Proof.
  unfold degree_init. rewrite (lookup_foldl_insert name (λ _, 0)).
  by case_decide.
Qed.

Lemma outDegree_lookup (fks : list ForeignKey) (n : string) :
  default 0 (build_outDegree ts fks !! n) = length (leaving fks n).
Proof.
  unfold build_outDegree. induction fks as [|k fks IH] using rev_ind.
  - apply degree_init_lookup.
  - rewrite foldl_snoc, bump_lookup, IH, leaving_snoc, length_app.
    by destruct (String.eqb (sourceTable k) n).
Qed.

Lemma inDegree_lookup (fks : list ForeignKey) (n : string) :
  default 0 (build_inDegree ts fks !! n) = length (entering fks n).
Proof.
  unfold build_inDegree. induction fks as [|k fks IH] using rev_ind.
  - apply degree_init_lookup.
  - rewrite foldl_snoc, bump_lookup, IH, entering_snoc, length_app.
    by destruct (String.eqb (targetTable k) n).
Qed.

Lemma classify_all (fks : list ForeignKey) (l : list TableInfo) : ∀ b,
  foldl (classify (build_inDegree ts fks) (build_outDegree ts fks)) b l
  = {| reference :=
         reference b
         ++ List.filter (λ t, String.eqb (role fks t) "Reference / Lookup") l;
       core :=
         core b ++ List.filter (λ t, String.eqb (role fks t) "Core Entities") l;
       junction :=
         junction b
         ++ List.filter (λ t, String.eqb (role fks t) "Junction / Bridge") l;
       leaf := leaf b ++ List.filter (λ t, String.eqb (role fks t) "Standalone") l |}.
Proof.
  induction l as [|t l IH]; intros b.
  - simpl. rewrite !app_nil_r. by destruct b.
  - cbn [foldl]. rewrite IH. unfold classify, role.
    rewrite inDegree_lookup, outDegree_lookup.
    cbn [List.filter]. cbv zeta.
    destruct (length (entering fks (name t))) as [|[|i]],
             (length (leaving fks (name t))) as [|[|o]];
      simpl; by rewrite <- ?app_assoc.
Qed.

Lemma buckets_by_role (fks : list ForeignKey) :
  buckets ts fks
  = {| reference := List.filter (λ t, String.eqb (role fks t) "Reference / Lookup") ts;
       core := List.filter (λ t, String.eqb (role fks t) "Core Entities") ts;
       junction := List.filter (λ t, String.eqb (role fks t) "Junction / Bridge") ts;
       leaf := List.filter (λ t, String.eqb (role fks t) "Standalone") ts |}.
Proof. unfold buckets. by rewrite classify_all. Qed.
End LayerFacts.

Section PartitionByKey.
Context {A : Type} (f : A → string).

Lemma partition_insert (x : A) (g : string → list A) (keys : list string) :
  NoDup keys → f x ∈ keys →
  concat ((λ k, if String.eqb (f x) k then x :: g k else g k) <$> keys)
  ≡ₚ x :: concat (g <$> keys).
Proof.
  induction keys as [|k keys IH]; intros Hnd Hin; [by apply not_elem_of_nil in Hin|].
  apply NoDup_cons in Hnd as [Hk Hnd]. csimpl.
  destruct (String.eqb_spec (f x) k) as [Heq|Hne].
  - simpl. assert (((λ k, if String.eqb (f x) k then x :: g k else g k) <$> keys)
                   = (g <$> keys)) as ->; [|done].
    apply list_fmap_ext.
    intros j k' Hk'. destruct (String.eqb_spec (f x) k') as [Heq'|]; [|done].
    exfalso. apply Hk. rewrite <- Heq, Heq'. by eapply list_elem_of_lookup_2.
  - apply elem_of_cons in Hin as [?|Hin]; [done|].
    rewrite IH by done. by rewrite Permutation_middle.
Qed.

Lemma partition_by_key (l : list A) (keys : list string) :
  NoDup keys → (∀ x, x ∈ l → f x ∈ keys) →
  concat ((λ k, List.filter (λ x, String.eqb (f x) k) l) <$> keys) ≡ₚ l.
Proof.
  intros Hnd. induction l as [|x l IH]; intros Hin.
  - clear. by induction keys as [|k keys IHk].
  - cbn [List.filter].
    rewrite (partition_insert x (λ k, List.filter (λ x, String.eqb (f x) k) l)).
    + constructor. apply IH. intros y Hy. apply Hin. by right.
    + done.
    + apply Hin. by left.
Qed.
End PartitionByKey.

Lemma concat_nonempty {A B : Type} (f : A → list B) (l : list A) :
  concat (f <$> List.filter (λ x, 0 <? length (f x)) l) = concat (f <$> l).
Proof.
  induction l as [|x l IH]; [done|]. cbn [List.filter].
  destruct (0 <? length (f x)) eqn:Hx; csimpl; rewrite IH; [done|].
  destruct (f x); [done|discriminate].
Qed.

Lemma role_name (fks : list ForeignKey) (t : TableInfo) :
  role fks t ∈ ["Reference / Lookup"; "Core Entities"; "Junction / Bridge"; "Standalone"].
Proof.
  unfold role. cbv zeta.
  repeat (match goal with |- context [if ?b then _ else _] => destruct b end);
    set_solver.
Qed.

Lemma layers_elem (ts : list TableInfo) (fks : list ForeignKey) (l : Layer.Layer) :
  l ∈ Layer.layers ts fks →
  Layer.layer_name l
    ∈ ["Reference / Lookup"; "Core Entities"; "Junction / Bridge"; "Standalone"]
  ∧ Layer.layer_tables l
    = List.filter (λ t, String.eqb (role fks t) (Layer.layer_name l)) ts
  ∧ Layer.layer_tables l ≠ [].
Proof.
  unfold Layer.layers. cbv zeta. rewrite buckets_by_role. cbn [Layer.reference
    Layer.core Layer.junction Layer.leaf].
  intros Hl. apply list_elem_of_In, filter_In in Hl as [Hl Hne].
  assert (Layer.layer_tables l ≠ []) as Hne'.
  { intros Heq. rewrite Heq in Hne. done. }
  apply list_elem_of_In in Hl.
  repeat (apply elem_of_cons in Hl as [->|Hl]; [simpl; split_and!; [set_solver|done|done]|]).
  by apply not_elem_of_nil in Hl.
Qed.



(** X7. The layers of LayerView partition the tables: together they hold
    the tables of the schema, each as often as the schema does; their names
    follow the fixed order Reference, Core, Junction, Standalone; and no
    table is in two layers. *)
Theorem layers_partition (s : SchemaData) :
  concat (Layer.layer_tables <$> layerViewLayers s) ≡ₚ tables s
  ∧ Layer.layer_name <$> layerViewLayers s
    `sublist_of` ["Reference / Lookup"; "Core Entities"; "Junction / Bridge"; "Standalone"]
  ∧ (∀ l l' t, l ∈ layerViewLayers s → l' ∈ layerViewLayers s →
       t ∈ Layer.layer_tables l → t ∈ Layer.layer_tables l' → l = l').
Proof.
  split_and!.
  - unfold layerViewLayers, Layer.layers. cbv zeta. rewrite buckets_by_role.
    cbn [Layer.reference Layer.core Layer.junction Layer.leaf].
    rewrite (concat_nonempty Layer.layer_tables).
    apply (partition_by_key (role (foreignKeys s)) (tables s)
             ["Reference / Lookup"; "Core Entities"; "Junction / Bridge"; "Standalone"]).
    + apply (bool_decide_unpack _). vm_compute. exact I.
    + intros t _. apply role_name.
  - unfold layerViewLayers, Layer.layers. cbv zeta.
    set (all4 := [_; _; _; _]).
    change ["Reference / Lookup"; "Core Entities"; "Junction / Bridge"; "Standalone"]
      with (Layer.layer_name <$> all4).
    apply fmap_sublist. clear. induction all4 as [|l all4 IH]; [done|].
    cbn [List.filter]. destruct (0 <? _); by constructor.
  - intros l l' t Hl Hl' Ht Ht'.
    assert (∀ l0, l0 ∈ layerViewLayers s → t ∈ Layer.layer_tables l0 →
      Layer.layer_name l0 = role (foreignKeys s) t) as Hname.
    { intros l0 Hl0 Ht0. apply layers_elem in Hl0 as (_ & Htabs & _).
      rewrite Htabs in Ht0. apply list_elem_of_In, filter_In in Ht0 as [_ Heq].
      apply String.eqb_eq in Heq. done. }
    pose proof (Hname l Hl Ht) as Hn. pose proof (Hname l' Hl' Ht') as Hn'.
    unfold layerViewLayers, Layer.layers in Hl, Hl'. cbv zeta in Hl, Hl'.
    apply list_elem_of_In, filter_In in Hl as [Hl _].
    apply list_elem_of_In, filter_In in Hl' as [Hl' _].
    apply list_elem_of_In in Hl, Hl'.
    rewrite <- Hn' in Hn. clear -Hl Hl' Hn.
    repeat (apply elem_of_cons in Hl as [->|Hl]);
      try (by apply not_elem_of_nil in Hl);
      repeat (apply elem_of_cons in Hl' as [->|Hl']);
      try (by apply not_elem_of_nil in Hl'); done.
Qed.

(** ** Ranking, strongest cell and tooltips of [CorrelationView] *)

Lemma sum_list_perm (l l' : list nat) : l ≡ₚ l' → sum_list l = sum_list l'.
Proof. induction 1; simpl; lia. Qed.

Lemma foldl_add_sum (l : list nat) (n : nat) : foldl Nat.add n l = n + sum_list l.
Proof.
  revert n. induction l as [|x l IH]; intros n; simpl; [lia|]. rewrite IH. lia.
Qed.

Lemma filter_length_perm {A : Type} (p : A → bool) (l l' : list A) :
  l ≡ₚ l' → length (List.filter p l) = length (List.filter p l').
Proof.
  induction 1 as [|x l l' _ IH|x y l|l l' l'' _ IH1 _ IH2]; simpl.
  - done.
  - destruct (p x); simpl; lia.
  - destruct (p x), (p y); simpl; lia.
  - lia.
Qed.

Lemma sum_list_swap {A B : Type} (f : A → B → nat) (l1 : list A) (l2 : list B) :
  sum_list ((λ a, sum_list (f a <$> l2)) <$> l1)
  = sum_list ((λ b, sum_list ((λ a, f a b) <$> l1)) <$> l2).
Proof.
  induction l1 as [|a l1 IH]; csimpl.
  - symmetry. by apply sum_list_all_zero.
  - rewrite IH. by rewrite <- sum_list_fmap_plus.
Qed.

Lemma sum_list_filter_length {A : Type} (p : A → bool) (l : list A) :
  sum_list ((λ x, if p x then 1 else 0) <$> l) = length (List.filter p l).
Proof. induction l as [|x l IH]; csimpl; [done|]. destruct (p x); simpl; lia. Qed.

Section CorrelationStatsFacts.
Import Correlation CorrelationStats.
Variable ts : list TableInfo.
Variable fks : list ForeignKey.
Hypothesis names_unique : NoDup (name <$> ts).

Lemma matrix_row (a : string) :
  a ∈ name <$> ts →
  ∃ row, build_matrix ts fks !! a = Some row
         ∧ ∀ b, row !! b
                = if decide (b ∈ name <$> ts)
                  then Some (cell (build_matrix ts fks) a b) else None.
Proof.
  intros Ha. pose proof (λ b, build_matrix_shape ts fks a b) as Hshape.
  unfold cell. revert Hshape.
  destruct (build_matrix ts fks !! a) as [row|]; simpl; intros Hshape.
  - exists row. split; [done|]. intros b. specialize (Hshape b).
    destruct (decide (b ∈ name <$> ts)) as [Hb|Hb].
    + destruct Hshape as [_ [v Hv]]; [done|]. by rewrite Hv.
    + destruct (row !! b) eqn:Hv; [|done]. exfalso. apply Hb, Hshape. eauto.
  - exfalso. destruct (Hshape a) as [_ [? ?]]; done.
Qed.

Lemma row_values_perm (a : string) :
  a ∈ name <$> ts →
  row_values (build_matrix ts fks) a ≡ₚ cell (build_matrix ts fks) a <$> (name <$> ts).
Proof.
  intros Ha. destruct (matrix_row a Ha) as (row & Hrow & Hcells).
  unfold row_values. rewrite Hrow. simpl.
  assert (map_to_list row
          ≡ₚ (λ b, (b, cell (build_matrix ts fks) a b)) <$> (name <$> ts)) as ->.
  { apply NoDup_Permutation.
    - apply NoDup_map_to_list.
    - apply NoDup_fmap_2; [|done]. by intros ? ? [= ->].
    - intros [b v]. split.
      + intros Hv%elem_of_map_to_list. rewrite Hcells in Hv.
        destruct (decide (b ∈ name <$> ts)); [|done]. injection Hv as <-.
        apply list_elem_of_fmap. eauto.
      + intros (b' & Heq & Hb)%list_elem_of_fmap. injection Heq as -> ->.
        apply elem_of_map_to_list. rewrite Hcells. by rewrite decide_True. }
  by rewrite <- list_fmap_compose.
Qed.

Lemma row_sum_delta (k : ForeignKey) (a : string) :
  sum_list ((λ b, delta (name <$> ts) k a b) <$> (name <$> ts))
  = ends_at (name <$> ts) k a.
Proof.
  unfold delta, ends_at. destruct (inside (name <$> ts) k) eqn:Hin.
  - unfold inside in Hin. apply andb_true_iff in Hin as [Hs Ht].
    apply bool_decide_eq_true_1 in Hs, Ht.
    rewrite sum_list_fmap_plus. f_equal.
    + destruct (String.eqb_spec (sourceTable k) a) as [Heq|Hne].
      * rewrite (sum_indicator _ _ (targetTable k)); [by rewrite bool_decide_eq_true_2|done|].
        intros b. naive_solver.
      * apply sum_list_all_zero. intros b _. rewrite bool_decide_eq_false_2; [done|tauto].
    + destruct (String.eqb_spec (targetTable k) a) as [Heq|Hne].
      * rewrite (sum_indicator _ _ (sourceTable k)); [by rewrite bool_decide_eq_true_2|done|].
        intros b. naive_solver.
      * apply sum_list_all_zero. intros b _. rewrite bool_decide_eq_false_2; [done|tauto].
  - by apply sum_list_all_zero.
Qed.

Lemma row_sum (a : string) :
  sum_list (cell (build_matrix ts fks) a <$> (name <$> ts))
  = sum_list ((λ k, ends_at (name <$> ts) k a) <$> fks).
Proof.
  assert (cell (build_matrix ts fks) a <$> (name <$> ts)
          = (λ b, sum_list ((λ k, delta (name <$> ts) k a b) <$> fks)) <$> (name <$> ts))
    as ->.
  { apply list_fmap_ext. intros i b _. apply build_matrix_cell. }
  rewrite sum_list_swap. f_equal. apply list_fmap_ext. intros i k _.
  apply row_sum_delta.
Qed.

Lemma ends_total (k : ForeignKey) :
  sum_list (ends_at (name <$> ts) k <$> (name <$> ts))
  = if inside (name <$> ts) k then 2 else 0.
Proof.
  unfold ends_at. destruct (inside (name <$> ts) k) eqn:Hin.
  - unfold inside in Hin. apply andb_true_iff in Hin as [Hs Ht].
    apply bool_decide_eq_true_1 in Hs, Ht.
    rewrite sum_list_fmap_plus.
    assert (∀ x, x ∈ name <$> ts →
      sum_list ((λ a, if String.eqb x a then 1 else 0) <$> (name <$> ts)) = 1) as Hone.
    { intros x Hx.
      assert ((λ a, if String.eqb x a then 1 else 0) <$> (name <$> ts)
              = (λ a, if bool_decide (a = x) then 1 else 0) <$> (name <$> ts)) as ->.
      { apply list_fmap_ext. intros i a _.
        destruct (String.eqb_spec x a); case_bool_decide; congruence. }
      rewrite (sum_indicator _ _ x names_unique); [|done].
      by rewrite bool_decide_eq_true_2. }
    by rewrite !Hone.
  - by apply sum_list_all_zero.
Qed.

Lemma stat_connections (t : TableInfo) :
  t ∈ ts →
  connections (stat_of (build_matrix ts fks) t)
  = sum_list ((λ k, ends_at (name <$> ts) k (name t)) <$> fks).
Proof.
  intros Ht. simpl. rewrite foldl_add_sum. simpl.
  rewrite (sum_list_perm _ _ (row_values_perm (name t) (list_elem_of_fmap_2 _ _ _ Ht))).
  apply row_sum.
Qed.

Lemma stat_connectedTo (t : TableInfo) :
  t ∈ ts →
  connectedTo (stat_of (build_matrix ts fks) t)
  = length (List.filter (λ b, 0 <? cell (build_matrix ts fks) (name t) b)
              (name <$> ts)).
Proof.
  intros Ht. simpl.
  rewrite (filter_length_perm _ _ _
             (row_values_perm (name t) (list_elem_of_fmap_2 _ _ _ Ht))).
  generalize (name <$> ts). intros l. induction l as [|b l IH]; [done|]. csimpl.
  destruct (0 <? _); simpl; by rewrite IH.
Qed.

Lemma stats_total :
  sum_list (connections <$> tableStats ts (build_matrix ts fks))
  = 2 * length (List.filter (inside (name <$> ts)) fks).
Proof.
  unfold tableStats. rewrite (sum_list_perm _ (connections <$> map (stat_of (build_matrix ts fks)) ts)).
  2:{ by rewrite array_sort_perm. }
  change (map ?f ?l) with (f <$> l). rewrite <- list_fmap_compose.
  assert (connections ∘ stat_of (build_matrix ts fks) <$> ts
          = (λ a, sum_list ((λ k, ends_at (name <$> ts) k a) <$> fks)) <$> (name <$> ts))
    as ->.
  { rewrite <- list_fmap_compose. apply list_fmap_ext. intros i t Ht.
    apply stat_connections. by eapply list_elem_of_lookup_2. }
  rewrite sum_list_swap.
  assert ((λ k, sum_list ((λ a, ends_at (name <$> ts) k a) <$> (name <$> ts))) <$> fks
          = (λ k, if inside (name <$> ts) k then 2 else 0) <$> fks) as ->.
  { apply list_fmap_ext. intros i k _. apply ends_total. }
  clear. induction fks as [|k l IH]; [done|]. csimpl.
  destruct (inside (name <$> ts) k); simpl; lia.
Qed.
End CorrelationStatsFacts.

Lemma max_list_bound (l : list nat) :
  1 ≤ foldr Nat.max 1 l
  ∧ (∀ v, v ∈ l → v ≤ foldr Nat.max 1 l)
  ∧ (foldr Nat.max 1 l = 1 ∨ foldr Nat.max 1 l ∈ l).
Proof.
  induction l as [|x l (IH1 & IH2 & IH3)]; simpl.
  - split_and!; [done| |by left]. intros v Hv. by apply not_elem_of_nil in Hv.
  - split_and!; [lia| |].
    + intros v [->|Hv]%elem_of_cons; [lia|]. specialize (IH2 v Hv). lia.
    + destruct (Nat.max_spec x (foldr Nat.max 1 l)) as [[? ->]|[? ->]].
      * destruct IH3 as [?|?]; [by left|right; by right].
      * right. by left.
Qed.

Lemma cell_stored (m : gmap string (gmap string nat)) (v : nat) :
  v ∈ concat ((λ row : gmap string nat, (map_to_list row).*2) <$> (map_to_list m).*2)
  ↔ ∃ a b row, m !! a = Some row ∧ row !! b = Some v.
Proof.
  rewrite list_elem_of_In, in_concat. split.
  - intros (l & Hl & Hv). apply list_elem_of_In, list_elem_of_fmap in Hl as (row & -> & Hrow).
    apply list_elem_of_fmap in Hrow as ([a row'] & -> & Ha).
    apply elem_of_map_to_list in Ha.
    apply list_elem_of_In, list_elem_of_fmap in Hv as ([b v'] & -> & Hb).
    apply elem_of_map_to_list in Hb. by exists a, b, row'.
  - intros (a & b & row & Ha & Hb). exists ((map_to_list row).*2).
    split; apply list_elem_of_In.
    + apply list_elem_of_fmap. exists row. split; [done|].
      apply list_elem_of_fmap. exists (a, row). split; [done|].
      by apply elem_of_map_to_list.
    + apply list_elem_of_fmap. exists (b, v). split; [done|].
      by apply elem_of_map_to_list.
Qed.

(** X8. With unique table names, and when no table name and no end of a
    foreign key is a name that every object inherits, the ranking of
    CorrelationView is the list of the filtered tables, sorted by falling
    number of connections.  The connections of a table are the ends of
    the foreign keys inside the filtered set that lie at the table, a key
    from a table to itself counting twice, and its related tables are the
    filtered names whose cell in its matrix row is positive. *)
Theorem correlation_table_stats (toLowerCase : string → string)
    (s : SchemaData) (searchQuery : string) :
  NoDup (name <$> tables s) →
  plain_names (tables s) (foreignKeys s) →
  let ts := correlationTables toLowerCase s searchQuery in
  let M := correlationMatrix toLowerCase s searchQuery in
  let stats := correlationTableStats toLowerCase s searchQuery in
  stats ≡ₚ CorrelationStats.stat_of M <$> ts
  ∧ StronglySorted
      (λ a b, CorrelationStats.connections b ≤ CorrelationStats.connections a) stats
  ∧ ∀ st, st ∈ stats →
      CorrelationStats.table st ∈ ts
      ∧ CorrelationStats.connections st
        = sum_list ((λ k, ends_at (name <$> ts) k (name (CorrelationStats.table st)))
                      <$> foreignKeys s)
      ∧ CorrelationStats.connectedTo st
        = length (List.filter
                    (λ b, 0 <? Correlation.cell M (name (CorrelationStats.table st)) b)
                    (name <$> ts)).
Proof.
  intros Hnd0 _ ts M stats.
  assert (NoDup (name <$> ts)) as Hnd by by apply filter_unique_names.
  assert (stats ≡ₚ CorrelationStats.stat_of M <$> ts) as Hperm.
  { unfold stats, correlationTableStats, CorrelationStats.tableStats.
    by rewrite array_sort_perm. }
  split_and!; [done| |].
  - apply (array_sort_sorted CorrelationStats.connections).
  - intros st Hst. rewrite Hperm in Hst.
    apply list_elem_of_fmap in Hst as (t & -> & Ht).
    split_and!; [done| |].
    + by apply stat_connections.
    + by apply stat_connectedTo.
Qed.

Lemma correlation_table_stats_witness :
  NoDup (name <$> tables shop)
  ∧ plain_names (tables shop) (foreignKeys shop)
  ∧ StronglySorted
      (λ a b, CorrelationStats.connections b ≤ CorrelationStats.connections a)
      (correlationTableStats (λ s, s) shop "order").
Proof.
  assert (NoDup (name <$> tables shop)) as Hnd.
  { apply (bool_decide_unpack _). vm_compute. exact I. }
  assert (plain_names (tables shop) (foreignKeys shop)) as Hp.
  { split; repeat constructor. }
  split_and!; [exact Hnd|exact Hp|].
  exact (proj1 (proj2 (correlation_table_stats (λ s, s) shop "order" Hnd Hp))).
Defined.

(** X9. With unique table names, and when no table name and no end of a
    foreign key is a name that every object inherits, the connections of
    the ranking of CorrelationView add up to twice the number of foreign
    keys whose two tables are both in the filtered set. *)
Theorem correlation_handshake (toLowerCase : string → string)
    (s : SchemaData) (searchQuery : string) :
  NoDup (name <$> tables s) →
  plain_names (tables s) (foreignKeys s) →
  sum_list (CorrelationStats.connections
              <$> correlationTableStats toLowerCase s searchQuery)
  = 2 * length (List.filter
                  (Correlation.inside
                     (name <$> correlationTables toLowerCase s searchQuery))
                  (foreignKeys s)).
Proof.
  intros Hnd0 _. apply stats_total. by apply filter_unique_names.
Qed.

Lemma correlation_handshake_witness :
  NoDup (name <$> tables shop)
  ∧ plain_names (tables shop) (foreignKeys shop)
  ∧ sum_list (CorrelationStats.connections <$> correlationTableStats (λ s, s) shop "order")
    = 2 * length (List.filter
                    (Correlation.inside
                       (name <$> correlationTables (λ s, s) shop "order"))
                    (foreignKeys shop)).
Proof.
  assert (NoDup (name <$> tables shop)) as Hnd.
  { apply (bool_decide_unpack _). vm_compute. exact I. }
  assert (plain_names (tables shop) (foreignKeys shop)) as Hp.
  { split; repeat constructor. }
  split_and!; [exact Hnd|exact Hp|].
  exact (correlation_handshake (λ s, s) shop "order" Hnd Hp).
Defined.

(** X10. When no table name and no end of a foreign key is a name that
    every object inherits, the strongest value of CorrelationView is at
    least 1 and bounds the cell of every pair of filtered tables; it is
    either 1 or the cell of some pair of filtered tables. *)
Theorem correlation_max_val (toLowerCase : string → string)
    (s : SchemaData) (searchQuery : string) :
  plain_names (tables s) (foreignKeys s) →
  let ns := name <$> correlationTables toLowerCase s searchQuery in
  let M := correlationMatrix toLowerCase s searchQuery in
  let mx := correlationMaxVal toLowerCase s searchQuery in
  1 ≤ mx
  ∧ (∀ a b, a ∈ ns → b ∈ ns → Correlation.cell M a b ≤ mx)
  ∧ (mx = 1 ∨ ∃ a b, a ∈ ns ∧ b ∈ ns ∧ Correlation.cell M a b = mx).
Proof.
  intros _ ns M mx. unfold mx, correlationMaxVal, CorrelationStats.maxVal. fold M.
  set (vs := concat _).
  destruct (max_list_bound vs) as (H1 & H2 & H3).
  split_and!; [done| |].
  - intros a b _ _. unfold Correlation.cell.
    destruct (M !! a) as [row|] eqn:Ha; simpl; [|lia].
    destruct (row !! b) as [v|] eqn:Hb; simpl; [|lia].
    apply H2. apply cell_stored. by exists a, b, row.
  - destruct H3 as [?|Hin]; [by left|right].
    apply cell_stored in Hin as (a & b & row & Ha & Hb).
    exists a, b.
    assert (a ∈ ns ∧ b ∈ ns) as [? ?].
    { apply (build_matrix_shape (correlationTables toLowerCase s searchQuery)
               (foreignKeys s) a b).
      fold (correlationMatrix toLowerCase s searchQuery). fold M.
      rewrite Ha. simpl. by rewrite Hb. }
    split_and!; [done|done|].
    unfold Correlation.cell. by rewrite Ha; simpl; rewrite Hb.
Qed.

Lemma correlation_max_val_witness :
  plain_names (tables shop) (foreignKeys shop)
  ∧ 1 ≤ correlationMaxVal (λ s, s) shop ""
  ∧ ∀ a b, a ∈ name <$> correlationTables (λ s, s) shop "" →
           b ∈ name <$> correlationTables (λ s, s) shop "" →
           Correlation.cell (correlationMatrix (λ s, s) shop "") a b
           ≤ correlationMaxVal (λ s, s) shop "".
Proof.
  assert (plain_names (tables shop) (foreignKeys shop)) as Hp.
  { split; repeat constructor. }
  split; [exact Hp|].
  pose proof (correlation_max_val (λ s, s) shop "" Hp) as (H1 & H2 & _).
  split; [exact H1|exact H2].
Defined.

Lemma sum_list_pos {A : Type} (f : A → nat) (l : list A) :
  0 < sum_list (f <$> l) ↔ ∃ x, x ∈ l ∧ 0 < f x.
Proof.
  induction l as [|x l IH]; csimpl.
  - split; [lia|]. intros (x & Hx & _). by apply not_elem_of_nil in Hx.
  - split.
    + intros Hpos. destruct (decide (0 < f x)) as [?|?].
      * exists x. split; [by left|done].
      * destruct IH as [IH _]. destruct IH as (y & Hy & ?); [lia|].
        exists y. split; [by right|done].
    + intros (y & [->|Hy]%elem_of_cons & Hpos); [lia|].
      assert (0 < sum_list (f <$> l)); [|lia]. apply IH. eauto.
Qed.

Lemma cell_positive (ts : list TableInfo) (fks : list ForeignKey) (a b : string) :
  0 < Correlation.cell (Correlation.build_matrix ts fks) a b
  ↔ ∃ k, k ∈ fks ∧ Correlation.inside (name <$> ts) k = true
         ∧ ((sourceTable k = a ∧ targetTable k = b)
            ∨ (targetTable k = a ∧ sourceTable k = b)).
Proof.
  rewrite build_matrix_cell, sum_list_pos. unfold delta. split.
  - intros (k & Hk & Hpos). exists k. split; [done|].
    destruct (Correlation.inside _ k); [|lia]. split; [done|].
    repeat case_bool_decide; try lia; tauto.
  - intros (k & Hk & Hin & Hends). exists k. split; [done|]. rewrite Hin.
    destruct Hends as [H|H].
    + rewrite (bool_decide_eq_true_2 _ H). lia.
    + rewrite (bool_decide_eq_true_2 (targetTable k = a ∧ sourceTable k = b) H). lia.
Qed.

(** X11. When no table name, no end of a foreign key and not the selected
    name is a name that every object inherits, the tables listed for the
    selected table in CorrelationView are the filtered tables other than
    the selected one that a foreign key inside the filtered set joins to
    it, in either direction; an empty selection lists nothing. *)
Theorem selected_connections_are_neighbours (toLowerCase : string → string)
    (s : SchemaData) (searchQuery selected : string) (t : TableInfo) :
  plain_names (tables s) (foreignKeys s) →
  inherited selected = false →
  let ts := correlationTables toLowerCase s searchQuery in
  t ∈ correlationSelected toLowerCase s searchQuery (Some selected)
  ↔ selected ≠ "" ∧ t ∈ ts ∧ name t ≠ selected
    ∧ ∃ k, k ∈ foreignKeys s
           ∧ Correlation.inside (name <$> ts) k = true
           ∧ ((sourceTable k = selected ∧ targetTable k = name t)
              ∨ (targetTable k = selected ∧ sourceTable k = name t)).
Proof.
  intros _ _ ts. unfold correlationSelected, CorrelationStats.selectedConnections.
  fold ts. unfold correlationMatrix. fold ts. simpl.
  destruct (String.eqb_spec selected "") as [->|Hsel]; simpl.
  - split; [by intros ?%not_elem_of_nil|]. by intros [? _].
  - rewrite list_elem_of_In, filter_In, <- list_elem_of_In, andb_true_iff, negb_true_iff.
    rewrite Nat.ltb_lt, cell_positive.
    destruct (String.eqb_spec (name t) selected); naive_solver.
Qed.

Lemma selected_connections_are_neighbours_witness :
  plain_names (tables shop) (foreignKeys shop)
  ∧ inherited "orders" = false
  ∧ (tbl "customers" ∈ correlationSelected (λ s, s) shop "" (Some "orders")
     ↔ "orders" ≠ "" ∧ tbl "customers" ∈ correlationTables (λ s, s) shop ""
       ∧ name (tbl "customers") ≠ "orders"
       ∧ ∃ k, k ∈ foreignKeys shop
              ∧ Correlation.inside
                  (name <$> correlationTables (λ s, s) shop "") k = true
              ∧ ((sourceTable k = "orders" ∧ targetTable k = name (tbl "customers"))
                 ∨ (targetTable k = "orders"
                    ∧ sourceTable k = name (tbl "customers")))).
Proof.
  assert (plain_names (tables shop) (foreignKeys shop)) as Hp.
  { split; repeat constructor. }
  assert (inherited "orders" = false) as Hsel by reflexivity.
  split_and!; [exact Hp|exact Hsel|].
  exact (selected_connections_are_neighbours (λ s, s) shop "" "orders"
           (tbl "customers") Hp Hsel).
Defined.

Lemma colon_free_cons (c : Ascii.ascii) (s : string) :
  includes (String c s) ":" = false →
  String c "" ≠ ":" ∧ includes s ":" = false.
Proof.
  cbn [includes String.prefix]. intros H. apply orb_false_iff in H as [Hc Hs].
  split; [|done]. intros [= ->]. simpl in Hc. by destruct s.
Qed.

Lemma pair_key_inj (a b a' b' : string) :
  includes a ":" = false → includes a' ":" = false →
  CorrelationStats.pair_key a b = CorrelationStats.pair_key a' b' →
  a = a' ∧ b = b'.
Proof.
  unfold CorrelationStats.pair_key. revert a'.
  assert (∀ c s t, (String c s ++ t)%string = String c (s ++ t)%string) as Hcons
    by done.
  assert (∀ t, ("" ++ t)%string = t) as Hnil by done.
  induction a as [|c a IH]; intros [|c' a'] Ha Ha' Heq;
    rewrite ?Hcons, ?Hnil in Heq.
  - by injection Heq as ->.
  - injection Heq as <- _. by apply colon_free_cons in Ha' as [? _].
  - injection Heq as -> _. by apply colon_free_cons in Ha as [? _].
  - injection Heq as -> Heq.
    apply colon_free_cons in Ha as [_ Ha], Ha' as [_ Ha'].
    destruct (IH a' Ha Ha' Heq) as [-> ->]. done.
Qed.

Section DetailFacts.
Import Correlation CorrelationStats.
Variable ts : list TableInfo.
Hypothesis no_colon : ∀ t, t ∈ ts → includes (name t) ":" = false.

Lemma push_detail_lookup cd key d key' :
  default [] (push_detail cd key d !! key')
  = default [] (cd !! key') ++ (if decide (key = key') then [d] else []).
Proof.
  unfold push_detail. destruct (decide (key = key')) as [->|Hne].
  - by rewrite lookup_insert_eq.
  - rewrite lookup_insert_ne by done. by rewrite app_nil_r.
Qed.

Lemma details_matrix (fks : list ForeignKey) :
  (build_details ts fks).1 = build_matrix ts fks.
Proof.
  unfold build_details, build_matrix.
  induction fks as [|k fks IH] using rev_ind; [done|].
  rewrite !foldl_snoc, <- IH.
  unfold details_add, matrix_add.
  destruct (_ !! sourceTable k); [|done]. by case_bool_decide.
Qed.

Lemma details_lookup (fks : list ForeignKey) (a b : string) :
  a ∈ name <$> ts →
  default [] ((build_details ts fks).2 !! pair_key a b)
  = details_between (name <$> ts) fks a b.
Proof.
  intros Ha.
  assert (includes a ":" = false) as Hca.
  { apply list_elem_of_fmap in Ha as (t & -> & Ht). by apply no_colon. }
  induction fks as [|k fks IH] using rev_ind.
  - unfold build_details. simpl. by rewrite lookup_empty.
  - unfold details_between in *. rewrite flat_map_app. simpl. rewrite app_nil_r.
    rewrite <- IH. clear IH.
    pose proof (details_matrix fks) as Hm.
    unfold build_details in *. rewrite foldl_snoc.
    set (st := foldl details_add (matrix_init ts, ∅) fks) in *.
    pose proof (build_matrix_shape ts fks (sourceTable k) (targetTable k)) as Hshape.
    rewrite <- Hm in Hshape. unfold details_add, inside.
    destruct (st.1 !! sourceTable k) as [row|] eqn:Hrow; simpl in Hshape.
    + case_bool_decide as Hcell.
      * apply Hshape in Hcell as [Hs Ht].
        rewrite !bool_decide_eq_true_2 by done. simpl.
        rewrite !push_detail_lookup, <- app_assoc. do 2 f_equal.
        -- assert (includes (sourceTable k) ":" = false) as Hcs.
           { apply list_elem_of_fmap in Hs as (t & -> & Hin). by apply no_colon. }
           case_decide as Hkey; case_bool_decide as Hends; try done.
           ++ apply pair_key_inj in Hkey; done.
           ++ destruct Hends as [He1 He2]. by rewrite He1, He2 in Hkey.
        -- assert (includes (targetTable k) ":" = false) as Hct.
           { apply list_elem_of_fmap in Ht as (t & -> & Hin). by apply no_colon. }
           case_decide as Hkey; case_bool_decide as Hends; try done.
           ++ apply pair_key_inj in Hkey; done.
           ++ destruct Hends as [He1 He2]. by rewrite He1, He2 in Hkey.
      * assert (¬ (sourceTable k ∈ name <$> ts ∧ targetTable k ∈ name <$> ts)) as Hout
          by (intros ?; by apply Hcell, Hshape).
        destruct (decide (sourceTable k ∈ name <$> ts)),
                 (decide (targetTable k ∈ name <$> ts));
          rewrite ?bool_decide_eq_true_2, ?bool_decide_eq_false_2 by done;
          simpl; rewrite ?app_nil_r; tauto.
    + assert (sourceTable k ∉ name <$> ts) as Hout.
      { intros Hs. destruct Hshape as [Hshape _]. 
        pose proof (build_matrix_shape ts fks (sourceTable k) (sourceTable k)) as Hsh.
        rewrite <- Hm, Hrow in Hsh. simpl in Hsh. destruct Hsh as [_ [? ?]]; done. }
      rewrite (bool_decide_eq_false_2 _ Hout). simpl. by rewrite app_nil_r.
Qed.

Lemma details_between_length (fks : list ForeignKey) (a b : string) :
  length (details_between (name <$> ts) fks a b)
  = cell (build_matrix ts fks) a b.
Proof.
  rewrite build_matrix_cell. unfold details_between, delta.
  induction fks as [|k fks IH]; [done|]. csimpl.
  rewrite length_app, IH. f_equal.
  destruct (inside (name <$> ts) k); [|done].
  rewrite length_app. by repeat case_bool_decide.
Qed.
End DetailFacts.

(** X12. When no filtered table name contains a colon, and no table name
    and no end of a foreign key is a name that every object inherits, the
    tooltip lines stored in CorrelationView under the key of a pair of
    filtered tables are the foreign keys inside the filtered set between
    the two, in foreign-key order and in both directions, and their number
    is the cell of the pair in the matrix. *)
Theorem connection_details_match_cells (toLowerCase : string → string)
    (s : SchemaData) (searchQuery : string) (a b : string) :
  plain_names (tables s) (foreignKeys s) →
  let ts := correlationTables toLowerCase s searchQuery in
  (∀ t, t ∈ ts → includes (name t) ":" = false) →
  a ∈ name <$> ts →
  b ∈ name <$> ts →
  default [] (correlationDetails toLowerCase s searchQuery
                !! CorrelationStats.pair_key a b)
  = details_between (name <$> ts) (foreignKeys s) a b
  ∧ length (default [] (correlationDetails toLowerCase s searchQuery
                          !! CorrelationStats.pair_key a b))
    = Correlation.cell (correlationMatrix toLowerCase s searchQuery) a b.
Proof.
  intros _ ts Hcolon Ha _. unfold correlationDetails, correlationMatrix. fold ts.
  rewrite (details_lookup ts Hcolon) by done.
  split; [done|]. apply details_between_length.
Qed.

Lemma connection_details_match_cells_witness :
  plain_names (tables shop) (foreignKeys shop)
  ∧ (∀ t, t ∈ correlationTables (λ s, s) shop "" → includes (name t) ":" = false)
  ∧ "orders" ∈ name <$> correlationTables (λ s, s) shop ""
  ∧ "customers" ∈ name <$> correlationTables (λ s, s) shop ""
  ∧ length (default [] (correlationDetails (λ s, s) shop ""
                          !! CorrelationStats.pair_key "orders" "customers"))
    = Correlation.cell (correlationMatrix (λ s, s) shop "") "orders" "customers".
Proof.
  assert (∀ t, t ∈ correlationTables (λ s, s) shop "" → includes (name t) ":" = false)
    as Hcolon.
  { intros t Ht. vm_compute in Ht.
    repeat (apply elem_of_cons in Ht as [->|Ht]; [vm_compute; reflexivity|]).
    by apply not_elem_of_nil in Ht. }
  assert ("orders" ∈ name <$> correlationTables (λ s, s) shop "") as Ha.
  { apply (bool_decide_unpack _). vm_compute. exact I. }
  assert ("customers" ∈ name <$> correlationTables (λ s, s) shop "") as Hb.
  { apply (bool_decide_unpack _). vm_compute. exact I. }
  assert (plain_names (tables shop) (foreignKeys shop)) as Hp.
  { split; repeat constructor. }
  split_and!; [exact Hp|exact Hcolon|exact Ha|exact Hb|].
  exact (proj2 (connection_details_match_cells (λ s, s) shop "" "orders" "customers"
                  Hp Hcolon Ha Hb)).
Defined.

(** A colon in a table name lets two cells share one tooltip key: the
    foreign key from [a:b] to [c] is also listed for the cell of [a] and
    [b:c], which holds 0. *)
Example colon_names_share_details :
  let ts := [tbl "a:b"; tbl "c"; tbl "a"; tbl "b:c"] in
  let r := CorrelationStats.build_details ts [fk "a:b" "c"] in
  length (default [] (r.2 !! CorrelationStats.pair_key "a" "b:c")) = 1
  ∧ Correlation.cell r.1 "a" "b:c" = 0.
Proof. vm_compute. done. Qed.

(** ** Connection counts and links of [NodeLinkView] *)

Section ConnCountFacts.
Import NodeLink.
Variable ts : list TableInfo.



End ConnCountFacts.







Section SimulationIdentity.
Import NodeLink.










End SimulationIdentity.






(** ** Node and edge selection of [SchemaFlow] *)

Lemma adjacent_snoc fks k x y :
  adjacent (fks ++ [k]) x y
  ↔ adjacent fks x y
    ∨ (sourceTable k = x ∧ targetTable k = y)
    ∨ (targetTable k = x ∧ sourceTable k = y).
Proof. unfold adjacent. rewrite !depends_on_snoc. tauto. Qed.

Lemma add_neighbours_spec (fks : list ForeignKey) (R : gset string) (t n : string) :
  n ∈ SchemaFlow.add_neighbours fks R t ↔ n ∈ R ∨ adjacent fks t n.
Proof.
  unfold SchemaFlow.add_neighbours. induction fks as [|k fks IH] using rev_ind.
  - simpl. split; [by left|]. intros [?|[(k & Hk & _)|(k & Hk & _)]]; [done|..];
      by apply not_elem_of_nil in Hk.
  - rewrite foldl_snoc, adjacent_snoc. unfold SchemaFlow.related_step at 1. cbv zeta.
    destruct (String.eqb_spec (sourceTable k) t) as [Hs|Hs];
      destruct (String.eqb_spec (targetTable k) t) as [Ht|Ht];
      rewrite ?elem_of_union, ?elem_of_singleton, IH; naive_solver.
Qed.

Lemma add_all_neighbours_spec (fks : list ForeignKey) (l : list string) :
  ∀ (R : gset string) (n : string),
    n ∈ foldl (SchemaFlow.add_neighbours fks) R l
    ↔ n ∈ R ∨ ∃ t, t ∈ l ∧ adjacent fks t n.
Proof.
  induction l as [|t l IH]; intros R n; simpl.
  - split; [by left|]. intros [?|(t & Ht & _)]; [done|]. by apply not_elem_of_nil in Ht.
  - rewrite IH, add_neighbours_spec. split.
    + intros [[?|?]|(t' & Ht' & ?)]; [by left|right..].
      * exists t. split; [by left|done].
      * exists t'. split; [by right|done].
    + intros [?|(t' & [->|Ht']%elem_of_cons & ?)]; [by left; left|by left; right|].
      right. by exists t'.
Qed.

Lemma related_of_spec (fks : list ForeignKey) (sel n : string) :
  n ∈ SchemaFlow.related_of fks sel ↔ within_two fks sel n.
Proof.
  unfold SchemaFlow.related_of, within_two. cbv zeta.
  rewrite add_all_neighbours_spec, add_neighbours_spec, elem_of_singleton.
  split.
  - intros [[?|?]|(t & Ht & Hadj)]; [by left|by right; left|].
    apply elem_of_elements, add_neighbours_spec in Ht as [Ht|Ht].
    + apply elem_of_singleton in Ht as ->. by right; left.
    + right; right. by exists t.
  - intros [?|[?|(m & Hm & Hadj)]]; [by left; left|by left; right|].
    right. exists m. split; [|done].
    apply elem_of_elements, add_neighbours_spec. by right.
Qed.

(** X16. In the drill view with a selected table, SchemaFlow shows the
    tables of the schema that are at most two foreign keys away from the
    selected one, in schema order and whatever the search query is, and
    the foreign keys whose two tables are both within that distance. *)
Theorem drill_shows_two_steps (toLowerCase : string → string)
    (dagre_node : @Layout.Graph → string → Layout.Label)
    (s : SchemaData) (searchQuery selected : string) (highlightedTable : option string) :
  selected ≠ "" →
  let r := schemaFlowElements toLowerCase dagre_node s SchemaFlow.relationship_drill
             searchQuery highlightedTable (Some selected) in
  Layout.id <$> r.1
  = name <$> List.filter
               (λ t, bool_decide (name t ∈ SchemaFlow.related_of (foreignKeys s) selected))
               (tables s)
  ∧ (∀ n, n ∈ Layout.id <$> r.1
          ↔ n ∈ name <$> tables s ∧ within_two (foreignKeys s) selected n)
  ∧ (∀ a b, (a, b) ∈ (λ e, (Layout.source e, Layout.target e)) <$> r.2
            ↔ depends_on (foreignKeys s) a b
              ∧ within_two (foreignKeys s) selected a
              ∧ within_two (foreignKeys s) selected b).
Proof.
  intros Hsel r.
  assert (truthy (Some selected) = true) as Htruthy.
  { simpl. by destruct (String.eqb_spec selected ""). }
  unfold r, schemaFlowElements, SchemaFlow.selection. rewrite Htruthy.
  cbn [SchemaFlow.is_drill andb default fst snd Layout.getLayoutedElements].
  set (related := SchemaFlow.related_of (foreignKeys s) selected).
  assert (∀ l : list TableInfo,
    Layout.id <$> map (Layout.relocate dagre_node
        (Layout.build_graph
           (map (SchemaFlow.make_node SchemaFlow.relationship_drill highlightedTable
                   (Some selected))
              (List.filter (λ t, bool_decide (name t ∈ related)) (tables s)))
           (map (SchemaFlow.make_edge highlightedTable)
              (List.filter (λ k, bool_decide (sourceTable k ∈ related)
                                 && bool_decide (targetTable k ∈ related))
                 (foreignKeys s)))
           Layout.LR 280 200) 280 200)
      (map (SchemaFlow.make_node SchemaFlow.relationship_drill highlightedTable
              (Some selected)) l)
    = name <$> l) as Hids.
  { intros l. change (map ?f ?l) with (f <$> l). rewrite <- !list_fmap_compose.
    by apply list_fmap_ext. }
  split_and!.
  - apply Hids.
  - intros n. rewrite Hids, !list_elem_of_fmap. split.
    + intros (t & -> & Ht). apply list_elem_of_In, filter_In in Ht as [Ht Hrel].
      apply bool_decide_eq_true_1, related_of_spec in Hrel.
      split; [|done]. exists t. split; [done|]. by apply list_elem_of_In.
    + intros [(t & -> & Ht) Hrel]. exists t. split; [done|].
      apply list_elem_of_In, filter_In. split; [by apply list_elem_of_In|].
      by apply bool_decide_eq_true_2, related_of_spec.
  - intros a b. change (map ?f ?l) with (f <$> l). rewrite <- list_fmap_compose.
    rewrite list_elem_of_fmap. split.
    + intros (k & [= -> ->] & Hk). apply list_elem_of_In, filter_In in Hk as [Hk Hrel].
      apply andb_true_iff in Hrel as [Hs Ht].
      apply bool_decide_eq_true_1, related_of_spec in Hs, Ht.
      split_and!; [|done|done]. exists k. split; [by apply list_elem_of_In|done].
    + intros ((k & Hk & <- & <-) & Hs & Ht). exists k. split; [done|].
      apply list_elem_of_In, filter_In. split; [by apply list_elem_of_In|].
      apply andb_true_iff. split; by apply bool_decide_eq_true_2, related_of_spec.
Qed.

Lemma drill_shows_two_steps_witness :
  "orders" ≠ ""
  ∧ Layout.id <$> (schemaFlowElements (λ s, s)
                     (λ _ _, {| Layout.lx := 0; Layout.ly := 0;
                                Layout.lwidth := 0; Layout.lheight := 0 |})
                     shop SchemaFlow.relationship_drill "zzz" None (Some "orders")).1
    = ["customers"; "order_items"; "orders"].
Proof.
  assert ("orders" ≠ "") as Hsel by discriminate.
  split; [exact Hsel|].
  etrans;
    [exact (proj1 (drill_shows_two_steps (λ s, s)
                     (λ _ _, {| Layout.lx := 0; Layout.ly := 0;
                                Layout.lwidth := 0; Layout.lheight := 0 |})
                     shop "zzz" "orders" None Hsel))|].
  vm_compute. reflexivity.
Defined.

(** ** Search inside the groups of [GroupedView] *)

Lemma filter_concat_perm {A : Type} (p : A → bool) (ls : list (list A)) (l : list A) :
  concat ls ≡ₚ l → concat (List.filter p <$> ls) ≡ₚ List.filter p l.
Proof.
  intros Hperm.
  assert (concat (List.filter p <$> ls) = List.filter p (concat ls)) as ->.
  { clear. induction ls as [|x ls IH]; [done|]. csimpl.
    by rewrite List.filter_app, IH. }
  clear -Hperm. induction Hperm as [|x l l' _ IH|x y l|l l' l'' _ IH1 _ IH2]; simpl.
  - done.
  - destruct (p x); by rewrite IH.
  - destruct (p x), (p y); try done. apply perm_swap.
  - by rewrite IH1.
Qed.

(** X17. When no table and no foreign key end has an empty name or the
    name of a member that every object inherits, the groups that
    GroupedView shows for a search query hold together exactly
    the tables that match the query; no shown group is empty, and each is
    a group of the unfiltered view cut down to its matching tables. *)
Theorem filtered_groups_show_matches (toLowerCase : string → string)
    (s : SchemaData) (searchQuery : string) :
  "" ∉ name <$> tables s →
  (∀ k, k ∈ foreignKeys s → sourceTable k ≠ "" ∧ targetTable k ≠ "") →
  plain_names (tables s) (foreignKeys s) →
  ∃ groups,
    groupedGroups s = Some groups
    ∧ let shown := filteredGroups toLowerCase groups searchQuery in
      concat (Grouped.cluster_tables <$> shown)
      ≡ₚ filteredTables toLowerCase s searchQuery
      ∧ Forall (λ g, Grouped.cluster_tables g ≠ []) shown
      ∧ Forall (λ g, ∃ g0, g0 ∈ groups
                  ∧ Grouped.cluster_name g = Grouped.cluster_name g0
                  ∧ Grouped.cluster_tables g
                    = List.filter (matchesSearch toLowerCase searchQuery)
                        (Grouped.cluster_tables g0)) shown.
Proof.
  intros Hne Hfk Hpl.
  destruct (grouped_clusters (tables s) (foreignKeys s) Hne Hpl Hfk)
    as (clusters & rep & Hrun & (Hperm & _ & _) & _).
  unfold groupedGroups, Grouped.groups_within. rewrite Hrun.
  eexists. split; [done|]. cbv zeta.
  set (groups := array_sort _ _).
  assert (concat (Grouped.cluster_tables <$> groups) ≡ₚ tables s) as Hall.
  { unfold groups. rewrite array_sort_perm, <- list_fmap_compose.
    rewrite <- Hperm. apply concat_perm.
    rewrite (list_fmap_ext (Grouped.cluster_tables ∘ Grouped.make_cluster) snd
               (JsObject.entries clusters)) by done.
    by rewrite entries_perm. }
  unfold filteredGroups. split_and!.
  - rewrite (concat_nonempty Grouped.cluster_tables).
    change (map ?f ?l) with (f <$> l). rewrite <- list_fmap_compose.
    rewrite (list_fmap_ext _ (List.filter (matchesSearch toLowerCase searchQuery)
                                ∘ Grouped.cluster_tables) groups) by done.
    rewrite list_fmap_compose. by apply filter_concat_perm.
  - apply Forall_forall. intros g Hg. apply list_elem_of_In, filter_In in Hg as [_ Hg].
    destruct (Grouped.cluster_tables g); done.
  - apply Forall_forall. intros g Hg. apply list_elem_of_In, filter_In in Hg as [Hg _].
    apply in_map_iff in Hg as (g0 & <- & Hg0). exists g0.
    split; [by apply list_elem_of_In|done].
Qed.

Lemma filtered_groups_show_matches_witness :
  ("" ∉ name <$> tables shop)
  ∧ (∀ k, k ∈ foreignKeys shop → sourceTable k ≠ "" ∧ targetTable k ≠ "")
  ∧ plain_names (tables shop) (foreignKeys shop)
  ∧ ∃ groups,
      groupedGroups shop = Some groups
      ∧ concat (Grouped.cluster_tables <$> filteredGroups (λ s, s) groups "order")
        ≡ₚ filteredTables (λ s, s) shop "order".
Proof.
  assert ("" ∉ name <$> tables shop) as Hne.
  { apply (bool_decide_unpack _). vm_compute. exact I. }
  assert (∀ k, k ∈ foreignKeys shop → sourceTable k ≠ "" ∧ targetTable k ≠ "") as Hfk.
  { intros k Hk.
    repeat (apply elem_of_cons in Hk as [->|Hk]; [split; discriminate|]).
    by apply not_elem_of_nil in Hk. }
  assert (plain_names (tables shop) (foreignKeys shop)) as Hpl.
  { split; repeat constructor. }
  split_and!; [exact Hne|exact Hfk|exact Hpl|].
  destruct (filtered_groups_show_matches (λ s, s) shop "order" Hne Hfk Hpl)
    as (groups & Hrun & Hshown & _).
  exists groups. split; [exact Hrun|exact Hshown].
Defined.

(** ** Lane names of [SwimlaneView] *)

Lemma existsb_perm {A : Type} (p : A → bool) (l l' : list A) :
  l ≡ₚ l' → existsb p l = existsb p l'.
Proof.
  induction 1 as [|x l l' _ IH|x y l|l l' l'' _ IH1 _ IH2]; simpl.
  - done.
  - by rewrite IH.
  - by destruct (p x), (p y).
  - by rewrite IH1.
Qed.

(** X18. The name of a swim lane does not depend on the order of its
    members.  It is one of the seven domain labels, the root, or the root
    followed by the word Domain; a member whose lower-case name contains
    the word user makes it the users label. *)
Theorem lane_name_ignores_order (toLowerCase : string → string) (root : string)
    (members members' : list TableInfo) :
  members ≡ₚ members' →
  LaneName.getLaneName toLowerCase root members
  = LaneName.getLaneName toLowerCase root members'
  ∧ (LaneName.getLaneName toLowerCase root members ∈ snd <$> LaneName.patterns
     ∨ LaneName.getLaneName toLowerCase root members = root
     ∨ LaneName.getLaneName toLowerCase root members = (root ++ " Domain")%string)
  ∧ (∀ m, m ∈ members → includes (toLowerCase (name m)) "user" = true →
          LaneName.getLaneName toLowerCase root members = "Users & Auth").
Proof.
  intros Hperm. split_and!.
  - unfold LaneName.getLaneName. cbv zeta.
    rewrite (Permutation_length Hperm).
    assert (∀ p, LaneName.matches (map (λ m, toLowerCase (name m)) members) p
                 = LaneName.matches (map (λ m, toLowerCase (name m)) members') p) as Hm.
    { intros p. apply existsb_perm. by apply Permutation_map. }
    assert (List.find (LaneName.matches (map (λ m, toLowerCase (name m)) members))
              LaneName.patterns
            = List.find (LaneName.matches (map (λ m, toLowerCase (name m)) members'))
                LaneName.patterns) as ->; [|done].
    generalize LaneName.patterns. intros ps. induction ps as [|p ps IH]; [done|].
    simpl. by rewrite Hm, IH.
  - unfold LaneName.getLaneName. cbv zeta.
    destruct (List.find _ _) as [p|] eqn:Hfind.
    + left. apply find_some in Hfind as [Hin _].
      apply list_elem_of_fmap. exists p. split; [done|]. by apply list_elem_of_In.
    + right. destruct (length members =? 1); [by left|by right].
  - intros m Hm Huser. unfold LaneName.getLaneName. cbv zeta.
    assert (LaneName.matches (map (λ m, toLowerCase (name m)) members)
              (["user"; "profile"; "auth"; "account"; "role"; "permission"],
               "Users & Auth") = true) as Hmatch.
    { unfold LaneName.matches. apply existsb_exists.
      exists (toLowerCase (name m)). split.
      - apply in_map_iff. exists m. split; [done|]. by apply list_elem_of_In.
      - simpl. by rewrite Huser. }
    unfold LaneName.patterns. cbn [List.find]. by rewrite Hmatch.
Qed.

Lemma lane_name_ignores_order_witness :
  [tbl "posts"; tbl "users"] ≡ₚ [tbl "users"; tbl "posts"]
  ∧ LaneName.getLaneName (λ s, s) "posts" [tbl "posts"; tbl "users"]
    = LaneName.getLaneName (λ s, s) "posts" [tbl "users"; tbl "posts"].
Proof.
  assert ([tbl "posts"; tbl "users"] ≡ₚ [tbl "users"; tbl "posts"]) as Hperm
    by apply perm_swap.
  split; [exact Hperm|].
  exact (proj1 (lane_name_ignores_order (λ s, s) "posts" _ _ Hperm)).
Defined.

(** ** Schema introspection ([parseOpenApiSpec]) *)

Section ParserFacts.
Import Introspection.
Variable fkMatch : string → option (string * string).
Variable localeCompare : string → string → Z.

Lemma table_step_tables (st : State) (e : string * TableDef) :
  name <$> st_tables (table_step fkMatch localeCompare st e)
  = (name <$> st_tables st) ++ (if String.prefix "_" e.1 then [] else [e.1]).
Proof.
  unfold table_step. destruct (String.prefix "_" e.1); simpl.
  - by rewrite app_nil_r.
  - by rewrite fmap_app.
Qed.

Lemma parsed_table_names (l : list (string * TableDef)) : ∀ st,
  name <$> st_tables (foldl (table_step fkMatch localeCompare) st l)
  = (name <$> st_tables st)
    ++ List.filter (λ n, negb (String.prefix "_" n)) l.*1.
Proof.
  induction l as [|e l IH]; intros st; simpl; [by rewrite app_nil_r|].
  rewrite IH, table_step_tables. destruct (String.prefix "_" e.1); simpl.
  - by rewrite app_nil_r.
  - by rewrite <- app_assoc.
Qed.

Lemma column_cmp_after (x y : ColumnInfo) :
  (0 < column_cmp localeCompare x y)%Z → key_order y x.
Proof.
  unfold column_cmp, key_order.
  destruct (isPrimaryKey x), (isPrimaryKey y), (isForeignKey x), (isForeignKey y);
    simpl; intros; split; intros; try done; lia.
Qed.

Lemma column_cmp_before (x y : ColumnInfo) :
  ¬ (0 < column_cmp localeCompare x y)%Z → key_order x y.
Proof.
  unfold column_cmp, key_order.
  destruct (isPrimaryKey x), (isPrimaryKey y), (isForeignKey x), (isForeignKey y);
    simpl; intros; split; intros; try done; lia.
Qed.

Lemma key_order_trans (a b c : ColumnInfo) :
  key_order a b → key_order b c → key_order a c.
Proof.
  unfold key_order.
  destruct (isPrimaryKey a), (isPrimaryKey b), (isPrimaryKey c),
           (isForeignKey a), (isForeignKey b), (isForeignKey c); naive_solver.
Qed.

Lemma columns_sorted (l : list ColumnInfo) :
  StronglySorted key_order (array_sort (column_cmp localeCompare) l).
Proof.
  induction l as [|x l IH]; [constructor|]. cbn [array_sort foldr].
  fold (array_sort (column_cmp localeCompare) l).
  generalize dependent (array_sort (column_cmp localeCompare) l). clear l.
  intros l Hs. induction Hs as [|y l Hs IH Hall]; simpl.
  - repeat constructor.
  - destruct (Z.ltb_spec 0 (column_cmp localeCompare x y)) as [Hgt|Hle].
    + constructor; [done|].
      rewrite (sort_insert_perm (column_cmp localeCompare) x l).
      constructor; [by apply column_cmp_after|done].
    + assert (key_order x y) as Hxy by (apply column_cmp_before; lia).
      constructor; [by constructor|]. constructor; [done|].
      eapply Forall_impl; [exact Hall|]. intros z Hyz. by eapply key_order_trans.
Qed.


Lemma note_fk_spec (tn cn : string) (cd : ColDef) (fks : list ForeignKey)
    (cols : list ColumnInfo) (rq : list string) :
  NoDup (fkKey <$> fks) →
  let r := note_fk fkMatch tn cn cd (fks, list_to_set (fkKey <$> fks)) in
  r.2 = list_to_set (fkKey <$> r.1)
  ∧ NoDup (fkKey <$> r.1)
  ∧ ∃ new, r.1 = fks ++ new
           ∧ Forall (column_backed tn (cols ++ [column_of fkMatch tn rq cn cd])) new.
Proof.
  intros Hnd. unfold note_fk.
  destruct (description cd ≫= fkMatch) as [[t c]|] eqn:Hm; cbv zeta.
  - cbn [fst snd]. case_bool_decide as Hin; cbn [fst snd].
    + split_and!; [done..|]. exists []. by rewrite app_nil_r.
    + split_and!.
      * rewrite fmap_app, list_to_set_app_L. simpl. set_solver.
      * rewrite fmap_app. apply NoDup_app. split_and!; [done| |by apply NoDup_singleton].
        intros x Hx Hx'. apply list_elem_of_singleton in Hx' as ->.
        apply Hin. by apply elem_of_list_to_set.
      * eexists [_]. split; [done|]. constructor; [|done].
        split; [done|]. exists (column_of fkMatch tn rq cn cd).
        split; [apply elem_of_app; right; by left|].
        unfold column_of. cbv zeta. simpl. rewrite Hm. by split_and!.
  - split_and!; [done..|]. exists []. by rewrite app_nil_r.
Qed.

Lemma column_backed_mono (tn : string) (cols cols' : list ColumnInfo) (k : ForeignKey) :
  (∀ c, c ∈ cols → c ∈ cols') → column_backed tn cols k → column_backed tn cols' k.
Proof. intros Hsub (? & c & ? & ?). split; [done|]. exists c. split; [by apply Hsub|done]. Qed.

Lemma column_loop (tn : string) (rq : list string) (l : list (string * ColDef)) :
  ∀ (cols : list ColumnInfo) (fks : list ForeignKey),
    NoDup (fkKey <$> fks) →
    let r := foldl (column_step fkMatch tn rq)
                   (cols, (fks, list_to_set (fkKey <$> fks))) l in
    r.2.2 = list_to_set (fkKey <$> r.2.1)
    ∧ NoDup (fkKey <$> r.2.1)
    ∧ (∀ c, c ∈ cols → c ∈ r.1)
    ∧ ∃ new, r.2.1 = fks ++ new ∧ Forall (column_backed tn r.1) new.
Proof.
  induction l as [|[cn cd] l IH]; intros cols fks Hnd; cbn zeta.
  - simpl. split_and!; [done..|]. exists []. by rewrite app_nil_r.
  - destruct (note_fk_spec tn cn cd fks cols rq Hnd) as (Hset & Hnd' & new & Hnew & Hb).
    cbn zeta in Hset, Hnd', Hnew, Hb.
    destruct (note_fk fkMatch tn cn cd (fks, list_to_set (fkKey <$> fks)))
      as [fks1 set1] eqn:Hnote.
    cbn [fst snd] in Hset, Hnd', Hnew, Hb. subst set1.
    cbn [foldl].
    assert (column_step fkMatch tn rq (cols, (fks, list_to_set (fkKey <$> fks))) (cn, cd)
            = (cols ++ [column_of fkMatch tn rq cn cd],
               (fks1, list_to_set (fkKey <$> fks1)))) as ->.
    { unfold column_step. cbn [fst snd]. by rewrite Hnote. }
    destruct (IH (cols ++ [column_of fkMatch tn rq cn cd]) fks1 Hnd')
      as (Hset2 & Hnd2 & Hsub & new2 & Hnew2 & Hb2).
    cbn zeta in Hset2, Hnd2, Hsub, Hnew2, Hb2.
    split_and!; [done|done| |].
    + intros c Hc. apply Hsub. apply elem_of_app. by left.
    + exists (new ++ new2). split; [by rewrite Hnew2, Hnew, app_assoc|].
      apply Forall_app. split; [|done].
      eapply Forall_impl; [exact Hb|]. intros k. by apply column_backed_mono.
Qed.

Lemma backed_mono (ts ts' : list TableInfo) (k : ForeignKey) :
  (∀ t, t ∈ ts → t ∈ ts') → backed ts k → backed ts' k.
Proof.
  intros Hsub (t & c & Ht & ?). exists t, c. split; [by apply Hsub|done].
Qed.

Lemma table_step_inv (st : State) (e : string * TableDef) :
  parser_inv localeCompare st →
  parser_inv localeCompare (table_step fkMatch localeCompare st e).
Proof.
  intros (Hb & Hnd & Hset & Hts). unfold table_step.
  destruct (String.prefix "_" e.1) eqn:Hprefix; [done|]. cbv zeta.
  rewrite Hset.
  destruct (column_loop e.1 (required e.2) (JsObject.entries (properties e.2))
              [] (st_foreignKeys st) Hnd) as (Hset' & Hnd' & _ & new & Hnew & Hb').
  cbn zeta in Hset', Hnd', Hnew, Hb'.
  set (r := foldl _ _ _) in *.
  split_and!; cbn [st_tables st_foreignKeys st_fkSet]; [|done|done|].
  - rewrite Hnew. apply Forall_app. split.
    + eapply Forall_impl; [exact Hb|]. intros k. apply backed_mono.
      intros t Ht. apply elem_of_app. by left.
    + eapply Forall_impl; [exact Hb'|]. intros k (Hsrc & c & Hc & Hrest).
      eexists _, c. split; [apply elem_of_app; right; by left|].
      split; [|done]. cbn [columns]. by rewrite array_sort_perm.
  - apply Forall_app. split; [done|]. constructor; [|done].
    cbn [name schema columns]. split_and!; [done|done|eauto].
Qed.

Lemma parser_loop_inv (l : list (string * TableDef)) : ∀ st,
  parser_inv localeCompare st →
  parser_inv localeCompare (foldl (table_step fkMatch localeCompare) st l).
Proof.
  induction l as [|e l IH]; intros st Hinv; [done|]. simpl.
  by apply IH, table_step_inv.
Qed.

Lemma parser_inv_start :
  parser_inv localeCompare {| st_tables := []; st_foreignKeys := []; st_fkSet := ∅ |}.
Proof. split_and!; simpl; [constructor|constructor|done|constructor]. Qed.
End ParserFacts.

(** X19. When the keys of the definitions object are distinct, the parser
    returns tables with distinct names: the keys that do not start with
    an underscore, each once, all in the public schema. *)
Theorem parsed_table_names_unique (fkMatch : string → option (string * string))
    (localeCompare : string → string → Z)
    (definitions : list (string * Introspection.TableDef)) :
  NoDup definitions.*1 →
  let s := Introspection.parseOpenApiSpec fkMatch localeCompare definitions in
  NoDup (name <$> tables s)
  ∧ name <$> tables s
    ≡ₚ List.filter (λ n, negb (String.prefix "_" n)) definitions.*1
  ∧ Forall (λ t, String.prefix "_" (name t) = false ∧ schema t = "public") (tables s).
Proof.
  intros Hnd s.
  assert (name <$> tables s
          ≡ₚ List.filter (λ n, negb (String.prefix "_" n)) definitions.*1) as Hperm.
  { unfold s, Introspection.parseOpenApiSpec. cbn [tables].
    rewrite array_sort_perm, parsed_table_names. simpl.
    generalize (entries_perm definitions).
    generalize (JsObject.entries definitions). intros l Hl.
    apply (fmap_Permutation fst) in Hl. revert Hl.
    generalize (l.*1), (definitions.*1). clear. intros l l' Hl.
    induction Hl as [|x l l' _ IH|x y l|l l' l'' _ IH1 _ IH2]; simpl.
    - done.
    - destruct (negb _); by rewrite IH.
    - destruct (negb (String.prefix "_" x)), (negb (String.prefix "_" y)); try done.
      apply perm_swap.
    - by rewrite IH1. }
  split_and!; [|done|].
  - rewrite Hperm. clear -Hnd. induction Hnd as [|x l Hx Hnd IH]; simpl; [constructor|].
    destruct (negb _); [|done]. constructor; [|done].
    intros Hin. apply Hx. apply list_elem_of_In, filter_In in Hin as [Hin _].
    by apply list_elem_of_In.
  - destruct (parser_loop_inv fkMatch localeCompare (JsObject.entries definitions) _
                (parser_inv_start localeCompare)) as (_ & _ & _ & Hts).
    unfold s, Introspection.parseOpenApiSpec. cbn [tables].
    rewrite array_sort_perm.
    eapply Forall_impl; [exact Hts|]. intros t (? & ? & _). done.
Qed.

Lemma parsed_table_names_unique_witness :
  NoDup [("users", {| Introspection.properties := []; Introspection.required := [] |});
         ("_meta", {| Introspection.properties := []; Introspection.required := [] |})].*1
  ∧ name <$> tables (Introspection.parseOpenApiSpec (λ _, None) (λ _ _, 0%Z)
       [("users", {| Introspection.properties := []; Introspection.required := [] |});
        ("_meta", {| Introspection.properties := []; Introspection.required := [] |})])
    ≡ₚ List.filter (λ n, negb (String.prefix "_" n))
         [("users", {| Introspection.properties := []; Introspection.required := [] |});
          ("_meta", {| Introspection.properties := []; Introspection.required := [] |})].*1.
Proof.
  assert (NoDup
    [("users", {| Introspection.properties := []; Introspection.required := [] |});
     ("_meta", {| Introspection.properties := []; Introspection.required := [] |})].*1)
    as Hnd.
  { apply (bool_decide_unpack _). vm_compute. exact I. }
  split; [exact Hnd|].
  exact (proj1 (proj2 (parsed_table_names_unique (λ _, None) (λ _ _, 0%Z) _ Hnd))).
Defined.

(** X20. Every foreign key that the parser returns is backed by a column
    of its source table: the column is flagged as a foreign key, refers
    to the target table and column of the key, and the constraint name is made
    of the source table and column.  No two returned keys agree on source
    table, source column, target table and target column, and the source
    table of each is a returned table. *)
Theorem parsed_foreign_keys_backed (fkMatch : string → option (string * string))
    (localeCompare : string → string → Z)
    (definitions : list (string * Introspection.TableDef)) :
  let s := Introspection.parseOpenApiSpec fkMatch localeCompare definitions in
  Forall (backed (tables s)) (foreignKeys s)
  ∧ NoDup (Introspection.fkKey <$> foreignKeys s)
  ∧ Forall (λ k, sourceTable k ∈ name <$> tables s) (foreignKeys s).
Proof.
  intros s.
  destruct (parser_loop_inv fkMatch localeCompare (JsObject.entries definitions) _
              (parser_inv_start localeCompare)) as (Hb & Hnd & _ & _).
  assert (Forall (backed (tables s)) (foreignKeys s)) as Hbacked.
  { unfold s, Introspection.parseOpenApiSpec. cbn [tables foreignKeys].
    eapply Forall_impl; [exact Hb|]. intros k. apply backed_mono.
    intros t Ht. by rewrite array_sort_perm. }
  split_and!; [done|done|].
  eapply Forall_impl; [exact Hbacked|]. intros k (t & c & Ht & _ & <- & _).
  by apply list_elem_of_fmap_2.
Qed.

(** X21. In every table that the parser returns the primary key columns
    come before all other columns, and among the other columns the foreign
    key columns come first. *)
Theorem parsed_columns_keys_first (fkMatch : string → option (string * string))
    (localeCompare : string → string → Z)
    (definitions : list (string * Introspection.TableDef)) :
  Forall (λ t, keys_first (columns t))
         (tables (Introspection.parseOpenApiSpec fkMatch localeCompare definitions)).
Proof.
  destruct (parser_loop_inv fkMatch localeCompare (JsObject.entries definitions) _
              (parser_inv_start localeCompare)) as (_ & _ & _ & Hts).
  unfold Introspection.parseOpenApiSpec. cbn [tables]. rewrite array_sort_perm.
  eapply Forall_impl; [exact Hts|]. intros t (_ & _ & cols & ->).
  intros i j a b Hij Hi Hj.
  apply (sorted_pairwise _ _ (columns_sorted localeCompare cols) i j a b Hij Hi Hj).
Qed.

(** ** Encrypted storage ([crypto]) *)

Lemma uint8_layout (salt iv encrypted : list Byte.byte) :
  Crypto.uint8_set
    (Crypto.uint8_set
       (Crypto.uint8_set
          (replicate (length salt + length iv + length encrypted) Byte.x00) salt 0)
       iv (length salt))
    encrypted (length salt + length iv)
  = salt ++ iv ++ encrypted.
Proof.
  unfold Crypto.uint8_set. simpl.
  set (z := replicate _ _).
  assert (length z = length salt + length iv + length encrypted) as Hz
    by apply length_replicate.
  rewrite !take_app_length.
  set (D := drop (length salt + length iv) (salt ++ drop (length salt) z)).
  assert (length D = length encrypted) as HD.
  { unfold D. rewrite length_drop, length_app, length_drop. lia. }
  assert (take (length salt + length iv) (salt ++ iv ++ D) = salt ++ iv) as ->.
  { rewrite app_assoc. apply take_app_length'. by rewrite length_app. }
  rewrite drop_ge; [by rewrite app_nil_r, <- app_assoc|].
  rewrite !length_app. lia.
Qed.

(** X22. Decrypting what [encrypt] returned, with the passphrase it was
    given, yields the data again, for a salt of 16 and an initialisation
    vector of 12 bytes, when AES-GCM decryption inverts encryption under
    one key and vector, and the text and base64 codecs invert each other.
    The salt and the vector are cut out of the packet where [encrypt] put
    them. *)
Theorem crypto_round_trip {CryptoKey : Type}
    (deriveKey : string → list Byte.byte → CryptoKey)
    (subtle_encrypt : list Byte.byte → CryptoKey → list Byte.byte → list Byte.byte)
    (subtle_decrypt : list Byte.byte → CryptoKey → list Byte.byte
                      → option (list Byte.byte))
    (encode : string → list Byte.byte) (decode : list Byte.byte → string)
    (btoa_bytes : list Byte.byte → string)
    (atob_bytes : string → option (list Byte.byte))
    (salt iv : list Byte.byte) (data passphrase : string) :
  (∀ iv k m, subtle_decrypt iv k (subtle_encrypt iv k m) = Some m) →
  (∀ s, decode (encode s) = s) →
  (∀ bs, atob_bytes (btoa_bytes bs) = Some bs) →
  length salt = Crypto.SALT_LENGTH →
  length iv = Crypto.IV_LENGTH →
  Crypto.decrypt deriveKey subtle_decrypt decode atob_bytes
    (Crypto.encrypt deriveKey subtle_encrypt encode btoa_bytes salt iv data passphrase)
    passphrase
  = Some data.
Proof.
  intros Haes Htext Hb64 Hsalt Hiv.
  unfold Crypto.encrypt, Crypto.decrypt. cbv zeta.
  rewrite uint8_layout, Hb64. unfold Crypto.slice.
  rewrite <- Hsalt, <- Hiv.
  rewrite Nat.sub_0_r, drop_0, take_app_length.
  rewrite Nat.add_sub', drop_app_length, take_app_length.
  rewrite <- length_app, app_assoc, drop_app_length.
  by rewrite Haes, Htext.
Qed.

Lemma crypto_round_trip_witness :
  (∀ (iv : list Byte.byte) (k : unit) (m : list Byte.byte),
     (λ _ _ c, Some c) iv k ((λ _ _ m, m) iv k m) = Some m)
  ∧ (∀ s, String.string_of_list_byte (String.list_byte_of_string s) = s)
  ∧ (∀ bs, (λ s, Some (String.list_byte_of_string s)) (String.string_of_list_byte bs) = Some bs)
  ∧ length (replicate 16 Byte.x00) = Crypto.SALT_LENGTH
  ∧ length (replicate 12 Byte.x01) = Crypto.IV_LENGTH
  ∧ Crypto.decrypt (λ _ _, tt) (λ _ _ c, Some c) String.string_of_list_byte
      (λ s, Some (String.list_byte_of_string s))
      (Crypto.encrypt (λ _ _, tt) (λ _ _ m, m) String.list_byte_of_string
         String.string_of_list_byte (replicate 16 Byte.x00) (replicate 12 Byte.x01)
         "[]" "secret")
      "secret"
    = Some "[]".
Proof.
  assert (∀ (iv : list Byte.byte) (k : unit) (m : list Byte.byte),
    (λ _ _ c, Some c) iv k ((λ _ _ m, m) iv k m) = Some m) as Haes by reflexivity.
  assert (∀ s, String.string_of_list_byte (String.list_byte_of_string s) = s) as Htext
    by apply String.string_of_list_byte_of_string.
  assert (∀ bs, (λ s, Some (String.list_byte_of_string s)) (String.string_of_list_byte bs) = Some bs)
    as Hb64.
  { intros bs. simpl. by rewrite String.list_byte_of_string_of_list_byte. }
  assert (length (replicate 16 Byte.x00) = Crypto.SALT_LENGTH) as Hsalt by reflexivity.
  assert (length (replicate 12 Byte.x01) = Crypto.IV_LENGTH) as Hiv by reflexivity.
  split_and!; [exact Haes|exact Htext|exact Hb64|exact Hsalt|exact Hiv|].
  exact (crypto_round_trip (λ _ _, tt) (λ _ _ m, m) (λ _ _ c, Some c)
           String.list_byte_of_string String.string_of_list_byte String.string_of_list_byte
           (λ s, Some (String.list_byte_of_string s))
           (replicate 16 Byte.x00) (replicate 12 Byte.x01) "[]" "secret"
           Haes Htext Hb64 Hsalt Hiv).
Defined.

(** ** Connection store ([useConnectionStore]) *)

Lemma step_connected (st : Store.ConnectionState) (a : Store.Action) :
  Store.isConnected st = bool_decide (is_Some (Store.schema st)) →
  Store.isConnected (Store.step st a)
  = bool_decide (is_Some (Store.schema (Store.step st a))).
Proof.
  intros Hst. destruct a; simpl; try done.
  - by destruct (truthy _).
  - destruct (truthy _); [|done]. simpl.
    destruct (bool_decide (Store.activeConnectionId st = Some id)); [|done].
    symmetry. apply bool_decide_eq_false_2. by intros [? ?].
Qed.

(** X23. After any sequence of store actions the connected flag holds
    exactly when a schema is loaded. *)
Theorem store_connected_iff_schema (actions : list Store.Action) :
  Store.isConnected (Store.run actions)
  = bool_decide (is_Some (Store.schema (Store.run actions))).
Proof.
  unfold Store.run. induction actions as [|a actions IH] using rev_ind.
  - done.
  - rewrite foldl_snoc. by apply step_connected.
Qed.

(** X24. Adding a connection and then removing it by the id it was given
    restores the store state, when a passphrase is set, the id is new and
    it is not the id of the active connection. *)
Theorem add_then_remove_connection (st : Store.ConnectionState)
    (name url key uuid : string) (now : nat) :
  truthy (Store.passphrase st) = true →
  uuid ∉ Store.conn_id <$> Store.connections st →
  Store.activeConnectionId st ≠ Some uuid →
  Store.step (Store.step st (Store.AddConnection name url key uuid now))
             (Store.RemoveConnection uuid)
  = st.
Proof.
  intros Hpass Hfresh Hactive. simpl. rewrite Hpass. simpl. rewrite Hpass.
  rewrite bool_decide_eq_false_2 by done.
  assert (List.filter (λ c, negb (String.eqb (Store.conn_id c) uuid))
            (Store.connections st
             ++ [ {| Store.conn_id := uuid; Store.conn_name := name; Store.url := url;
                     Store.anonKey := key; Store.createdAt := now |} ])
          = Store.connections st) as ->; [|by destruct st].
  rewrite List.filter_app. simpl. rewrite String.eqb_refl. simpl.
  rewrite app_nil_r.
  generalize dependent (Store.connections st). intros l Hl.
  induction l as [|c l IH]; [done|]. simpl.
  destruct (String.eqb_spec (Store.conn_id c) uuid) as [Heq|Hne]; simpl.
  - exfalso. apply Hl. rewrite <- Heq. by left.
  - f_equal. apply IH. intros Hin. apply Hl. by right.
Qed.

Lemma add_then_remove_connection_witness :
  truthy (Store.passphrase (Store.run [Store.SetPassphrase "secret"])) = true
  ∧ ("id-1" ∉ Store.conn_id
                <$> Store.connections (Store.run [Store.SetPassphrase "secret"]))
  ∧ Store.activeConnectionId (Store.run [Store.SetPassphrase "secret"]) ≠ Some "id-1"
  ∧ Store.step
      (Store.step (Store.run [Store.SetPassphrase "secret"])
         (Store.AddConnection "db" "https://x" "key" "id-1" 0))
      (Store.RemoveConnection "id-1")
    = Store.run [Store.SetPassphrase "secret"].
Proof.
  assert (truthy (Store.passphrase (Store.run [Store.SetPassphrase "secret"])) = true)
    as Hpass by reflexivity.
  assert ("id-1" ∉ Store.conn_id
                     <$> Store.connections (Store.run [Store.SetPassphrase "secret"]))
    as Hfresh by (intros Hin; by apply not_elem_of_nil in Hin).
  assert (Store.activeConnectionId (Store.run [Store.SetPassphrase "secret"])
          ≠ Some "id-1") as Hactive by discriminate.
  split_and!; [exact Hpass|exact Hfresh|exact Hactive|].
  exact (add_then_remove_connection _ "db" "https://x" "key" "id-1" 0
           Hpass Hfresh Hactive).
Defined.

(** ** The hierarchy as a tree *)

Lemma parentMap_from_keys (fks : list ForeignKey) (x y : string) :
  Hierarchy.build_parentMap fks !! x = Some y → depends_on fks x y.
Proof.
  unfold Hierarchy.build_parentMap. induction fks as [|k fks IH] using rev_ind.
  - simpl. by rewrite lookup_empty.
  - rewrite foldl_snoc, depends_on_snoc. unfold Hierarchy.parentMap_add at 1.
    destruct (truthy_at _ _); [by left; apply IH|].
    destruct (decide (sourceTable k = x)) as [<-|Hne].
    + rewrite lookup_insert_eq. intros [= <-]. by right.
    + rewrite lookup_insert_ne by done. by left; apply IH.
Qed.

Section TreeFacts.
Import Hierarchy.
Variable ts : list TableInfo.
Variable fks : list ForeignKey.
Hypothesis names_unique : NoDup (name <$> ts).
Hypothesis names_nonempty : "" ∉ name <$> ts.
Hypothesis no_virtual_name : virtualRoot ∉ name <$> ts.
Hypothesis names_plain : ∀ t, t ∈ ts → inherited (name t) = false.

Lemma roots_not_parent :
  roots (build_parentMap fks) ts = List.filter (λ t, negb (has_parent fks t)) ts.
Proof.
  unfold roots. apply filter_ext_in. intros t Ht%list_elem_of_In.
  by rewrite (truthy_at_plain _ _ (names_plain t Ht)).
Qed.

Lemma closed_form_ids :
  map id (map (node_of ts fks) (List.filter (has_parent fks) ts))
  ++ map name (roots (build_parentMap fks) ts)
  ≡ₚ name <$> ts.
Proof.
  rewrite node_of_id, roots_not_parent, <- map_app.
  change (map name ?l) with (name <$> l). by rewrite filter_negb_perm.
Qed.

Lemma root_nodes_shape (rs : list TableInfo) :
  rs ≠ [] →
  ∃ top, map id (root_nodes rs)
         ≡ₚ (if bool_decide (1 < length rs) then [virtualRoot] else []) ++ map name rs
         ∧ top = (if bool_decide (1 < length rs) then virtualRoot
                  else default "" (name <$> head rs))
         ∧ fallback_parent rs
           = (if bool_decide ("" = top) then None else Some top)
         ∧ ∀ nd, nd ∈ root_nodes rs →
             id nd = top ∨ parentId nd = Some top.
Proof.
  intros Hrs. destruct rs as [|r [|r' rs]]; [done| |].
  - exists (name r).
    assert (bool_decide (1 < length [r]) = false) as Hlen
      by (apply bool_decide_eq_false_2; simpl; lia).
    rewrite Hlen. split_and!; [done|done| |].
    + unfold fallback_parent. rewrite Hlen. simpl.
      clear Hlen. destruct (String.eqb_spec (name r) "") as [Heq|Hne].
      * by rewrite bool_decide_eq_true_2.
      * by rewrite bool_decide_eq_false_2.
    + intros nd Hnd. apply list_elem_of_singleton in Hnd as ->. by left.
  - exists virtualRoot.
    assert (bool_decide (1 < length (r :: r' :: rs)) = true) as Hlen
      by (apply bool_decide_eq_true_2; simpl; lia).
    rewrite Hlen. split_and!; [|done| |].
    + cbn [root_nodes map id]. rewrite map_map. done.
    + unfold fallback_parent. by rewrite Hlen.
    + intros nd Hnd. cbn [root_nodes] in Hnd.
      apply elem_of_cons in Hnd as [->|Hnd]; [by left|]. right.
      apply list_elem_of_In, in_map_iff in Hnd as (t & <- & _). done.
Qed.
End TreeFacts.

(** X25. For an acyclic schema in which some table has no foreign key of
    its own, with unique, non-empty table names, none of which is the name
    of the virtual root, and with no table name and no end of a foreign
    key that every object inherits, HierarchyView returns a node list, and
    it is a tree: node ids are distinct, exactly one node has no parent,
    and from every node the parent links lead to that node. *)
Theorem hierarchy_is_tree (ts : list TableInfo) (fks : list ForeignKey) :
  NoDup (name <$> ts) →
  "" ∉ name <$> ts →
  Hierarchy.virtualRoot ∉ name <$> ts →
  plain_names ts fks →
  Irreflexive (tc (depends_on fks)) →
  (∃ t, t ∈ ts ∧ name t ∉ sourceTable <$> fks) →
  ∃ nodes,
    Hierarchy.treeData ts fks = Some nodes
    ∧ NoDup (Hierarchy.id <$> nodes)
    ∧ ∃ top, Hierarchy.top_nodes nodes = [top]
             ∧ ∀ nd, nd ∈ nodes → rtc (parent_of nodes) (Hierarchy.id nd) top.
Proof.
  intros Hnd Hne Hvr Hplain Hacyc (t0 & Ht0 & Hfree).
  assert (∀ t, t ∈ ts → inherited (name t) = false) as Hpl
    by (intros t; by apply plain_table with fks).
  set (pm := Hierarchy.build_parentMap fks).
  set (rs := Hierarchy.roots pm ts).
  assert (rs ≠ []) as Hrs.
  { assert (name t0 ∈ name <$> rs) as Hin.
    { apply (in_roots ts fks Hpl t0 Ht0). unfold has_parent.
      destruct (Hierarchy.build_parentMap fks !! name t0) as [y|] eqn:Hy; [|done].
      exfalso. apply Hfree.
      apply parentMap_from_keys in Hy as (k & Hk & <- & _).
      by apply list_elem_of_fmap_2. }
    intros Hnil. rewrite Hnil in Hin. by apply not_elem_of_nil in Hin. }
  eexists. split; [by apply (treeData_closed_form ts fks Hnd Hvr Hpl Hrs)|].
  fold pm. fold rs.
  destruct (root_nodes_shape rs Hrs) as (top & Hids & Htop & Hfall & Hroot).
  assert (rs ⊆ ts) as Hsub.
  { intros t Ht. apply list_elem_of_In, filter_In in Ht as [Ht _].
    by apply list_elem_of_In. }
  assert (top ≠ "") as Htop_ne.
  { rewrite Htop. clear Htop Hfall Hids Hroot.
    destruct (bool_decide (1 < length rs)); [by unfold Hierarchy.virtualRoot|].
    destruct (head rs) as [r|] eqn:Hhead; [|by destruct rs].
    simpl. intros Heq. apply Hne.
    rewrite <- Heq. apply list_elem_of_fmap_2, Hsub.
    destruct rs; simplify_eq/=. by left. }
  rewrite bool_decide_eq_false_2 in Hfall by done.
  split.
  - change (Hierarchy.id <$> ?l) with (map Hierarchy.id l).
    rewrite map_app, Hids, <- app_assoc.
    rewrite (Permutation_app_comm (map name rs)).
    unfold rs, pm. rewrite (closed_form_ids ts fks Hpl).
    destruct (bool_decide _); simpl; [|done]. by constructor.
  - exists top. split.
    + destruct (decide (1 < length rs)) as [Hmany|Hone].
      * rewrite Htop, bool_decide_eq_true_2 by done.
        by apply top_of_virtual_root.
      * assert (∃ r, rs = [r]) as [r Hr].
        { destruct rs as [|r [|r' rs']]; [done|by exists r|simpl in Hone; lia]. }
        destruct (top_of_single_root ts fks Hvr r Hne Hr) as [Hsingle _].
        fold pm rs in Hsingle. rewrite Hsingle, Htop.
        rewrite bool_decide_eq_false_2 by done. by rewrite Hr.
    + set (nodes := Hierarchy.root_nodes rs ++ _).
      set (R := λ x y : string,
                  depends_on fks x y ∧ x ∈ name <$> ts ∧ y ∈ name <$> ts).
      assert (∀ x, sn R x) as Hsn.
      { intros x. apply tc_finite_sn.
        - intros z Hz. apply (Hacyc z).
          eapply (tc_congruence (λ z, z)); [|exact Hz]. by intros ? ? [? _].
        - exists (name <$> ts). intros y Hy.
          induction Hy as [a b Hab|a b c _ _ IH]; [|exact IH].
          by destruct Hab as (_ & _ & ?). }
      assert (∀ x, sn R x → ∀ t, t ∈ ts → name t = x →
                rtc (parent_of nodes) x top) as Hreach.
      { induction 1 as [x _ IH]. intros t Ht Hname.
        destruct (has_parent fks t) eqn:Hpar.
        - assert (node_of ts fks t ∈ nodes) as Hin.
          { apply elem_of_app. right. apply list_elem_of_In, in_map.
            apply filter_In. split; [by apply list_elem_of_In|done]. }
          pose proof (node_of_parent ts fks t Hpar) as Hp.
          assert (Hierarchy.id (node_of ts fks t) = x) as Hid.
          { rewrite <- Hname. unfold node_of. by destruct (_ && _). }
          destruct (orphan ts fks t) eqn:Horph.
          + apply rtc_once. exists (node_of ts fks t).
            split_and!; [done|done|]. rewrite Hp. exact Hfall.
          + destruct (parent_is_table ts fks t Hpar Horph) as (p & Hpm & Hpin).
            apply (rtc_l _ _ p).
            * exists (node_of ts fks t). split_and!; [done|done|]. by rewrite Hp.
            * apply list_elem_of_fmap in Hpin as (t' & Hp' & Ht').
              apply (IH p) with (t := t'); [|exact Ht'|done]. unfold flip, R.
              split_and!; [|by rewrite <- Hname; apply list_elem_of_fmap_2
                           |rewrite Hp'; by apply list_elem_of_fmap_2].
              rewrite <- Hname. by apply parentMap_from_keys.
        - assert (x ∈ map Hierarchy.id (Hierarchy.root_nodes rs)) as Hin.
          { rewrite <- Hname. apply (root_nodes_ids ts fks Hvr).
            - by apply list_elem_of_fmap_2.
            - by apply (in_roots ts fks Hpl t Ht). }
          apply list_elem_of_In, in_map_iff in Hin as (nd & Hid & Hnd').
          apply list_elem_of_In in Hnd'.
          destruct (Hroot nd Hnd') as [Heq|Hpar'].
          + rewrite <- Hid, Heq. done.
          + apply rtc_once. exists nd. split_and!; [|done|done].
            apply elem_of_app. by left. }
      intros nd [Hnd'|Hnd']%elem_of_app.
      * destruct (Hroot nd Hnd') as [->|Hpar']; [done|].
        apply rtc_once. exists nd. split_and!; [|done|done].
        apply elem_of_app. by left.
      * apply list_elem_of_In, in_map_iff in Hnd' as (t & <- & Ht).
        apply filter_In in Ht as [Ht _]. apply list_elem_of_In in Ht.
        apply (Hreach _ (Hsn _) t Ht).
        unfold node_of. by destruct (_ && _).
Qed.

Lemma hierarchy_is_tree_witness :
  NoDup (name <$> tables shop)
  ∧ ("" ∉ name <$> tables shop)
  ∧ (Hierarchy.virtualRoot ∉ name <$> tables shop)
  ∧ plain_names (tables shop) (foreignKeys shop)
  ∧ Irreflexive (tc (depends_on (foreignKeys shop)))
  ∧ (∃ t, t ∈ tables shop ∧ name t ∉ sourceTable <$> foreignKeys shop)
  ∧ ∃ nodes, Hierarchy.treeData (tables shop) (foreignKeys shop) = Some nodes
      ∧ NoDup (Hierarchy.id <$> nodes)
      ∧ ∃ top, Hierarchy.top_nodes nodes = [top]
               ∧ ∀ nd, nd ∈ nodes → rtc (parent_of nodes) (Hierarchy.id nd) top.
Proof.
  assert (NoDup (name <$> tables shop)) as Hnd.
  { apply (bool_decide_unpack _). vm_compute. exact I. }
  assert ("" ∉ name <$> tables shop) as Hne.
  { apply (bool_decide_unpack _). vm_compute. exact I. }
  assert (Hierarchy.virtualRoot ∉ name <$> tables shop) as Hvr.
  { apply (bool_decide_unpack _). vm_compute. exact I. }
  assert (Irreflexive (tc (depends_on (foreignKeys shop)))) as Hacyc.
  { apply (acyclic_by_rank _
      (λ x, if String.eqb x "order_items" then 2
            else if String.eqb x "orders" then 1 else 0)).
    intros x y (k & Hk & <- & <-).
    repeat (apply elem_of_cons in Hk as [->|Hk]; [vm_compute; lia|]).
    by apply not_elem_of_nil in Hk. }
  assert (plain_names (tables shop) (foreignKeys shop)) as Hp.
  { split; repeat constructor. }
  assert (∃ t, t ∈ tables shop ∧ name t ∉ sourceTable <$> foreignKeys shop) as Hfree.
  { exists (tbl "customers"). split; [by left|].
    apply (bool_decide_unpack _). vm_compute. exact I. }
  split_and!; [exact Hnd|exact Hne|exact Hvr|exact Hp|exact Hacyc|exact Hfree|].
  exact (hierarchy_is_tree (tables shop) (foreignKeys shop)
           Hnd Hne Hvr Hp Hacyc Hfree).
Defined.

(** ** Chapters of [StoryView] *)

Lemma set_add_elem (s : list string) (v y : string) :
  y ∈ Story.set_add s v ↔ y ∈ s ∨ y = v.
Proof.
  unfold Story.set_add. case_bool_decide as Hv.
  - split; [by left|]. by intros [?| ->].
  - rewrite elem_of_app, list_elem_of_singleton. done.
Qed.

Lemma set_add_NoDup (s : list string) (v : string) :
  NoDup s → NoDup (Story.set_add s v).
Proof.
  intros Hs. unfold Story.set_add. case_bool_decide as Hv; [done|].
  apply NoDup_app. split_and!; [done| |apply NoDup_singleton].
  intros x Hx ->%list_elem_of_singleton. done.
Qed.

Lemma adj_add_plain (a : gmap string (list string)) (k v : string) :
  inherited k = false → Story.adj_add a k v = Some (Story.adj_add_own a k v).
Proof.
  intros Hk. unfold Story.adj_add, Story.adj_add_own. rewrite Hk.
  by destruct (a !! k).
Qed.

(** Building the record does not throw on names that no object inherits. *)
Lemma build_adj_plain (ts : list TableInfo) (fks : list ForeignKey) :
  plain_names ts fks → Story.build_adj ts fks = Some (adjacency ts fks).
Proof.
  intros [_ Hfks]. unfold Story.build_adj, adjacency.
  induction fks as [|k fks IH] using rev_ind; [done|].
  apply Forall_app in Hfks as [Hfks [[Hs Ht] _]%Forall_cons].
  rewrite !foldl_snoc, (IH Hfks). simpl. unfold Story.adj_link.
  rewrite adj_add_plain by done. simpl. by rewrite adj_add_plain.
Qed.

Lemma adj_add_lookup (a : gmap string (list string)) (k v n : string) :
  Story.adj_add_own a k v !! n
  = (λ s, if bool_decide (k = n) then Story.set_add s v else s) <$> a !! n.
Proof.
  unfold Story.adj_add_own. destruct (a !! k) as [s|] eqn:Hk.
  - destruct (decide (k = n)) as [<-|Hne].
    + by rewrite lookup_insert_eq, Hk, bool_decide_eq_true_2.
    + rewrite lookup_insert_ne, bool_decide_eq_false_2 by done.
      by destruct (a !! n).
  - destruct (decide (k = n)) as [<-|Hne].
    + by rewrite Hk.
    + rewrite bool_decide_eq_false_2 by done. by destruct (a !! n).
Qed.

Section AdjacencyFacts.
Variable ts : list TableInfo.

Lemma adj_init_lookup (n : string) :
  Story.adj_init ts !! n = if bool_decide (n ∈ name <$> ts) then Some [] else None.
Proof.
  unfold Story.adj_init.
  induction ts as [|t l IH] using rev_ind.
  - rewrite bool_decide_eq_false_2 by apply not_elem_of_nil. apply lookup_empty.
  - rewrite foldl_snoc, fmap_app. simpl.
    destruct (decide (name t = n)) as [<-|Hne].
    + rewrite lookup_insert_eq, bool_decide_eq_true_2; [done|].
      apply elem_of_app. right. by left.
    + rewrite lookup_insert_ne, IH by done.
      apply option_eq. intros x. repeat case_bool_decide; try done.
      * exfalso. set_solver.
      * exfalso. set_solver.
Qed.

(** The adjacency record has an entry for the table names only; the entry
    of a table holds, once each, the names that a foreign key joins to
    it. *)
Lemma adjacency_spec (fks : list ForeignKey) (n : string) :
  match adjacency ts fks !! n with
  | Some s => n ∈ name <$> ts ∧ NoDup s ∧ ∀ y, y ∈ s ↔ adjacent fks n y
  | None => n ∉ name <$> ts
  end.
Proof.
  unfold adjacency.
  induction fks as [|k fks IH] using rev_ind.
  - simpl. rewrite adj_init_lookup. case_bool_decide; [|done].
    split_and!; [done|constructor|]. intros y. split; [by intros ?%not_elem_of_nil|].
    intros [(k & Hk & _)|(k & Hk & _)]; by apply not_elem_of_nil in Hk.
  - rewrite foldl_snoc.
    set (a := foldl _ (Story.adj_init ts) fks) in *.
    rewrite !adj_add_lookup.
    destruct (a !! n) as [s|]; [|exact IH].
    destruct IH as (Hn & Hnd & Hs). cbn [fmap option_fmap option_map].
    split_and!; [exact Hn| |].
    + repeat case_bool_decide; repeat apply set_add_NoDup; done.
    + intros y. rewrite adjacent_snoc, <- Hs.
      repeat case_bool_decide; rewrite ?set_add_elem; subst; intuition congruence.
Qed.

Lemma neighbour_spec (fks : list ForeignKey) (x y : string) :
  neighbour (adjacency ts fks) x y ↔ x ∈ name <$> ts ∧ adjacent fks x y.
Proof.
  unfold neighbour. pose proof (adjacency_spec fks x) as H.
  destruct (adjacency ts fks !! x) as [s|]; simpl.
  - destruct H as (Hx & _ & Hs). rewrite Hs. tauto.
  - split; [by intros ?%not_elem_of_nil|]. tauto.
Qed.

Lemma adj_entry (fks : list ForeignKey) (x : string) :
  is_Some (adjacency ts fks !! x) ↔ x ∈ name <$> ts.
Proof.
  pose proof (adjacency_spec fks x) as H.
  destruct (adjacency ts fks !! x) as [s|].
  - split; [tauto|eauto].
  - split; [by intros [? ?]|done].
Qed.

Lemma adjacent_sym (fks : list ForeignKey) (x y : string) :
  adjacent fks x y → adjacent fks y x.
Proof. unfold adjacent. tauto. Qed.

Lemma neighbour_universe (fks : list ForeignKey) (x y : string) :
  neighbour (adjacency ts fks) x y → y ∈ universe ts fks.
Proof.
  intros [_ Hadj]%neighbour_spec. unfold universe.
  destruct Hadj as [(k & Hk & _ & <-)|(k & Hk & <- & _)].
  - apply elem_of_union_r, elem_of_list_to_set. by apply list_elem_of_fmap_2.
  - apply elem_of_union_l, elem_of_union_r, elem_of_list_to_set.
    by apply list_elem_of_fmap_2.
Qed.

Lemma universe_size (fks : list ForeignKey) :
  size (universe ts fks) ≤ rounds ts fks.
Proof.
  unfold universe, rounds.
  pose proof (size_list_to_set_le (name <$> ts)) as H1.
  pose proof (size_list_to_set_le (sourceTable <$> fks)) as H2.
  pose proof (size_list_to_set_le (targetTable <$> fks)) as H3.
  rewrite !length_fmap in *.
  assert (∀ X Y : gset string, size (X ∪ Y) ≤ size X + size Y) as Hle.
  { intros X Y. rewrite size_union_alt.
    assert (size (Y ∖ X) ≤ size Y) by (apply subseteq_size; set_solver). lia. }
  pose proof (Hle (list_to_set (name <$> ts) ∪ list_to_set (sourceTable <$> fks))
                  (list_to_set (targetTable <$> fks))).
  pose proof (Hle (list_to_set (name <$> ts)) (list_to_set (sourceTable <$> fks))).
  lia.
Qed.
End AdjacencyFacts.

Lemma visit_fold (ns : list string) (v : gset string) (q : list string) :
  ∃ new, foldl Story.visit (v, q) ns = (v ∪ list_to_set new, q ++ new)
         ∧ NoDup new ∧ ∀ x, x ∈ new ↔ x ∈ ns ∧ x ∉ v.
Proof.
  revert v q. induction ns as [|n ns IH]; intros v q.
  - exists []. rewrite app_nil_r, list_to_set_nil, union_empty_r_L. simpl.
    split_and!; [done|constructor|]. intros x. split; [by intros ?%not_elem_of_nil|].
    by intros [?%not_elem_of_nil _].
  - simpl. unfold Story.visit at 2. simpl. destruct (decide (n ∈ v)) as [Hn|Hn].
    + rewrite bool_decide_eq_true_2 by done.
      destruct (IH v q) as (new & Heq & Hnd & Hin). exists new.
      split_and!; [done|done|]. intros x. rewrite Hin, elem_of_cons.
      split; [tauto|]. intros [[->|?] ?]; [done|tauto].
    + rewrite bool_decide_eq_false_2 by done.
      destruct (IH ({[n]} ∪ v) (q ++ [n])) as (new & Heq & Hnd & Hin).
      exists (n :: new). rewrite Heq. split_and!.
      * f_equal; [|by rewrite <- app_assoc].
        rewrite list_to_set_cons. set_solver.
      * apply NoDup_cons. split; [|done]. rewrite Hin. set_solver.
      * intros x. rewrite !elem_of_cons, Hin.
        destruct (decide (x = n)) as [->|Hne]; set_solver.
Qed.

Section BfsFacts.
Variable adj : gmap string (list string).
Variable U : gset string.
Hypothesis HU : ∀ x y, neighbour adj x y → y ∈ U.
Hypothesis Hsym : ∀ x y, neighbour adj x y → is_Some (adj !! y) → neighbour adj y x.

Lemma size_one_more (v : gset string) (a : string) :
  a ∈ U → a ∉ v → size (U ∖ ({[a]} ∪ v)) + 1 = size (U ∖ v).
Proof.
  intros Ha Hv.
  assert (U ∖ v = {[a]} ∪ U ∖ ({[a]} ∪ v)) as ->.
  { apply set_eq. intros x. destruct (decide (x = a)) as [->|Hne]; set_solver. }
  pose proof (@size_union string (gset string) _ _ _ _ _ _ _ _ _
                {[a]} (U ∖ ({[a]} ∪ v))) as Hs.
  rewrite Hs by set_solver. rewrite size_singleton. lia.
Qed.

Lemma size_new (new : list string) (v : gset string) :
  NoDup new → (∀ x, x ∈ new → x ∈ U ∧ x ∉ v) →
  size (U ∖ (v ∪ list_to_set new)) + length new = size (U ∖ v).
Proof.
  revert v. induction new as [|a new IH]; intros v Hnd Hnew.
  - rewrite list_to_set_nil, union_empty_r_L. simpl. lia.
  - apply NoDup_cons in Hnd as [Ha Hnd].
    rewrite list_to_set_cons.
    assert (v ∪ ({[a]} ∪ list_to_set new) = ({[a]} ∪ v) ∪ list_to_set new) as ->
      by set_solver.
    destruct (Hnew a) as [HaU Hav]; [by left|].
    rewrite <- (size_one_more v a HaU Hav).
    rewrite <- (IH ({[a]} ∪ v) Hnd); [simpl; lia|].
    intros x Hx. destruct (Hnew x) as [? ?]; [by right|].
    split; [done|]. set_solver.
Qed.

Lemma bfs_inv_extend (v0 : gset string) (start : string) (v : gset string)
    (ms new : list string) :
  bfs_inv adj U v0 start v ms →
  NoDup new →
  (∀ x, x ∈ new → (x ∉ v) ∧ x ∈ U ∧ rtc (neighbour adj) start x) →
  bfs_inv adj U v0 start (v ∪ list_to_set new) (ms ++ new).
Proof.
  intros (Hnd & -> & Hout & HinU & Hreach) Hnew Hprops. split_and!.
  - apply NoDup_app. split_and!; [done| |done].
    intros x Hx Hx'. destruct (Hprops x Hx') as [Hnot _]. set_solver.
  - rewrite list_to_set_app_L. set_solver.
  - intros x [Hx|Hx]%elem_of_app; [by apply Hout|].
    destruct (Hprops x Hx) as [Hnot _]. set_solver.
  - intros x [Hx|Hx]%elem_of_app; [by apply HinU|]. by apply Hprops.
  - intros x [Hx|Hx]%elem_of_app; [by apply Hreach|]. by apply Hprops.
Qed.

Lemma bfs_loop_spec (v0 : gset string) (start : string) (fuel : nat) :
  ∀ v q c,
    bfs_inv adj U v0 start v (c ++ q) →
    (∀ x y, x ∈ c → neighbour adj x y → y ∈ v) →
    size (U ∖ v) + length q ≤ fuel →
    ∃ c', Story.bfs_loop fuel adj v q c = Some (v0 ∪ list_to_set c', c')
          ∧ bfs_inv adj U v0 start (v0 ∪ list_to_set c') c'
          ∧ (∀ x y, x ∈ c' → neighbour adj x y → y ∈ v0 ∪ list_to_set c')
          ∧ (c ++ q) `prefix_of` c'.
Proof.
  assert (∀ fuel v c,
    bfs_inv adj U v0 start v (c ++ []) →
    (∀ x y, x ∈ c → neighbour adj x y → y ∈ v) →
    ∃ c', Story.bfs_loop fuel adj v [] c = Some (v0 ∪ list_to_set c', c')
          ∧ bfs_inv adj U v0 start (v0 ∪ list_to_set c') c'
          ∧ (∀ x y, x ∈ c' → neighbour adj x y → y ∈ v0 ∪ list_to_set c')
          ∧ (c ++ []) `prefix_of` c') as Hdone.
  { intros f v c Hinv Hclosed. rewrite app_nil_r in *. exists c.
    pose proof Hinv as (_ & Hv & _). rewrite <- Hv.
    split_and!; [by destruct f|done|done|done]. }
  induction fuel as [|fuel IH]; intros v q c Hinv Hclosed Hfuel;
    destruct q as [|node rest]; [by apply Hdone|simpl in Hfuel; lia|by apply Hdone|].
  simpl.
  destruct (visit_fold (default [] (adj !! node)) v rest) as (new & Heq & Hnd & Hnew).
  rewrite Heq. simpl.
  assert (node ∈ c ++ node :: rest) as Hnode by (apply elem_of_app; right; by left).
  destruct (IH (v ∪ list_to_set new) (rest ++ new) (c ++ [node])) as (c' & Hrun & Hinv' & Hcl' & Hpre).
  - replace ((c ++ [node]) ++ rest ++ new) with ((c ++ node :: rest) ++ new)
      by (by rewrite <- !app_assoc).
    apply bfs_inv_extend; [done|done|].
    intros x Hx. apply Hnew in Hx as [Hx Hv]. split_and!; [done| |].
    + by apply (HU node).
    + destruct Hinv as (_ & _ & _ & _ & Hreach).
      eapply rtc_r; [by apply Hreach|]. exact Hx.
  - intros x y [Hx|Hx]%elem_of_app Hy.
    + apply elem_of_union_l. by apply (Hclosed x).
    + apply list_elem_of_singleton in Hx as ->.
      destruct (decide (y ∈ v)) as [?|Hv]; [by apply elem_of_union_l|].
      apply elem_of_union_r, elem_of_list_to_set, Hnew. done.
  - rewrite length_app. simpl in Hfuel.
    assert (size (U ∖ (v ∪ list_to_set new)) + length new = size (U ∖ v)) as Hsize.
    { apply size_new; [done|]. intros x Hx. apply Hnew in Hx as [Hx Hv].
      split; [by apply (HU node)|done]. }
    lia.
  - exists c'. split_and!; [done|done|done|].
    etrans; [|exact Hpre].
    replace ((c ++ [node]) ++ rest ++ new) with ((c ++ node :: rest) ++ new)
      by (by rewrite <- !app_assoc).
    by apply prefix_app_r.
Qed.

Lemma bfs_spec (fuel : nat) (v0 : gset string) (start : string) :
  size U ≤ fuel → start ∈ U → start ∉ v0 →
  ∃ c, Story.bfs fuel adj v0 start = Some (v0 ∪ list_to_set c, c)
       ∧ bfs_inv adj U v0 start (v0 ∪ list_to_set c) c
       ∧ (∀ x y, x ∈ c → neighbour adj x y → y ∈ v0 ∪ list_to_set c)
       ∧ head c = Some start.
Proof.
  intros Hfuel HU' Hv0. unfold Story.bfs.
  destruct (bfs_loop_spec v0 start fuel ({[start]} ∪ v0) [start] [])
    as (c & Hrun & Hinv & Hcl & Hpre).
  - simpl. split_and!.
    + apply NoDup_singleton.
    + set_solver.
    + by intros x ->%list_elem_of_singleton.
    + by intros x ->%list_elem_of_singleton.
    + by intros x ->%list_elem_of_singleton.
  - by intros x y ?%not_elem_of_nil.
  - pose proof (size_one_more v0 start HU' Hv0).
    assert (size (U ∖ v0) ≤ size U) by (apply subseteq_size; set_solver).
    simpl. lia.
  - exists c. split_and!; [done|done|done|].
    destruct Hpre as [l ->]. done.
Qed.

Lemma clusters_loop (fuel : nat) (l : list TableInfo) :
  size U ≤ fuel →
  (∀ t, t ∈ l → is_Some (adj !! name t) ∧ name t ∈ U) →
  ∀ v cl, clusters_inv adj U v cl →
    ∃ v' cl', foldl (Story.clusters_step fuel adj) (Some (v, cl)) l = Some (v', cl')
              ∧ clusters_inv adj U v' cl' ∧ v ⊆ v' ∧ ∀ t, t ∈ l → name t ∈ v'.
Proof.
  intros Hfuel. induction l as [|t l IH]; intros Hl v cl Hinv.
  - exists v, cl. split_and!; [done|done|done|]. by intros t ?%not_elem_of_nil.
  - assert (∀ t', t' ∈ l → is_Some (adj !! name t') ∧ name t' ∈ U) as Hl'
      by (intros t' Ht'; apply Hl; by right).
    destruct (Hl t) as [Hentry HtU]; [by left|].
    cbn [foldl]. unfold Story.clusters_step at 2.
    destruct (decide (name t ∈ v)) as [Hin|Hout].
    + rewrite bool_decide_eq_true_2 by done.
      destruct (IH Hl' v cl Hinv) as (v' & cl' & Hrun & Hinv' & Hsub & Hcov).
      exists v', cl'. split_and!; [done|done|done|].
      intros t' [->|Ht']%elem_of_cons; [by apply Hsub|by apply Hcov].
    + rewrite bool_decide_eq_false_2 by done.
      destruct (bfs_spec fuel v (name t) Hfuel HtU Hout)
        as (c & Hrun & (Hnd & _ & Hfresh & HcU & Hreach) & Hclosed & Hhead).
      rewrite Hrun.
      destruct Hinv as (Hv & Hndv & HvU & Hvcl & Hall).
      destruct (IH Hl' (v ∪ list_to_set c) (cl ++ [c])) as (v' & cl' & Hrun' & Hinv' & Hsub & Hcov).
      { split_and!.
        - rewrite concat_app, list_to_set_app_L. simpl. rewrite app_nil_r. by rewrite Hv.
        - rewrite concat_app. simpl. rewrite app_nil_r.
          apply NoDup_app. split_and!; [done| |done].
          intros x Hx Hx'. apply (Hfresh x Hx'). rewrite Hv. by apply elem_of_list_to_set.
        - intros x [Hx|Hx]%elem_of_union; [by apply HvU|].
          apply HcU. by apply elem_of_list_to_set in Hx.
        - intros x y [Hx|Hx]%elem_of_union Hy.
          + apply elem_of_union_l. by apply (Hvcl x).
          + apply (Hclosed x); [|done]. by apply elem_of_list_to_set in Hx.
        - apply Forall_app. split; [done|]. apply Forall_singleton.
          exists (name t). split_and!; [done|done|done|].
          intros x y Hx Hy Hentry'.
          pose proof (Hclosed x y Hx Hy) as Hy'.
          apply elem_of_union in Hy' as [Hyv|Hyc];
            [|by apply elem_of_list_to_set in Hyc].
          exfalso. apply (Hfresh x Hx). apply (Hvcl y); [done|]. by apply Hsym. }
      exists v', cl'. split_and!; [done|done|set_solver|].
      intros t' [->|Ht']%elem_of_cons; [|by apply Hcov].
      apply Hsub, elem_of_union_r, elem_of_list_to_set.
      destruct c; simplify_eq/=. by left.
Qed.
End BfsFacts.

Lemma elem_of_concat {A : Type} (x : A) (ls : list (list A)) :
  x ∈ concat ls ↔ ∃ l, l ∈ ls ∧ x ∈ l.
Proof.
  induction ls as [|l ls IH]; simpl.
  - split; [by intros ?%not_elem_of_nil|]. by intros (l & ?%not_elem_of_nil & _).
  - rewrite elem_of_app, IH. split.
    + intros [Hx|(l' & Hl' & Hx)]; [exists l; split; [by left|done]|].
      exists l'. split; [by right|done].
    + intros (l' & [->|Hl']%elem_of_cons & Hx); [by left|]. right. eauto.
Qed.

Lemma rtc_symmetric {A : Type} (R : relation A) (x y : A) :
  (∀ a b, R a b → R b a) → rtc R x y → rtc R y x.
Proof.
  intros Hsym. induction 1 as [|x y z Hxy _ IH]; [done|].
  eapply rtc_r; [exact IH|]. by apply Hsym.
Qed.

(** What holds of the sorted cluster list of every schema. *)
Lemma story_clusters_core (ts : list TableInfo) (fks : list ForeignKey) (fuel : nat) :
  plain_names ts fks → rounds ts fks ≤ fuel →
  ∃ cl, Story.clusters fuel ts fks = Some cl
    ∧ NoDup (concat cl)
    ∧ (∀ n, n ∈ name <$> ts → n ∈ concat cl)
    ∧ (∀ x y, x ∈ concat cl → neighbour (adjacency ts fks) x y → y ∈ concat cl)
    ∧ Forall (λ c, ∃ start, head c = Some start ∧ start ∈ name <$> ts
                 ∧ (∀ x, x ∈ c → rtc (neighbour (adjacency ts fks)) start x)
                 ∧ (∀ x y, x ∈ c → neighbour (adjacency ts fks) x y →
                           y ∈ name <$> ts → y ∈ c)) cl
    ∧ StronglySorted (λ a b, length b ≤ length a) cl.
Proof.
  intros Hpl Hfuel. set (adj := adjacency ts fks). set (U := universe ts fks).
  destruct (clusters_loop adj U (neighbour_universe ts fks)) with (fuel := fuel) (l := ts)
    (v := (∅ : gset string)) (cl := @nil (list string))
    as (v & cl & Hrun & (Hv & Hnd & _ & Hclosed & Hall) & _ & Hcov).
  - intros x y [Hx Hadj]%neighbour_spec Hy%adj_entry.
    apply neighbour_spec. split; [done|]. by apply adjacent_sym.
  - pose proof (universe_size ts fks). unfold U. lia.
  - intros t Ht. split.
    + apply adj_entry. by apply list_elem_of_fmap_2.
    + unfold U, universe. apply elem_of_union_l, elem_of_union_l, elem_of_list_to_set.
      by apply list_elem_of_fmap_2.
  - split_and!; [done|constructor|done|by intros x y ?%not_elem_of_empty|constructor].
  - unfold Story.clusters, Story.build_clusters.
    rewrite build_adj_plain by done. fold adj. rewrite Hrun.
    pose proof (array_sort_perm Story.by_length cl) as Hperm.
    pose proof (concat_perm _ _ Hperm) as Hcperm.
    exists (array_sort Story.by_length cl). split_and!.
    + done.
    + by rewrite Hcperm.
    + intros n (t & -> & Ht)%list_elem_of_fmap. rewrite Hcperm.
      pose proof (Hcov t Ht) as Hin. rewrite Hv in Hin.
      by apply elem_of_list_to_set in Hin.
    + intros x y. rewrite Hcperm. rewrite <- !(elem_of_list_to_set (C := gset string)), <- Hv.
      apply Hclosed.
    + rewrite Hperm. eapply Forall_impl; [exact Hall|].
      intros c (start & Hhead & Hentry & Hreach & Hcl). exists start.
      split_and!; [done|by apply adj_entry in Hentry|done|].
      intros x y Hx Hy Hyt. apply (Hcl x); [done|done|by apply adj_entry].
    + apply (array_sort_sorted length).
Qed.

(** A foreign key to a missing table named like an inherited member stops
    the chapters of [StoryView] with a [TypeError], whatever the budget. *)
Example inherited_target_stops_chapters :
  ∀ fuel, Story.chapters fuel {| tables := [tbl "A"];
                                 foreignKeys := [fk "A" "constructor"] |} = None.
Proof. reflexivity. Qed.

(** X26. For every schema in which no table and no end of a foreign key is
    named like a member that every object inherits, the cluster search of
    StoryView ends, within one round for every table and two for every
    foreign key, and returns clusters that share no name, sorted by
    falling length.  Every cluster
    starts with a table name, and a name is in a cluster exactly when it
    is a table name or a foreign key joins it to a table: the end of a
    foreign key that is no table is a member of a cluster as well. *)
Theorem story_clusters_partition (ts : list TableInfo) (fks : list ForeignKey)
    (fuel : nat) :
  plain_names ts fks → rounds ts fks ≤ fuel →
  ∃ cl, Story.clusters fuel ts fks = Some cl
    ∧ NoDup (concat cl)
    ∧ (∀ n, n ∈ concat cl
            ↔ n ∈ name <$> ts ∨ ∃ t, t ∈ name <$> ts ∧ adjacent fks t n)
    ∧ Forall (λ c, ∃ start, head c = Some start ∧ start ∈ name <$> ts) cl
    ∧ StronglySorted (λ a b, length b ≤ length a) cl.
Proof.
  intros Hpl Hfuel.
  destruct (story_clusters_core ts fks fuel Hpl Hfuel)
    as (cl & Hrun & Hnd & Hcov & Hclosed & Hall & Hsorted).
  exists cl. split_and!; [done|done| | |done].
  - intros n. split.
    + intros (c & Hc & Hn)%elem_of_concat.
      rewrite Forall_forall in Hall.
      destruct (Hall c Hc) as (start & _ & Hstart & Hreach & _).
      destruct (rtc_inv_r _ _ (Hreach n Hn)) as [<-|(p & _ & Hp)]; [by left|].
      right. exists p. by apply neighbour_spec in Hp.
    + intros [Hn|(t & Ht & Hadj)]; [by apply Hcov|].
      apply (Hclosed t); [by apply Hcov|]. by apply neighbour_spec.
  - eapply Forall_impl; [exact Hall|].
    intros c (start & ? & ? & _). eauto.
Qed.

Lemma story_clusters_partition_witness :
  plain_names (tables shop) (foreignKeys shop)
  ∧ rounds (tables shop) (foreignKeys shop) ≤ 20
  ∧ ∃ cl, Story.clusters 20 (tables shop) (foreignKeys shop) = Some cl
    ∧ NoDup (concat cl)
    ∧ (∀ n, n ∈ concat cl
            ↔ n ∈ name <$> tables shop
              ∨ ∃ t, t ∈ name <$> tables shop ∧ adjacent (foreignKeys shop) t n)
    ∧ Forall (λ c, ∃ start, head c = Some start ∧ start ∈ name <$> tables shop) cl
    ∧ StronglySorted (λ a b, length b ≤ length a) cl.
Proof.
  assert (plain_names (tables shop) (foreignKeys shop)) as Hpl.
  { split; repeat constructor. }
  assert (rounds (tables shop) (foreignKeys shop) ≤ 20) as H by (vm_compute; lia).
  split_and!; [exact Hpl|exact H|].
  exact (story_clusters_partition (tables shop) (foreignKeys shop) 20 Hpl H).
Defined.

(** X27. When no table and no end of a foreign key is named like a member
    that every object inherits, any two names of a cluster of StoryView
    are joined by a chain of foreign keys, and two tables that a foreign
    key joins are in the same cluster. *)
Theorem story_clusters_connected (ts : list TableInfo) (fks : list ForeignKey)
    (fuel : nat) :
  plain_names ts fks → rounds ts fks ≤ fuel →
  ∃ cl, Story.clusters fuel ts fks = Some cl
    ∧ (∀ c x y, c ∈ cl → x ∈ c → y ∈ c → rtc (adjacent fks) x y)
    ∧ (∀ a b, a ∈ name <$> ts → b ∈ name <$> ts → adjacent fks a b →
         ∃ c, c ∈ cl ∧ a ∈ c ∧ b ∈ c).
Proof.
  intros Hpl Hfuel.
  destruct (story_clusters_core ts fks fuel Hpl Hfuel)
    as (cl & Hrun & Hnd & Hcov & Hclosed & Hall & Hsorted).
  rewrite Forall_forall in Hall.
  exists cl. split_and!; [done| |].
  - intros c x y Hc Hx Hy.
    destruct (Hall c Hc) as (start & _ & _ & Hreach & _).
    assert (∀ z, z ∈ c → rtc (adjacent fks) start z) as Hadj.
    { intros z Hz. eapply rtc_subrel; [|by apply Hreach].
      by intros p q [_ ?]%neighbour_spec. }
    etrans; [|by apply Hadj].
    apply rtc_symmetric; [apply adjacent_sym|by apply Hadj].
  - intros a b Ha Hb Hab.
    destruct (proj1 (elem_of_concat a cl) (Hcov a Ha)) as (c & Hc & Hac).
    exists c. split_and!; [done|done|].
    destruct (Hall c Hc) as (start & _ & _ & _ & Hcl).
    apply (Hcl a); [done| |done]. by apply neighbour_spec.
Qed.

Lemma story_clusters_connected_witness :
  plain_names (tables shop) (foreignKeys shop)
  ∧ rounds (tables shop) (foreignKeys shop) ≤ 20
  ∧ ∃ cl, Story.clusters 20 (tables shop) (foreignKeys shop) = Some cl
    ∧ (∀ c x y, c ∈ cl → x ∈ c → y ∈ c → rtc (adjacent (foreignKeys shop)) x y)
    ∧ (∀ a b, a ∈ name <$> tables shop → b ∈ name <$> tables shop →
         adjacent (foreignKeys shop) a b → ∃ c, c ∈ cl ∧ a ∈ c ∧ b ∈ c).
Proof.
  assert (plain_names (tables shop) (foreignKeys shop)) as Hpl.
  { split; repeat constructor. }
  assert (rounds (tables shop) (foreignKeys shop) ≤ 20) as H by (vm_compute; lia).
  split_and!; [exact Hpl|exact H|].
  exact (story_clusters_connected (tables shop) (foreignKeys shop) 20 Hpl H).
Defined.

Lemma omap_concat {A B : Type} (f : A → option B) (ls : list (list A)) :
  concat (map (omap f) ls) = omap f (concat ls).
Proof. induction ls as [|l ls IH]; simpl; [done|]. by rewrite omap_app, IH. Qed.

Lemma omap_NoDup {A B : Type} (f : A → option B) (l : list A) :
  (∀ x y z, f x = Some z → f y = Some z → x = y) →
  NoDup l → NoDup (omap f l).
Proof.
  intros Hinj. induction 1 as [|x l Hx Hnd IH]; simpl; [constructor|].
  destruct (f x) as [z|] eqn:Hfx; [|done].
  apply NoDup_cons. split; [|done].
  intros (y & Hy & Hfy)%list_elem_of_omap.
  by rewrite (Hinj x y z Hfx Hfy) in Hx.
Qed.

(** X28. With unique table names, and when no table and no end of a
    foreign key is named like a member that every object inherits, the
    chapters of StoryView hold every table of the schema exactly once;
    every chapter has a root table, which is one of its tables; and every
    foreign key between two tables is told in a chapter that holds both
    of these tables. *)
Theorem story_chapters_partition (s : SchemaData) (fuel : nat) :
  NoDup (name <$> tables s) →
  plain_names (tables s) (foreignKeys s) →
  rounds (tables s) (foreignKeys s) ≤ fuel →
  ∃ chs, Story.chapters fuel s = Some chs
    ∧ concat (Story.chapter_tables <$> chs) ≡ₚ tables s
    ∧ Forall (λ ch, ∃ r, Story.rootTable ch = Some r ∧ r ∈ Story.chapter_tables ch) chs
    ∧ (∀ k, k ∈ foreignKeys s →
         sourceTable k ∈ name <$> tables s → targetTable k ∈ name <$> tables s →
         ∃ ch, ch ∈ chs
               ∧ CorrelationStats.detail_of k ∈ Story.relationships ch
               ∧ sourceTable k ∈ name <$> Story.chapter_tables ch
               ∧ targetTable k ∈ name <$> Story.chapter_tables ch).
Proof.
  intros Hnames Hpl Hfuel.
  destruct (story_clusters_core (tables s) (foreignKeys s) fuel Hpl Hfuel)
    as (cl & Hrun & Hnd & Hcov & Hclosed & Hall & Hsorted).
  rewrite Forall_forall in Hall.
  unfold Story.chapters. rewrite Hrun.
  set (tm := ProcessFlow.tableMap (tables s)).
  assert (∀ n t, tm !! n = Some t → t ∈ tables s ∧ name t = n) as Htm
    by (intros n t; apply keyed_elem).
  assert (∀ t, t ∈ tables s → tm !! name t = Some t) as Htm'
    by (intros t; by apply keyed_unique).
  assert (∀ (c : list string) (n : string), n ∈ c → n ∈ name <$> tables s →
            n ∈ name <$> omap (λ n, tm !! n) c) as Hin.
  { intros c n Hn (t & -> & Ht)%list_elem_of_fmap.
    apply list_elem_of_fmap_2, list_elem_of_omap. exists (name t). split; [done|].
    by apply Htm'. }
  eexists. split_and!; [done| | |].
  - change (Story.chapter_tables <$> ?l) with (map Story.chapter_tables l).
    rewrite map_map. simpl. rewrite omap_concat.
    apply NoDup_Permutation.
    + apply omap_NoDup; [|done]. intros x y z Hx%Htm Hy%Htm.
      destruct Hx as [_ <-]. by destruct Hy as [_ <-].
    + eapply NoDup_fmap_1. exact Hnames.
    + intros t. rewrite list_elem_of_omap. split.
      * by intros (n & _ & [? _]%Htm).
      * intros Ht. exists (name t). split; [|by apply Htm'].
        apply Hcov. by apply list_elem_of_fmap_2.
  - apply Forall_forall. intros ch (c & -> & Hc)%list_elem_of_fmap.
    destruct (Hall c Hc) as (start & Hhead & (t & -> & Ht)%list_elem_of_fmap & _).
    apply head_Some in Hhead as [c' ->].
    unfold Story.make_chapter. cbn [Story.rootTable Story.chapter_tables].
    destruct (Story.rootTables _ _ _) as [|r rs] eqn:Hroots.
    + simpl. rewrite (Htm' t Ht). simpl. exists t. split; [done|by left].
    + exists r. split; [done|].
      assert (r ∈ r :: rs) as Hr by by left. rewrite <- Hroots in Hr.
      apply list_elem_of_In, filter_In in Hr as [Hr _]. by apply list_elem_of_In.
  - intros k Hk Hsrc Htgt.
    destruct (proj1 (elem_of_concat _ cl) (Hcov _ Hsrc)) as (c & Hc & Hsc).
    destruct (Hall c Hc) as (start & _ & _ & _ & Hcl).
    assert (targetTable k ∈ c) as Htc.
    { apply (Hcl (sourceTable k)); [done| |done].
      apply neighbour_spec. split; [done|]. left. by exists k. }
    exists (Story.make_chapter tm (foreignKeys s) c). split_and!.
    + apply list_elem_of_In, in_map. by apply list_elem_of_In.
    + cbn [Story.make_chapter Story.relationships].
      apply list_elem_of_In, in_map, filter_In. split; [by apply list_elem_of_In|].
      unfold Story.cluster_includes. by rewrite !bool_decide_eq_true_2.
    + by apply Hin.
    + by apply Hin.
Qed.

Lemma story_chapters_partition_witness :
  NoDup (name <$> tables shop)
  ∧ plain_names (tables shop) (foreignKeys shop)
  ∧ rounds (tables shop) (foreignKeys shop) ≤ 20
  ∧ ∃ chs, Story.chapters 20 shop = Some chs
    ∧ concat (Story.chapter_tables <$> chs) ≡ₚ tables shop
    ∧ Forall (λ ch, ∃ r, Story.rootTable ch = Some r ∧ r ∈ Story.chapter_tables ch) chs
    ∧ (∀ k, k ∈ foreignKeys shop →
         sourceTable k ∈ name <$> tables shop → targetTable k ∈ name <$> tables shop →
         ∃ ch, ch ∈ chs
               ∧ CorrelationStats.detail_of k ∈ Story.relationships ch
               ∧ sourceTable k ∈ name <$> Story.chapter_tables ch
               ∧ targetTable k ∈ name <$> Story.chapter_tables ch).
Proof.
  assert (NoDup (name <$> tables shop)) as Hnd.
  { apply (bool_decide_unpack _). vm_compute. exact I. }
  assert (plain_names (tables shop) (foreignKeys shop)) as Hpl.
  { split; repeat constructor. }
  assert (rounds (tables shop) (foreignKeys shop) ≤ 20) as H by (vm_compute; lia).
  split_and!; [exact Hnd|exact Hpl|exact H|].
  exact (story_chapters_partition shop 20 Hnd Hpl H).
Defined.
